(** * Natural-deduction proof checker: formula parser and rule engine

    Shallow embedding of
      - backend/src/logics/engine.ts   ([isFormulaEqual], [applyRule])
      - backend/src/logics/types.ts    (the data model)
      - backend/dist/logics            (compiled [tokenize] and [parse])
    together with the properties stated about them.

    Conventions of the embedding.
      - A JavaScript string is the list of its UTF-16 code units, each a
        number in [N]; [input[position]] reads one code unit.
      - A JavaScript [number] used as a step id, a depth or a counter is an
        integer-valued double, written as its value in [Z] (the data model
        calls these fields integers).  Comparisons and [Math.max] are
        exact; the one addition of the source, [nextId + 1], rounds as the
        IEEE 754 binary64 addition does (module [Number]).
      - A formula is an object of one of the three variants of types.ts
        with exactly the properties of its variant; it carries the order
        of its own keys, which [JSON.stringify] follows.  The object
        literals of the parser, the engine and the client write [type]
        first and the other keys in the order of types.ts.
      - A [throw] is the left injection of a sum; the exception type [Exn]
        has one constructor per [throw] site of the source plus the
        [TypeError] the runtime raises on a property read of [undefined]. *)

From Stdlib Require Import String Ascii.
From Stdlib Require Import List Bool Arith ZArith NArith Lia.
Import ListNotations.

(* ================================================================== *)
(** ** JavaScript strings *)
(* ================================================================== *)

Module JS.

Definition CodeUnit := N.
Definition JSString := list CodeUnit.

(** An ASCII literal of the source, as code units. *)
Definition lit (s : string) : JSString :=
  map N_of_ascii (list_ascii_of_string s).

(** [===] on strings: same length and same code units. *)
Fixpoint str_eqb (a b : JSString) : bool :=
  match a, b with
  | [], [] => true
  | x :: a', y :: b' => N.eqb x y && str_eqb a' b'
  | _, _ => false
  end.

(** *** JSON.stringify on strings (ECMA-262, QuoteJSONString)

    The string is read by code points: a leading surrogate followed by a
    trailing surrogate is one code point and is copied as it is; a lone
    surrogate and a control character without a short form are written
    as a backslash, the letter u and four lower-case hexadecimal digits;
    backspace, tab, line feed, form feed, carriage return, the double quote
    and the backslash have a two-character short form. *)

Definition isLeadingSurrogate (c : CodeUnit) : bool :=
  (55296 <=? c)%N && (c <=? 56319)%N.          (* 0xD800 .. 0xDBFF *)

Definition isTrailingSurrogate (c : CodeUnit) : bool :=
  (56320 <=? c)%N && (c <=? 57343)%N.          (* 0xDC00 .. 0xDFFF *)

Definition hexDigit (n : N) : CodeUnit :=
  if (n <? 10)%N then (48 + n)%N else (87 + n)%N.   (* '0'..'9', 'a'..'f' *)

Definition UnicodeEscape (c : CodeUnit) : JSString :=
  [92%N; 117%N;
   hexDigit ((c / 4096) mod 16); hexDigit ((c / 256) mod 16);
   hexDigit ((c / 16) mod 16); hexDigit (c mod 16)].

(** One code point that is a single code unit. *)
Definition quoteCodeUnit (c : CodeUnit) : JSString :=
  if (c =? 8)%N then [92; 98]%N              (* \b *)
  else if (c =? 9)%N then [92; 116]%N        (* \t *)
  else if (c =? 10)%N then [92; 110]%N       (* \n *)
  else if (c =? 12)%N then [92; 102]%N       (* \f *)
  else if (c =? 13)%N then [92; 114]%N       (* \r *)
  else if (c =? 34)%N then [92; 34]%N        (* double quote *)
  else if (c =? 92)%N then [92; 92]%N        (* backslash *)
  else if (c <? 32)%N || isLeadingSurrogate c || isTrailingSurrogate c
       then UnicodeEscape c
  else [c].

Fixpoint quoteCodePoints (s : JSString) : JSString :=
  match s with
  | [] => []
  | c :: rest =>
      match rest with
      | d :: rest' =>
          if isLeadingSurrogate c && isTrailingSurrogate d
          then c :: d :: quoteCodePoints rest'
          else quoteCodeUnit c ++ quoteCodePoints rest
      | [] => quoteCodeUnit c ++ quoteCodePoints rest
      end
  end.

Definition QuoteJSONString (s : JSString) : JSString :=
  34%N :: quoteCodePoints s ++ [34%N].

(** Views of the serializer used in the proofs: whether [c] and the head
    of [rest] form a surrogate pair, and the three shapes of the text
    written for a single code unit. *)
Definition startsPair (c : CodeUnit) (rest : JSString) : bool :=
  match rest with
  | d :: _ => isLeadingSurrogate c && isTrailingSurrogate d
  | [] => false
  end.

Inductive UnitText (c : CodeUnit) : JSString -> Prop :=
| Short k : In (c, k) [(8, 98); (9, 116); (10, 110); (12, 102); (13, 114);
                       (34, 34); (92, 92)]%N ->
            UnitText c [92%N; k]
| Escaped : (c < 65536)%N -> UnitText c (UnicodeEscape c)
| Literal : c <> 34%N -> c <> 92%N -> isLeadingSurrogate c = false ->
            UnitText c [c].

End JS.
Import JS.

(* ================================================================== *)
(** ** JavaScript numbers that hold integers *)
(* ================================================================== *)

Module Number.

(** Integers from [-limit] to [limit] are doubles; beyond, only the
    multiples of a power of two are. *)
Definition limit : Z := (2 ^ 53)%Z.

(** Rounding of an integer to the nearest double, ties to the even
    significand (the result of an IEEE 754 binary64 operation whose exact
    value is [z]): [2 ^ e] is the gap between the doubles around [z]. *)
Definition round (z : Z) : Z :=
  let m := Z.abs z in
  if (m <? limit)%Z then z
  else
    let e := (Z.log2 m - 52)%Z in
    let q := (m / 2 ^ e)%Z in
    let r := (m mod 2 ^ e)%Z in
    let half := (2 ^ (e - 1))%Z in
    let up := (half <? r)%Z || ((r =? half)%Z && Z.odd q) in
    (Z.sgn z * ((if up then q + 1 else q) * 2 ^ e))%Z.

(** [a + b] on doubles that hold integers.  The source adds 1 to a
    counter only, which cannot overflow to [Infinity]. *)
Definition add (a b : Z) : Z := round (a + b).

End Number.

(* ================================================================== *)
(** ** Data model (types.ts) *)
(* ================================================================== *)

Definition Proposition := JSString.

Inductive Connective := NOT | AND | OR | IMPLIES.

Inductive TokenType :=
| T_PROPOSITION | T_IMPLIES | T_AND | T_OR | T_NOT
| T_LEFT_PAREN | T_RIGHT_PAREN | T_EOF.

Record Token := mkToken { tok_type : TokenType; tok_value : JSString }.

(** The property keys of formula objects. *)
Inductive Key := K_type | K_name | K_formula | K_connective | K_left | K_right.

Definition Key_name (k : Key) : string :=
  match k with
  | K_type => "type"
  | K_name => "name"
  | K_formula => "formula"
  | K_connective => "connective"
  | K_left => "left"
  | K_right => "right"
  end.

(** The order of the own keys of an object, which is the order in which
    they were created: an object literal gives the order in which it is
    written and [JSON.parse] the order of the text.  Each variant has its
    keys once, in any order. *)
Inductive AtomKeys := type_name | name_type.

Inductive NotKeys := type_formula | formula_type.

(** The 24 orders of [type] (t), [connective] (c), [left] (l) and
    [right] (r). *)
Inductive BinaryKeys :=
| tclr | tcrl | tlcr | tlrc | trcl | trlc
| ctlr | ctrl | cltr | clrt | crtl | crlt
| ltcr | ltrc | lctr | lcrt | lrtc | lrct
| rtcl | rtlc | rctl | rclt | rltc | rlct.

Definition AtomKeys_order (keys : AtomKeys) : list Key :=
  match keys with
  | type_name => [K_type; K_name]
  | name_type => [K_name; K_type]
  end.

Definition NotKeys_order (keys : NotKeys) : list Key :=
  match keys with
  | type_formula => [K_type; K_formula]
  | formula_type => [K_formula; K_type]
  end.

Definition BinaryKeys_order (keys : BinaryKeys) : list Key :=
  match keys with
  | tclr => [K_type; K_connective; K_left; K_right]
  | tcrl => [K_type; K_connective; K_right; K_left]
  | tlcr => [K_type; K_left; K_connective; K_right]
  | tlrc => [K_type; K_left; K_right; K_connective]
  | trcl => [K_type; K_right; K_connective; K_left]
  | trlc => [K_type; K_right; K_left; K_connective]
  | ctlr => [K_connective; K_type; K_left; K_right]
  | ctrl => [K_connective; K_type; K_right; K_left]
  | cltr => [K_connective; K_left; K_type; K_right]
  | clrt => [K_connective; K_left; K_right; K_type]
  | crtl => [K_connective; K_right; K_type; K_left]
  | crlt => [K_connective; K_right; K_left; K_type]
  | ltcr => [K_left; K_type; K_connective; K_right]
  | ltrc => [K_left; K_type; K_right; K_connective]
  | lctr => [K_left; K_connective; K_type; K_right]
  | lcrt => [K_left; K_connective; K_right; K_type]
  | lrtc => [K_left; K_right; K_type; K_connective]
  | lrct => [K_left; K_right; K_connective; K_type]
  | rtcl => [K_right; K_type; K_connective; K_left]
  | rtlc => [K_right; K_type; K_left; K_connective]
  | rctl => [K_right; K_connective; K_type; K_left]
  | rclt => [K_right; K_connective; K_left; K_type]
  | rltc => [K_right; K_left; K_type; K_connective]
  | rlct => [K_right; K_left; K_connective; K_type]
  end.

(** [Formula] is the tagged union of types.ts; the tag [type] is the
    constructor, and every object carries the order of its keys. *)
Inductive Formula :=
| AtomObject (keys : AtomKeys) (name : Proposition)
| NotObject (keys : NotKeys) (formula : Formula)
| BinaryObject (keys : BinaryKeys) (connective : Connective)
    (left right : Formula).

(** The object literals of the source: [{ type: 'ATOM', name }],
    [{ type: 'NOT', formula }] and
    [{ type: 'BINARY', connective, left, right }]. *)
Abbreviation ATOM := (AtomObject type_name).
Abbreviation FNOT := (NotObject type_formula).
Abbreviation BINARY := (BinaryObject tclr).

Inductive RuleName :=
| MP | CI | CE_LEFT | CE_RIGHT | DN | DI_LEFT | DI_RIGHT | DS | II | ASSUME.

Record ProofStep := mkStep {
  id : Z;
  formula : Formula;
  rule : RuleName;
  justification : list Z;
  depth : Z;
  isDischarged : option bool          (* optional field *)
}.

Record ProofState := mkState {
  premises : list ProofStep;
  goal : Formula;
  currentSteps : list ProofStep;
  nextId : Z
}.

Definition Connective_eqb (a b : Connective) : bool :=
  match a, b with
  | NOT, NOT | AND, AND | OR, OR | IMPLIES, IMPLIES => true
  | _, _ => false
  end.

Definition RuleName_eqb (a b : RuleName) : bool :=
  match a, b with
  | MP, MP | CI, CI | CE_LEFT, CE_LEFT | CE_RIGHT, CE_RIGHT | DN, DN
  | DI_LEFT, DI_LEFT | DI_RIGHT, DI_RIGHT | DS, DS | II, II
  | ASSUME, ASSUME => true
  | _, _ => false
  end.

(* ================================================================== *)
(** ** JSON.stringify on formulas and [isFormulaEqual] (engine.ts) *)
(* ================================================================== *)

Definition Connective_name (c : Connective) : JSString :=
  match c with
  | NOT => lit "NOT"
  | AND => lit "AND"
  | OR => lit "OR"
  | IMPLIES => lit "IMPLIES"
  end.

(** A property of an object: the quoted key and a colon. *)
Definition member (key : string) : JSString :=
  QuoteJSONString (lit key) ++ lit ":".

(** The members of an object, separated by commas, between braces. *)
Fixpoint commaSeparated (members : list JSString) : JSString :=
  match members with
  | [] => []
  | [m] => m
  | m :: rest => m ++ lit "," ++ commaSeparated rest
  end.

Definition JSON_object (members : list JSString) : JSString :=
  lit "{" ++ commaSeparated members ++ lit "}".

(** The text of the value stored under a key, for each variant; the texts
    of the sub-formulas are passed in. *)
Definition atomValue (name : Proposition) (k : Key) : JSString :=
  match k with
  | K_type => QuoteJSONString (lit "ATOM")
  | K_name => QuoteJSONString name
  | _ => []
  end.

Definition notValue (formulaText : JSString) (k : Key) : JSString :=
  match k with
  | K_type => QuoteJSONString (lit "NOT")
  | K_formula => formulaText
  | _ => []
  end.

Definition binaryValue (c : Connective) (leftText rightText : JSString)
    (k : Key) : JSString :=
  match k with
  | K_type => QuoteJSONString (lit "BINARY")
  | K_connective => QuoteJSONString (Connective_name c)
  | K_left => leftText
  | K_right => rightText
  | _ => []
  end.

(** One property: the quoted key, a colon and the value. *)
Definition property (value : Key -> JSString) (k : Key) : JSString :=
  member (Key_name k) ++ value k.

(** [JSON.stringify] on a formula object: the properties in the order of
    the object's own keys. *)
Fixpoint JSON_stringify (f : Formula) : JSString :=
  match f with
  | AtomObject keys name =>
      JSON_object (map (property (atomValue name)) (AtomKeys_order keys))
  | NotObject keys g =>
      JSON_object
        (map (property (notValue (JSON_stringify g))) (NotKeys_order keys))
  | BinaryObject keys c l r =>
      JSON_object
        (map (property (binaryValue c (JSON_stringify l) (JSON_stringify r)))
           (BinaryKeys_order keys))
  end.

Definition isFormulaEqual (f1 f2 : Formula) : bool :=
  str_eqb (JSON_stringify f1) (JSON_stringify f2).

(** The reference the specification compares [isFormulaEqual] with: exact
    recursive equality of the variant tag and of all fields. *)
Fixpoint structurallyEqual (f1 f2 : Formula) : bool :=
  match f1, f2 with
  | AtomObject _ n1, AtomObject _ n2 => str_eqb n1 n2
  | NotObject _ g1, NotObject _ g2 => structurallyEqual g1 g2
  | BinaryObject _ c1 l1 r1, BinaryObject _ c2 l2 r2 =>
      Connective_eqb c1 c2 && structurallyEqual l1 l2
        && structurallyEqual r1 r2
  | _, _ => false
  end.

(** Every object of the formula has its keys in the order of the object
    literals of the source. *)
Fixpoint literalKeys (f : Formula) : bool :=
  match f with
  | ATOM _ => true
  | FNOT g => literalKeys g
  | BINARY _ l r => literalKeys l && literalKeys r
  | _ => false
  end.

(** Number of nodes of a formula tree. *)
Fixpoint Formula_size (f : Formula) : nat :=
  match f with
  | AtomObject _ _ => 1
  | NotObject _ g => S (Formula_size g)
  | BinaryObject _ _ l r => S (Formula_size l + Formula_size r)
  end.

(* ================================================================== *)
(** ** Exceptions *)
(* ================================================================== *)

(** One constructor per [throw new Error(...)] of the source, named after
    its message, and the [TypeError] of a property read on [undefined]. *)
Inductive Exn :=
| MP_requires_exactly_two_premises
| One_or_both_selected_steps_not_found
| MP_premises_do_not_match
| CI_requires_exactly_two_premises
| CE_requires_exactly_one_premise
| Selected_step_was_not_found
| CE_premise_must_be_a_conjunction
| DN_requires_exactly_one_premise
| DN_premise_must_be_a_double_negation
| DI_requires_exactly_one_premise
| DI_requires_a_secondary_formula
| DS_requires_exactly_two_premises
| DS_premises_must_be_disjunction_and_negation
| II_requires_exactly_two_steps
| Selected_steps_not_found
| Could_not_determine_assumption_and_conclusion
| Rule_is_not_yet_implemented (r : RuleName)
| TypeError_reading_undefined (property : string)
| Invalid_character (char : CodeUnit) (position : nat)
| Unrecognized_character (char : CodeUnit) (position : nat)
| Expected_right_paren_but_found (value : JSString)
| Unexpected_token (value : JSString)
| Unexpected_token_at_end (value : JSString).

Definition Result (A : Type) : Type := (Exn + A)%type.

Definition throw {A} (e : Exn) : Result A := inl e.
Definition ret {A} (a : A) : Result A := inr a.

(** The error taxonomy of the specification. *)
Inductive ErrorKind :=
| ArityMismatch | StepNotFound | MissingSecondaryFormula | PatternMismatch
| NotImplemented | RuntimeTypeError | LexError | ParseError.

Definition kindOf (e : Exn) : ErrorKind :=
  match e with
  | MP_requires_exactly_two_premises | CI_requires_exactly_two_premises
  | CE_requires_exactly_one_premise | DN_requires_exactly_one_premise
  | DI_requires_exactly_one_premise | DS_requires_exactly_two_premises
  | II_requires_exactly_two_steps => ArityMismatch
  | One_or_both_selected_steps_not_found | Selected_step_was_not_found
  | Selected_steps_not_found => StepNotFound
  | DI_requires_a_secondary_formula => MissingSecondaryFormula
  | MP_premises_do_not_match | CE_premise_must_be_a_conjunction
  | DN_premise_must_be_a_double_negation
  | DS_premises_must_be_disjunction_and_negation
  | Could_not_determine_assumption_and_conclusion => PatternMismatch
  | Rule_is_not_yet_implemented _ => NotImplemented
  | TypeError_reading_undefined _ => RuntimeTypeError
  | Invalid_character _ _ | Unrecognized_character _ _ => LexError
  | Expected_right_paren_but_found _ | Unexpected_token _
  | Unexpected_token_at_end _ => ParseError
  end.

(* ================================================================== *)
(** ** The rule engine: [applyRule] (engine.ts) *)
(* ================================================================== *)

(** [state.currentSteps.find(step => step.id === id)] *)
Definition findStep (state : ProofState) (i : Z) : option ProofStep :=
  find (fun step => Z.eqb (id step) i) (currentSteps state).

(** [.filter(step => !!step)] on an array of steps and [undefined]s. *)
Fixpoint filterDefined {A} (l : list (option A)) : list A :=
  match l with
  | [] => []
  | Some a :: l' => a :: filterDefined l'
  | None :: l' => filterDefined l'
  end.

(** [selectedStepIds.map(id => find ...).filter(step => !!step)] *)
Definition selectedPremises (state : ProofState) (ids : list Z)
  : list ProofStep :=
  filterDefined (map (findStep state) ids).

(** [{ ...state, currentSteps: [...steps, newStep], nextId: state.nextId + 1 }] *)
Definition withNewStep (state : ProofState) (steps : list ProofStep)
    (newStep : ProofStep) : ProofState :=
  {| premises := premises state;
     goal := goal state;
     currentSteps := steps ++ [newStep];
     nextId := Number.add (nextId state) 1 |}.

(** A step built without the optional [isDischarged] field. *)
Definition newStepOf (state : ProofState) (f : Formula) (r : RuleName)
    (ids : list Z) (d : Z) : ProofStep :=
  {| id := nextId state; formula := f; rule := r; justification := ids;
     depth := d; isDischarged := None |}.

(** [{ ...step, isDischarged: true }] *)
Definition discharged (step : ProofStep) : ProofStep :=
  {| id := id step; formula := formula step; rule := rule step;
     justification := justification step; depth := depth step;
     isDischarged := Some true |}.

(** [x.formula] where [x] may be [undefined]. *)
Definition formulaOf (x : option ProofStep) : Result Formula :=
  match x with
  | Some step => ret (formula step)
  | None => throw (TypeError_reading_undefined "formula")
  end.

Definition depthOf (x : option ProofStep) : Result Z :=
  match x with
  | Some step => ret (depth step)
  | None => throw (TypeError_reading_undefined "depth")
  end.

Definition isASSUME (step : ProofStep) : bool := RuleName_eqb (rule step) ASSUME.

(** One of the two orderings tried by MP: [implication] is a binary
    IMPLIES node whose left side equals [antecedent]. *)
Definition mpConclusion (implication antecedent : Formula) : option Formula :=
  match implication with
  | BinaryObject _ IMPLIES l r =>
      if isFormulaEqual l antecedent then Some r else None
  | _ => None
  end.

Definition applyMP (state : ProofState) (selectedStepIds : list Z)
  : Result ProofState :=
  if negb (length selectedStepIds =? 2) then
    throw MP_requires_exactly_two_premises
  else
    let premises := selectedPremises state selectedStepIds in
    if negb (length premises =? 2) then
      throw One_or_both_selected_steps_not_found
    else
      match premises with
      | [p1; p2] =>
          match mpConclusion (formula p1) (formula p2) with
          | Some newFormula =>
              ret (withNewStep state (currentSteps state)
                     (newStepOf state newFormula MP selectedStepIds
                        (Z.max (depth p1) (depth p2))))
          | None =>
              match mpConclusion (formula p2) (formula p1) with
              | Some newFormula =>
                  ret (withNewStep state (currentSteps state)
                         (newStepOf state newFormula MP selectedStepIds
                            (Z.max (depth p1) (depth p2))))
              | None => throw MP_premises_do_not_match
              end
          end
      | _ => throw (TypeError_reading_undefined "formula")
      end.

(** No check of [premises.length] here: the two destructured premises may
    be [undefined]. *)
Definition applyCI (state : ProofState) (selectedStepIds : list Z)
  : Result ProofState :=
  if negb (length selectedStepIds =? 2) then
    throw CI_requires_exactly_two_premises
  else
    let premises := selectedPremises state selectedStepIds in
    let premiseA := nth_error premises 0 in
    let premiseB := nth_error premises 1 in
    match formulaOf premiseA with
    | inl e => inl e
    | inr fA =>
    match formulaOf premiseB with
    | inl e => inl e
    | inr fB =>
    match depthOf premiseA with
    | inl e => inl e
    | inr dA =>
    match depthOf premiseB with
    | inl e => inl e
    | inr dB =>
        ret (withNewStep state (currentSteps state)
               (newStepOf state (BINARY AND fA fB) CI selectedStepIds
                  (Z.max dA dB)))
    end end end end.

Definition applyCE (state : ProofState) (rule : RuleName)
    (selectedStepIds : list Z) : Result ProofState :=
  match selectedStepIds with
  | [id0] =>
      match findStep state id0 with
      | None => throw Selected_step_was_not_found
      | Some premise =>
          match formula premise with
          | BinaryObject _ AND l r =>
              let newFormula :=
                if RuleName_eqb rule CE_LEFT then l else r in
              ret (withNewStep state (currentSteps state)
                     (newStepOf state newFormula rule selectedStepIds
                        (depth premise)))
          | _ => throw CE_premise_must_be_a_conjunction
          end
      end
  | _ => throw CE_requires_exactly_one_premise
  end.

Definition applyDN (state : ProofState) (selectedStepIds : list Z)
  : Result ProofState :=
  match selectedStepIds with
  | [id0] =>
      match findStep state id0 with
      | None => throw Selected_step_was_not_found
      | Some premise =>
          match formula premise with
          | NotObject _ (NotObject _ newFormula) =>
              ret (withNewStep state (currentSteps state)
                     (newStepOf state newFormula DN selectedStepIds
                        (depth premise)))
          | _ => throw DN_premise_must_be_a_double_negation
          end
      end
  | _ => throw DN_requires_exactly_one_premise
  end.

Definition applyDI (state : ProofState) (rule : RuleName)
    (selectedStepIds : list Z) (newFormulaAst : option Formula)
  : Result ProofState :=
  match selectedStepIds with
  | [id0] =>
      match newFormulaAst with
      | None => throw DI_requires_a_secondary_formula
      | Some q =>
          match findStep state id0 with
          | None => throw Selected_step_was_not_found
          | Some premise =>
              let newFormula :=
                BINARY OR
                  (if RuleName_eqb rule DI_LEFT then formula premise else q)
                  (if RuleName_eqb rule DI_LEFT then q else formula premise) in
              ret (withNewStep state (currentSteps state)
                     (newStepOf state newFormula rule selectedStepIds
                        (depth premise)))
          end
      end
  | _ => throw DI_requires_exactly_one_premise
  end.

Definition isDisjunction (f : Formula) : bool :=
  match f with
  | BinaryObject _ OR _ _ => true
  | _ => false
  end.

(** Step 2 of DS on the two candidates: the type guards and the two
    cases. *)
Definition dsCase (disjunctionFormulaCandidate negationFormulaCandidate
                     : Formula) : option Formula :=
  match disjunctionFormulaCandidate, negationFormulaCandidate with
  | BinaryObject _ _ dleft dright, NotObject _ negatedFormula =>
      if isFormulaEqual dleft negatedFormula then Some dright
      else if isFormulaEqual dright negatedFormula then Some dleft
      else None
  | _, _ => None
  end.

(** Steps 1 and 2 of DS: which premise is the disjunction and which the
    negation, then [dsCase]; [None] when no candidate was assigned. *)
Definition dsConclusion (f1 f2 : Formula) : option Formula :=
  if isDisjunction f1 then dsCase f1 f2
  else if isDisjunction f2 then dsCase f2 f1
  else None.

Definition applyDS (state : ProofState) (selectedStepIds : list Z)
  : Result ProofState :=
  if negb (length selectedStepIds =? 2) then
    throw DS_requires_exactly_two_premises
  else
    let premises := selectedPremises state selectedStepIds in
    if negb (length premises =? 2) then
      throw One_or_both_selected_steps_not_found
    else
      match premises with
      | [p1; p2] =>
          match dsConclusion (formula p1) (formula p2) with
          | Some conclusion =>
              ret (withNewStep state (currentSteps state)
                     (newStepOf state conclusion DS selectedStepIds
                        (Z.max (depth p1) (depth p2))))
          | None => throw DS_premises_must_be_disjunction_and_negation
          end
      | _ => throw (TypeError_reading_undefined "formula")
      end.

(** [steps.map(step => step.id === assumptionId
                          ? { ...step, isDischarged: true } : step)] *)
Definition markDischarged (assumptionId : Z) (steps : list ProofStep)
  : list ProofStep :=
  map (fun step =>
         if (id step =? assumptionId)%Z then discharged step else step)
      steps.

Definition applyII (state : ProofState) (selectedStepIds : list Z)
  : Result ProofState :=
  match selectedStepIds with
  | [idA; idB] =>
      match findStep state idA, findStep state idB with
      | Some stepA, Some stepB =>
          let '(assumptionStep, conclusionStep) :=
            if isASSUME stepA && negb (isASSUME stepB) then
              (Some stepA, Some stepB)
            else if isASSUME stepB && negb (isASSUME stepA) then
              (Some stepB, Some stepA)
            else if (id stepA <? id stepB)%Z then
              (Some stepA, Some stepB)
            else
              (Some stepB, Some stepA) in
          match assumptionStep, conclusionStep with
          | Some assumptionStep, Some conclusionStep =>
              let newFormula :=
                BINARY IMPLIES (formula assumptionStep)
                  (formula conclusionStep) in
              let newStep :=
                {| id := nextId state;
                   formula := newFormula;
                   rule := II;
                   justification := [id assumptionStep; id conclusionStep];
                   depth := 0%Z;
                   isDischarged := Some false |} in
              let updatedSteps :=
                markDischarged (id assumptionStep) (currentSteps state) in
              ret (withNewStep state updatedSteps newStep)
          | _, _ => throw Could_not_determine_assumption_and_conclusion
          end
      | _, _ => throw Selected_steps_not_found
      end
  | _ => throw II_requires_exactly_two_steps
  end.

Definition applyRule (state : ProofState) (rule : RuleName)
    (selectedStepIds : list Z) (newFormulaAst : option Formula)
  : Result ProofState :=
  match rule with
  | MP => applyMP state selectedStepIds
  | CI => applyCI state selectedStepIds
  | CE_LEFT | CE_RIGHT => applyCE state rule selectedStepIds
  | DN => applyDN state selectedStepIds
  | DI_LEFT | DI_RIGHT => applyDI state rule selectedStepIds newFormulaAst
  | DS => applyDS state selectedStepIds
  | II => applyII state selectedStepIds
  | ASSUME => throw (Rule_is_not_yet_implemented rule)
  end.

(* ================================================================== *)
(** ** The lexer: [tokenize] (parser.js) *)
(* ================================================================== *)

(** The regular expression [\s]: the white space and line terminator code
    points of ECMA-262. *)
Definition isWhitespace (c : CodeUnit) : bool :=
  ((9 <=? c) && (c <=? 13)                  (* tab, LF, VT, FF, CR *)
   || (c =? 32) || (c =? 160) || (c =? 5760)
   || ((8192 <=? c) && (c <=? 8202))        (* U+2000 .. U+200A *)
   || (c =? 8232) || (c =? 8233) || (c =? 8239) || (c =? 8287)
   || (c =? 12288) || (c =? 65279))%N.

(** The regular expression [[A-Z]]. *)
Definition isUpper (c : CodeUnit) : bool := ((65 <=? c) && (c <=? 90))%N.

Definition ch_LEFT_PAREN : CodeUnit := 40%N.     (* ( *)
Definition ch_RIGHT_PAREN : CodeUnit := 41%N.    (* ) *)
Definition ch_TILDE : CodeUnit := 126%N.         (* ~ *)
Definition ch_NOT_SIGN : CodeUnit := 172%N.      (* U+00AC *)
Definition ch_LOGICAL_AND : CodeUnit := 8743%N.  (* U+2227 *)
Definition ch_LOGICAL_OR : CodeUnit := 8744%N.   (* U+2228 *)
Definition ch_MINUS : CodeUnit := 45%N.          (* - *)
Definition ch_GREATER : CodeUnit := 62%N.        (* > *)
Definition ch_ARROW : CodeUnit := 8594%N.        (* U+2192 *)

(** The body of the [while] loop. [input] is the part of the source string
    from [position] on, so that its head is [input[position]] and the head
    of its tail is [input[position + 1]]; [tokens] is the array built by
    [push]. *)
Fixpoint tokenizeFrom (input : JSString) (position : nat)
    (tokens : list Token) : Result (list Token) :=
  match input with
  | [] => ret (tokens ++ [mkToken T_EOF []])
  | char :: rest =>
      if isWhitespace char then tokenizeFrom rest (position + 1) tokens
      else if (char =? ch_LEFT_PAREN)%N then
        tokenizeFrom rest (position + 1)
          (tokens ++ [mkToken T_LEFT_PAREN [char]])
      else if (char =? ch_RIGHT_PAREN)%N then
        tokenizeFrom rest (position + 1)
          (tokens ++ [mkToken T_RIGHT_PAREN [char]])
      else if (char =? ch_TILDE)%N || (char =? ch_NOT_SIGN)%N then
        tokenizeFrom rest (position + 1) (tokens ++ [mkToken T_NOT [char]])
      else if (char =? ch_LOGICAL_AND)%N then
        tokenizeFrom rest (position + 1) (tokens ++ [mkToken T_AND [char]])
      else if (char =? ch_LOGICAL_OR)%N then
        tokenizeFrom rest (position + 1) (tokens ++ [mkToken T_OR [char]])
      else if (char =? ch_MINUS)%N then
        match rest with
        | next :: rest' =>
            if (next =? ch_GREATER)%N then
              tokenizeFrom rest' (position + 2)
                (tokens ++ [mkToken T_IMPLIES [ch_MINUS; ch_GREATER]])
            else throw (Invalid_character char position)
        | [] => throw (Invalid_character char position)
        end
      else if (char =? ch_ARROW)%N then
        tokenizeFrom rest (position + 1)
          (tokens ++ [mkToken T_IMPLIES [char]])
      else if isUpper char then
        tokenizeFrom rest (position + 1)
          (tokens ++ [mkToken T_PROPOSITION [char]])
      else throw (Unrecognized_character char position)
  end.

Definition tokenize (input : JSString) : Result (list Token) :=
  tokenizeFrom input 0 [].

Definition TokenType_eqb (a b : TokenType) : bool :=
  match a, b with
  | T_PROPOSITION, T_PROPOSITION | T_IMPLIES, T_IMPLIES | T_AND, T_AND
  | T_OR, T_OR | T_NOT, T_NOT | T_LEFT_PAREN, T_LEFT_PAREN
  | T_RIGHT_PAREN, T_RIGHT_PAREN | T_EOF, T_EOF => true
  | _, _ => false
  end.

(** Number of IMPLIES tokens in a token array. *)
Definition countImplies (tokens : list Token) : nat :=
  length (filter (fun t => TokenType_eqb (tok_type t) T_IMPLIES) tokens).

(** An IMPLIES token carries one of the two texts it can be read from. *)
Definition impliesValueOk (t : Token) : Prop :=
  tok_type t = T_IMPLIES ->
  tok_value t = [ch_MINUS; ch_GREATER] \/ tok_value t = [ch_ARROW].

(* ================================================================== *)
(** ** The parser: [parse] (parser.js) *)
(* ================================================================== *)

(** The closures of [parse] share the mutable [currentTokenIndex]; here
    every function takes the index and returns the new one ([lhs] and [rhs]
    stand for the locals [left] and [right]).  The mutual
    recursion and the [while] loops run on a fuel counter: [None] means the
    counter ran out, [Some (inl e)] that [e] was thrown. *)
Definition Partial (A : Type) : Type := option (Result A).

(** [peek().type], with the [TypeError] of reading past the array. *)
Definition peek (tokens : list Token) (currentTokenIndex : nat)
  : Result Token :=
  match nth_error tokens currentTokenIndex with
  | Some t => ret t
  | None => throw (TypeError_reading_undefined "type")
  end.

Definition bindP {A B} (x : Partial A) (k : A -> Partial B) : Partial B :=
  match x with
  | None => None
  | Some (inl e) => Some (inl e)
  | Some (inr a) => k a
  end.

Definition withToken {B} (tokens : list Token) (i : nat)
    (k : Token -> Partial B) : Partial B :=
  match peek tokens i with
  | inl e => Some (inl e)
  | inr t => k t
  end.

Fixpoint parseImplication (fuel : nat) (tokens : list Token) (i : nat)
  : Partial (Formula * nat) :=
  match fuel with
  | O => None
  | S n =>
      bindP (parseDisjunction n tokens i) (fun '(lhs, i1) =>
      whileImplies n tokens lhs i1)
  end

with whileImplies (fuel : nat) (tokens : list Token) (lhs : Formula)
    (i : nat) : Partial (Formula * nat) :=
  match fuel with
  | O => None
  | S n =>
      withToken tokens i (fun t =>
      if TokenType_eqb (tok_type t) T_IMPLIES then
        bindP (parseImplication n tokens (i + 1)) (fun '(rhs, i1) =>
        whileImplies n tokens (BINARY IMPLIES lhs rhs) i1)
      else Some (ret (lhs, i)))
  end

with parseDisjunction (fuel : nat) (tokens : list Token) (i : nat)
  : Partial (Formula * nat) :=
  match fuel with
  | O => None
  | S n =>
      bindP (parseConjunction n tokens i) (fun '(lhs, i1) =>
      whileOr n tokens lhs i1)
  end

with whileOr (fuel : nat) (tokens : list Token) (lhs : Formula) (i : nat)
  : Partial (Formula * nat) :=
  match fuel with
  | O => None
  | S n =>
      withToken tokens i (fun t =>
      if TokenType_eqb (tok_type t) T_OR then
        bindP (parseConjunction n tokens (i + 1)) (fun '(rhs, i1) =>
        whileOr n tokens (BINARY OR lhs rhs) i1)
      else Some (ret (lhs, i)))
  end

with parseConjunction (fuel : nat) (tokens : list Token) (i : nat)
  : Partial (Formula * nat) :=
  match fuel with
  | O => None
  | S n =>
      bindP (parseUnary n tokens i) (fun '(lhs, i1) =>
      whileAnd n tokens lhs i1)
  end

with whileAnd (fuel : nat) (tokens : list Token) (lhs : Formula) (i : nat)
  : Partial (Formula * nat) :=
  match fuel with
  | O => None
  | S n =>
      withToken tokens i (fun t =>
      if TokenType_eqb (tok_type t) T_AND then
        bindP (parseUnary n tokens (i + 1)) (fun '(rhs, i1) =>
        whileAnd n tokens (BINARY AND lhs rhs) i1)
      else Some (ret (lhs, i)))
  end

with parseUnary (fuel : nat) (tokens : list Token) (i : nat)
  : Partial (Formula * nat) :=
  match fuel with
  | O => None
  | S n =>
      withToken tokens i (fun token =>
      match tok_type token with
      | T_NOT =>
          bindP (parseUnary n tokens (i + 1)) (fun '(formula, i1) =>
          Some (ret (FNOT formula, i1)))
      | T_LEFT_PAREN =>
          bindP (parseImplication n tokens (i + 1)) (fun '(formula, i1) =>
          withToken tokens i1 (fun t =>
          if negb (TokenType_eqb (tok_type t) T_RIGHT_PAREN) then
            Some (throw (Expected_right_paren_but_found (tok_value t)))
          else Some (ret (formula, i1 + 1))))
      | T_PROPOSITION => Some (ret (ATOM (tok_value token), i + 1))
      | _ => Some (throw (Unexpected_token (tok_value token)))
      end)
  end.

Definition parseWithFuel (fuel : nat) (tokens : list Token)
  : Partial Formula :=
  bindP (parseImplication fuel tokens 0) (fun '(formula, i) =>
  withToken tokens i (fun t =>
  if negb (TokenType_eqb (tok_type t) T_EOF) then
    Some (throw (Unexpected_token_at_end (tok_value t)))
  else Some (ret formula))).

(** Every call consumes a token or descends one level of the four-level
    precedence ladder, so a counter linear in the number of tokens is never
    exhausted (see [parse_terminates]). *)
Definition parseFuel (tokens : list Token) : nat := 4 * length tokens + 4.

(** The computation [x] returns or throws, and an index it returns
    satisfies [P]. *)
Definition Returns (P : nat -> Prop) (x : Partial (Formula * nat)) : Prop :=
  exists res, x = Some res /\ forall f i1, res = inr (f, i1) -> P i1.

Definition parse (tokens : list Token) : Partial Formula :=
  parseWithFuel (parseFuel tokens) tokens.

(** The two calls of the /api/parse handler of server.ts. *)
Definition parseFormula (formulaString : JSString) : Partial Formula :=
  match tokenize formulaString with
  | inl e => Some (inl e)
  | inr tokens => parse tokens
  end.


(** Whether II takes the first of two resolved steps as the assumption:
    the three tests of the source, as one boolean. *)
Definition II_takes_first (stepA stepB : ProofStep) : bool :=
  if isASSUME stepA && negb (isASSUME stepB) then true
  else if isASSUME stepB && negb (isASSUME stepA) then false
  else (id stepA <? id stepB)%Z.

(* ================================================================== *)
(** ** Sample formulas, source strings and proof states *)
(* ================================================================== *)

Definition atomP : Formula := ATOM (lit "P").
Definition atomQ : Formula := ATOM (lit "Q").
Definition atomR : Formula := ATOM (lit "R").

(** The source string [P], space, U+2228, space, [Q], space, U+2227,
    space, [R]: a disjunction whose right side is a conjunction. *)
Definition P_or_Q_and_R : JSString :=
  [80; 32; ch_LOGICAL_OR; 32; 81; 32; ch_LOGICAL_AND; 32; 82]%N.

(** The initial proof state of the client: line 1 is [P -> Q], line 2 is
    [P], both tagged ASSUME; the goal is set to [Q]. *)
Definition INITIAL_PROOF_STATE : ProofState :=
  {| premises := [];
     goal := atomQ;
     currentSteps :=
       [ {| id := 1; formula := BINARY IMPLIES atomP atomQ; rule := ASSUME;
            justification := []; depth := 0; isDischarged := None |};
         {| id := 2; formula := atomP; rule := ASSUME;
            justification := []; depth := 0; isDischarged := None |} ];
     nextId := 3 |}%Z.

(** Two assumptions [P] and [Q]; the first has already been discharged by
    an earlier implication introduction, which added line 3. *)
Definition dischargedOnceState : ProofState :=
  {| premises := [];
     goal := BINARY IMPLIES atomP atomQ;
     currentSteps :=
       [ {| id := 1; formula := atomP; rule := ASSUME;
            justification := []; depth := 0; isDischarged := Some true |};
         {| id := 2; formula := atomQ; rule := ASSUME;
            justification := []; depth := 0; isDischarged := None |};
         {| id := 3; formula := BINARY IMPLIES atomP atomQ; rule := II;
            justification := [1; 2]; depth := 0;
            isDischarged := Some false |} ];
     nextId := 4 |}%Z.

(** The same proof before any implication introduction. *)
Definition twoAssumptionsState : ProofState :=
  {| premises := [];
     goal := BINARY IMPLIES atomP atomQ;
     currentSteps :=
       [ {| id := 1; formula := atomP; rule := ASSUME;
            justification := []; depth := 0; isDischarged := None |};
         {| id := 2; formula := atomQ; rule := ASSUME;
            justification := []; depth := 0; isDischarged := None |} ];
     nextId := 3 |}%Z.

(** A disjunction and the negation of its left side. *)
Definition disjunctionState : ProofState :=
  {| premises := [];
     goal := atomQ;
     currentSteps :=
       [ {| id := 1; formula := BINARY OR atomP atomQ; rule := ASSUME;
            justification := []; depth := 0; isDischarged := None |};
         {| id := 2; formula := FNOT atomP; rule := ASSUME;
            justification := []; depth := 1; isDischarged := None |} ];
     nextId := 3 |}%Z.

(** The atom [P] as an object whose keys are in the other order:
    [{ name: 'P', type: 'ATOM' }]. *)
Definition reorderedP : Formula := AtomObject name_type (lit "P").

(** The initial proof state, with the keys of line 2 in the other order. *)
Definition reorderedKeysState : ProofState :=
  {| premises := [];
     goal := atomQ;
     currentSteps :=
       [ {| id := 1; formula := BINARY IMPLIES atomP atomQ; rule := ASSUME;
            justification := []; depth := 0; isDischarged := None |};
         {| id := 2; formula := reorderedP; rule := ASSUME;
            justification := []; depth := 0; isDischarged := None |} ];
     nextId := 3 |}%Z.

(** A disjunction and the negation of its left side, the negated atom
    with its keys in the other order. *)
Definition reorderedDisjunctionState : ProofState :=
  {| premises := [];
     goal := atomQ;
     currentSteps :=
       [ {| id := 1; formula := BINARY OR atomP atomQ; rule := ASSUME;
            justification := []; depth := 0; isDischarged := None |};
         {| id := 2; formula := FNOT reorderedP; rule := ASSUME;
            justification := []; depth := 1; isDischarged := None |} ];
     nextId := 3 |}%Z.

(** The initial proof state with the counter at [2 ^ 53]. *)
Definition counterLimitState : ProofState :=
  {| premises := [];
     goal := atomQ;
     currentSteps := currentSteps INITIAL_PROOF_STATE;
     nextId := Number.limit |}.

(* ================================================================== *)
(** ** The client (App): formatting, goal test, premises, selection *)
(* ================================================================== *)

(** The inner [switch] of [formatFormula]: the text put between the two
    sides; a connective without a case leaves the empty string. *)
Definition connectiveText (c : Connective) : JSString :=
  match c with
  | AND => [32; ch_LOGICAL_AND; 32]%N
  | OR => [32; ch_LOGICAL_OR; 32]%N
  | IMPLIES => [32; ch_ARROW; 32]%N
  | NOT => []
  end.

(** [formatFormula] on a formula object (the guard for a missing formula
    and the [default] case concern values outside the type). *)
Fixpoint formatFormula (formula : Formula) : JSString :=
  match formula with
  | AtomObject _ name => name
  | NotObject _ g => ch_NOT_SIGN :: formatFormula g
  | BinaryObject _ c l r =>
      ch_LEFT_PAREN :: formatFormula l ++ connectiveText c
        ++ formatFormula r ++ [ch_RIGHT_PAREN]
  end.

(** [proofState.currentSteps.some(step => proofState.goal &&
      JSON.stringify(step.formula) === JSON.stringify(proofState.goal))];
    the goal of the client state may be [null]. *)
Definition isGoalAchieved (goal : option Formula)
    (currentSteps : list ProofStep) : bool :=
  existsb (fun step =>
             match goal with
             | Some g =>
                 str_eqb (JSON_stringify (formula step)) (JSON_stringify g)
             | None => false
             end)
          currentSteps.

(** [handleAddPremise]: nothing happens without a parsed formula. *)
Definition handleAddPremise (proofState : ProofState)
    (parsedAst : option Formula) : ProofState :=
  match parsedAst with
  | None => proofState
  | Some ast =>
      let newPremise :=
        {| id := nextId proofState; formula := ast; rule := ASSUME;
           justification := []; depth := 0%Z; isDischarged := None |} in
      {| premises := premises proofState;
         goal := goal proofState;
         currentSteps := currentSteps proofState ++ [newPremise];
         nextId := Number.add (nextId proofState) 1 |}
  end.

(** [handleStepClick]: the new value of [selectedSteps]. *)
Definition handleStepClick (isLoading : bool) (prev : list Z) (i : Z)
  : list Z :=
  if isLoading then prev
  else if existsb (fun j => Z.eqb j i) prev
       then filter (fun j => negb (Z.eqb j i)) prev
       else prev ++ [i].

(* ================================================================== *)
(** ** Notions used in the statements *)
(* ================================================================== *)

(** The ids of the steps are pairwise distinct and below [nextId]. *)
Definition WellFormed (st : ProofState) : Prop :=
  NoDup (map id (currentSteps st))
  /\ Forall (fun s => (id s < nextId st)%Z) (currentSteps st).

(** The formulas the parser can build: atoms are single upper-case
    letters, no binary node carries the connective NOT, and every object
    has its keys in the order of the parser's object literals. *)
Fixpoint parsable (f : Formula) : bool :=
  match f with
  | ATOM [c] => isUpper c
  | FNOT g => parsable g
  | BINARY c l r => negb (Connective_eqb c NOT) && parsable l && parsable r
  | _ => false
  end.

Definition connectiveToken (c : Connective) : list Token :=
  match c with
  | AND => [mkToken T_AND [ch_LOGICAL_AND]]
  | OR => [mkToken T_OR [ch_LOGICAL_OR]]
  | IMPLIES => [mkToken T_IMPLIES [ch_ARROW]]
  | NOT => []
  end.

(** The tokens of the text [formatFormula] writes. *)
Fixpoint tokensOf (f : Formula) : list Token :=
  match f with
  | AtomObject _ name => [mkToken T_PROPOSITION name]
  | NotObject _ g => mkToken T_NOT [ch_NOT_SIGN] :: tokensOf g
  | BinaryObject _ c l r =>
      mkToken T_LEFT_PAREN [ch_LEFT_PAREN] :: tokensOf l
        ++ connectiveToken c ++ tokensOf r
        ++ [mkToken T_RIGHT_PAREN [ch_RIGHT_PAREN]]
  end.

(** The type the lexer gives to a token text. *)
Definition tokenTypeOf (value : JSString) : option TokenType :=
  match value with
  | [] => Some T_EOF
  | [c] =>
      if (c =? ch_LEFT_PAREN)%N then Some T_LEFT_PAREN
      else if (c =? ch_RIGHT_PAREN)%N then Some T_RIGHT_PAREN
      else if (c =? ch_TILDE)%N || (c =? ch_NOT_SIGN)%N then Some T_NOT
      else if (c =? ch_LOGICAL_AND)%N then Some T_AND
      else if (c =? ch_LOGICAL_OR)%N then Some T_OR
      else if (c =? ch_ARROW)%N then Some T_IMPLIES
      else if isUpper c then Some T_PROPOSITION
      else None
  | [c; d] =>
      if (c =? ch_MINUS)%N && (d =? ch_GREATER)%N then Some T_IMPLIES
      else None
  | _ => None
  end.

(** A token array as the lexer builds it: EOF at the end and nowhere
    else. *)
Definition endsWithEOF (tokens : list Token) : Prop :=
  exists body,
    tokens = body ++ [mkToken T_EOF []]
    /\ Forall (fun t => tok_type t <> T_EOF) body.

(** A token at which the three binary loops of the parser stop. *)
Definition stopsLoops (t : Token) : Prop :=
  tok_type t <> T_AND /\ tok_type t <> T_OR /\ tok_type t <> T_IMPLIES.

(** From [need] units of fuel on, the parsing function [p], started at
    index [i] of [tokens], returns [f] and the index [j]. *)
Definition ParsesTo (p : nat -> list Token -> nat -> Partial (Formula * nat))
    (tokens : list Token) (need : nat) (i : nat) (f : Formula) (j : nat)
  : Prop :=
  forall fuel, need <= fuel -> p fuel tokens i = Some (inr (f, j)).

(** The same for a loop that starts with the left operand [lhs]. *)
Definition LoopsTo
    (p : nat -> list Token -> Formula -> nat -> Partial (Formula * nat))
    (tokens : list Token) (need : nat) (lhs : Formula) (i : nat)
    (f : Formula) (j : nat) : Prop :=
  forall fuel, need <= fuel -> p fuel tokens lhs i = Some (inr (f, j)).

(** More fuel does not change a result. *)
Definition fuelStable {A} (x y : Partial A) : Prop :=
  forall r, x = Some r -> y = Some r.

(** The number of selected ids each rule tests for first. *)
Definition arity (r : RuleName) : nat :=
  match r with
  | MP | CI | DS | II => 2
  | CE_LEFT | CE_RIGHT | DN | DI_LEFT | DI_RIGHT => 1
  | ASSUME => 0
  end.

(** The error of the first test of each branch of [applyRule], thrown when
    the number of selected ids is not the rule's. *)
Definition arityError (r : RuleName) : Exn :=
  match r with
  | MP => MP_requires_exactly_two_premises
  | CI => CI_requires_exactly_two_premises
  | CE_LEFT | CE_RIGHT => CE_requires_exactly_one_premise
  | DN => DN_requires_exactly_one_premise
  | DI_LEFT | DI_RIGHT => DI_requires_exactly_one_premise
  | DS => DS_requires_exactly_two_premises
  | II => II_requires_exactly_two_steps
  | ASSUME => Rule_is_not_yet_implemented ASSUME
  end.

(** The text left when the white space is taken out. *)
Definition withoutWhitespace (input : JSString) : JSString :=
  filter (fun c => negb (isWhitespace c)) input.

(** With enough fuel, [p] started at [i] returns [f] and [j]; [p] throws
    [e]; the loop [p] started with [lhs] at [i] returns [f] and [j]. *)
Definition Parses (p : nat -> list Token -> nat -> Partial (Formula * nat))
    (tokens : list Token) (i : nat) (f : Formula) (j : nat) : Prop :=
  exists need, ParsesTo p tokens need i f j.

Definition Throws (p : nat -> list Token -> nat -> Partial (Formula * nat))
    (tokens : list Token) (i : nat) (e : Exn) : Prop :=
  exists need, forall fuel, need <= fuel -> p fuel tokens i = Some (inl e).

Definition Loops
    (p : nat -> list Token -> Formula -> nat -> Partial (Formula * nat))
    (tokens : list Token) (lhs : Formula) (i : nat) (f : Formula) (j : nat)
  : Prop :=
  exists need, LoopsTo p tokens need lhs i f j.

Definition LoopThrows
    (p : nat -> list Token -> Formula -> nat -> Partial (Formula * nat))
    (tokens : list Token) (lhs : Formula) (i : nat) (e : Exn) : Prop :=
  exists need,
    forall fuel, need <= fuel -> p fuel tokens lhs i = Some (inl e).

(** The tokens [l] stand in [tokens] from index [i] on. *)
Definition sliceAt (tokens : list Token) (i : nat) (l : list Token) : Prop :=
  forall k t, nth_error l k = Some t -> nth_error tokens (i + k) = Some t.

(** Binding strength of the three binary connectives in [parse]: the
    deeper the function that handles it, the tighter it binds. *)
Definition level (c : Connective) : nat :=
  match c with
  | AND => 3
  | OR => 2
  | IMPLIES => 1
  | NOT => 0
  end.

(** Whether [A c1 B c2 C] is read as [(A c1 B) c2 C]: the first operator
    binds tighter, or as tight and is not the right-associative arrow. *)
Definition groupsLeft (c1 c2 : Connective) : bool :=
  (level c2 <? level c1)
  || ((level c1 =? level c2) && negb (Connective_eqb c1 IMPLIES)).

(** A token array as [tokenize] ends it. *)
Definition withEOF (body : list Token) : list Token :=
  body ++ [mkToken T_EOF []].

(** Every token carries the type the lexer gives to its text. *)
Definition lexed (tokens : list Token) : Prop :=
  Forall (fun t => tokenTypeOf (tok_value t) = Some (tok_type t)) tokens.

(** What every function of the parser keeps on [withEOF body]: it throws
    one of the parser's own errors, or returns an index not past the EOF
    token and a formula that is parsable when the tokens are lexed. *)
Definition Good (body : list Token) (x : Partial (Formula * nat)) : Prop :=
  match x with
  | None => True
  | Some (inl e) => kindOf e = ParseError
  | Some (inr (f, j)) =>
      j <= length body /\ (lexed (withEOF body) -> parsable f = true)
  end.

(* ================================================================== *)
(** * Properties *)
(* ================================================================== *)

(** ** Equality tests *)

Lemma str_eqb_eq (a b : JSString) : str_eqb a b = true <-> a = b.
Proof.
  revert b; induction a as [|x a IH]; intros [|y b]; simpl;
    try (split; [discriminate | discriminate]); try tauto.
  rewrite andb_true_iff, N.eqb_eq, IH.
  split; [intros [-> ->]; reflexivity | intros H; injection H; auto].
Qed.

Lemma str_eqb_refl (a : JSString) : str_eqb a a = true.
Proof. apply str_eqb_eq; reflexivity. Qed.


Lemma Connective_eqb_eq (a b : Connective) :
  Connective_eqb a b = true <-> a = b.
Proof. destruct a, b; simpl; split; congruence. Qed.

(** ** The serialization of a string can be read back *)

Section QuoteJSONString_facts.

Local Open Scope N_scope.

(** Turns the boolean tests of the serializer into arithmetic facts. *)
Ltac bools :=
  repeat match goal with
  | H : (_ && _)%bool = true |- _ => apply andb_true_iff in H; destruct H
  | H : (_ && _)%bool = false |- _ => apply andb_false_iff in H; destruct H
  | H : (_ || _)%bool = true |- _ => apply orb_true_iff in H; destruct H
  | H : (_ || _)%bool = false |- _ => apply orb_false_iff in H; destruct H
  | H : (_ =? _) = true |- _ => apply N.eqb_eq in H
  | H : (_ =? _) = false |- _ => apply N.eqb_neq in H
  | H : (_ <? _) = true |- _ => apply N.ltb_lt in H
  | H : (_ <? _) = false |- _ => apply N.ltb_ge in H
  | H : (_ <=? _) = true |- _ => apply N.leb_le in H
  | H : (_ <=? _) = false |- _ => apply N.leb_gt in H
  end.

Lemma hexDigit_inj a b :
  a < 16 -> b < 16 -> hexDigit a = hexDigit b -> a = b.
Proof.
  unfold hexDigit; intros Ha Hb.
  destruct (a <? 10) eqn:Ea, (b <? 10) eqn:Eb; bools; lia.
Qed.

Lemma hex_digits c :
  c < 65536 ->
  c = 4096 * ((c / 4096) mod 16) + 256 * ((c / 256) mod 16)
      + 16 * ((c / 16) mod 16) + c mod 16.
Proof.
  intros Hc.
  assert (E0 := N.div_mod c 16 ltac:(discriminate)).
  assert (E1 := N.div_mod (c / 16) 16 ltac:(discriminate)).
  assert (E2 := N.div_mod (c / 256) 16 ltac:(discriminate)).
  rewrite N.Div0.div_div in E1, E2.
  change (16 * 16) with 256 in E1. change (256 * 16) with 4096 in E2.
  assert (E3 : (c / 4096) mod 16 = c / 4096).
  { apply N.mod_small, N.Div0.div_lt_upper_bound; exact Hc. }
  rewrite E3.
  generalize dependent (c mod 16). generalize dependent ((c / 16) mod 16).
  generalize dependent ((c / 256) mod 16).
  generalize dependent (c / 4096). generalize dependent (c / 256).
  generalize dependent (c / 16).
  intros; lia.
Qed.

Lemma UnicodeEscape_inj c c' :
  c < 65536 -> c' < 65536 -> UnicodeEscape c = UnicodeEscape c' -> c = c'.
Proof.
  intros Hc Hc' H. unfold UnicodeEscape in H.
  injection H as H3 H2 H1 H0.
  apply hexDigit_inj in H3, H2, H1, H0; try (apply N.mod_lt; discriminate).
  rewrite (hex_digits c Hc), (hex_digits c' Hc'), H3, H2, H1, H0; reflexivity.
Qed.

Lemma quoteCodeUnit_shape c : UnitText c (quoteCodeUnit c).
Proof.
  unfold quoteCodeUnit.
  repeat match goal with
  | |- context [if ?b then _ else _] => destruct b eqn:?
  end;
  try (apply N.eqb_eq in Heqb; subst; apply Short; simpl; tauto);
  repeat match goal with
  | H : (_ =? _) = true |- _ =>
      apply N.eqb_eq in H; subst; apply Short; simpl; tauto
  end.
  - apply Escaped. unfold isLeadingSurrogate, isTrailingSurrogate in *.
    bools; lia.
  - apply orb_false_iff in Heqb6 as [Heqb6 _].
    apply orb_false_iff in Heqb6 as [_ Hlead].
    bools. apply Literal; assumption.
Qed.

Lemma UnitText_prefix c c' t t' x y :
  UnitText c t -> UnitText c' t' -> t ++ x = t' ++ y -> c = c' /\ x = y.
Proof.
  intros [k Hk | Hc | H1 H2 H3] [k' Hk' | Hc' | H1' H2' H3'];
    unfold UnicodeEscape; simpl; intros E.
  - injection E as -> ->. split; [|reflexivity].
    repeat (destruct Hk as [Hk | Hk]; [| ]); try contradiction;
    repeat (destruct Hk' as [Hk' | Hk']; [| ]); try contradiction;
    congruence.
  - injection E as -> _.
    repeat (destruct Hk as [Hk | Hk]; [| ]); try contradiction; congruence.
  - injection E as <- _. congruence.
  - injection E as <- _.
    repeat (destruct Hk' as [Hk' | Hk']; [| ]); try contradiction; congruence.
  - injection E as E3 E2 E1 E0 ->. split; [|reflexivity].
    apply UnicodeEscape_inj; try assumption.
    unfold UnicodeEscape; congruence.
  - injection E as <- _. congruence.
  - injection E as -> _. congruence.
  - injection E as -> _. congruence.
  - injection E as -> ->. split; reflexivity.
Qed.

Lemma quoteCodeUnit_prefix c c' x y :
  quoteCodeUnit c ++ x = quoteCodeUnit c' ++ y -> c = c' /\ x = y.
Proof.
  apply UnitText_prefix; apply quoteCodeUnit_shape.
Qed.

(** The text of a code unit starts neither with the closing quote nor with
    a leading surrogate. *)
Lemma quoteCodeUnit_head c x h w :
  quoteCodeUnit c ++ x = h :: w -> h <> 34 /\ isLeadingSurrogate h = false.
Proof.
  destruct (quoteCodeUnit_shape c) as [k Hk | Hc | H1 H2 H3];
    unfold UnicodeEscape; simpl; intros E; injection E as <- _;
    auto; split; (discriminate || reflexivity).
Qed.

Lemma quoteCodePoints_single c rest :
  startsPair c rest = false ->
  quoteCodePoints (c :: rest) = quoteCodeUnit c ++ quoteCodePoints rest.
Proof.
  destruct rest as [|d rest]; simpl; [reflexivity|].
  intros ->; reflexivity.
Qed.

Lemma quoteCodePoints_pair c d rest :
  startsPair c (d :: rest) = true ->
  quoteCodePoints (c :: d :: rest) = c :: d :: quoteCodePoints rest.
Proof. simpl; intros ->; reflexivity. Qed.

(** The text of a string, followed by the closing quote, determines the
    string and what follows the quote. *)
Lemma quoteCodePoints_prefix_bounded n :
  forall s s' x y,
    (length s <= n)%nat ->
    quoteCodePoints s ++ 34 :: x = quoteCodePoints s' ++ 34 :: y ->
    s = s' /\ x = y.
Proof.
  induction n as [|n IH]; intros s s' x y Hn E.
  - destruct s; [|simpl in Hn; lia].
    destruct s' as [|c' r']; [simpl in E; injection E; auto|].
    exfalso. destruct (startsPair c' r') eqn:P.
    + destruct r' as [|d' r']; [discriminate|].
      rewrite (quoteCodePoints_pair _ _ _ P) in E. simpl in E, P.
      injection E as <- _. discriminate.
    + rewrite (quoteCodePoints_single _ _ P), <- app_assoc in E.
      symmetry in E. apply quoteCodeUnit_head in E. tauto.
  - destruct s as [|c r].
    { apply (IH [] s' x y); [simpl; lia | exact E]. }
    destruct s' as [|c' r'].
    { symmetry in E. apply (IH [] (c :: r) y x) in E; [|simpl; lia].
      destruct E; discriminate. }
    destruct (startsPair c r) eqn:P, (startsPair c' r') eqn:P'.
    + destruct r as [|d r]; [discriminate|].
      destruct r' as [|d' r']; [discriminate|].
      rewrite (quoteCodePoints_pair _ _ _ P), (quoteCodePoints_pair _ _ _ P') in E.
      simpl in E. injection E as -> -> E.
      apply IH in E; [|simpl in Hn; lia].
      destruct E as [-> ->]; auto.
    + exfalso. destruct r as [|d r]; [discriminate|].
      rewrite (quoteCodePoints_pair _ _ _ P), (quoteCodePoints_single _ _ P'),
        <- app_assoc in E.
      simpl in E, P. symmetry in E. apply quoteCodeUnit_head in E.
      apply andb_true_iff in P. destruct P, E; congruence.
    + exfalso. destruct r' as [|d' r']; [discriminate|].
      rewrite (quoteCodePoints_pair _ _ _ P'), (quoteCodePoints_single _ _ P),
        <- app_assoc in E.
      simpl in E, P'. apply quoteCodeUnit_head in E.
      apply andb_true_iff in P'. destruct P', E; congruence.
    + rewrite (quoteCodePoints_single _ _ P), (quoteCodePoints_single _ _ P'),
        <- !app_assoc in E.
      apply quoteCodeUnit_prefix in E. destruct E as [-> E].
      apply IH in E; [|simpl in Hn; lia].
      destruct E as [-> ->]; auto.
Qed.

Lemma QuoteJSONString_prefix s s' x y :
  QuoteJSONString s ++ x = QuoteJSONString s' ++ y -> s = s' /\ x = y.
Proof.
  unfold QuoteJSONString; simpl. rewrite <- !app_assoc; simpl.
  intros E; injection E as E.
  exact (quoteCodePoints_prefix_bounded (length s) s s' x y (le_n _) E).
Qed.

End QuoteJSONString_facts.

(** ** The serialization decides equality of formula objects *)

Lemma Connective_name_inj c c' :
  Connective_name c = Connective_name c' -> c = c'.
Proof. destruct c, c'; simpl; intros E; (reflexivity || discriminate E). Qed.

Lemma quoteCodePoints_prefix s s' x y :
  quoteCodePoints s ++ 34%N :: x = quoteCodePoints s' ++ 34%N :: y ->
  s = s' /\ x = y.
Proof. exact (quoteCodePoints_prefix_bounded (length s) s s' x y (le_n _)). Qed.

(** Replaces the constant texts of the serializer by their code units. *)
Ltac literals :=
  repeat match goal with
  | |- context [member ?s] =>
      let v := eval vm_compute in (member s) in change (member s) with v
  | |- context [QuoteJSONString (lit ?s)] =>
      let v := eval vm_compute in (QuoteJSONString (lit s)) in
      change (QuoteJSONString (lit s)) with v
  | |- context [lit ?s] =>
      let v := eval vm_compute in (lit s) in change (lit s) with v
  end; cbn [app].

(** *** The orders of the keys *)

Lemma AtomKeys_order_In keys k :
  In k (AtomKeys_order keys) <-> k = K_type \/ k = K_name.
Proof. destruct keys; simpl; intuition congruence. Qed.

Lemma NotKeys_order_In keys k :
  In k (NotKeys_order keys) <-> k = K_type \/ k = K_formula.
Proof. destruct keys; simpl; intuition congruence. Qed.

Lemma BinaryKeys_order_In keys k :
  In k (BinaryKeys_order keys)
  <-> k = K_type \/ k = K_connective \/ k = K_left \/ k = K_right.
Proof. destruct keys; simpl; intuition congruence. Qed.

Lemma AtomKeys_order_inj keys keys' :
  AtomKeys_order keys = AtomKeys_order keys' -> keys = keys'.
Proof. destruct keys, keys'; simpl; congruence. Qed.

Lemma NotKeys_order_inj keys keys' :
  NotKeys_order keys = NotKeys_order keys' -> keys = keys'.
Proof. destruct keys, keys'; simpl; congruence. Qed.

Lemma BinaryKeys_order_inj keys keys' :
  BinaryKeys_order keys = BinaryKeys_order keys' -> keys = keys'.
Proof. destruct keys, keys'; simpl; congruence. Qed.

Lemma AtomKeys_order_nonempty keys : AtomKeys_order keys <> [].
Proof. destruct keys; discriminate. Qed.

Lemma NotKeys_order_nonempty keys : NotKeys_order keys <> [].
Proof. destruct keys; discriminate. Qed.

Lemma BinaryKeys_order_nonempty keys : BinaryKeys_order keys <> [].
Proof. destruct keys; discriminate. Qed.

(** *** Objects *)

(** A quoted key and its colon, followed by any text, determine the key. *)
Lemma member_prefix k k' x y :
  member (Key_name k) ++ x = member (Key_name k') ++ y -> k = k' /\ x = y.
Proof.
  destruct k, k'; cbn [Key_name]; literals; intros E;
    try (exfalso; discriminate E);
    (split; [reflexivity|]);
    repeat (injection E as E); exact E.
Qed.

Lemma commaSeparated_property (v : Key -> JSString) k ks x :
  commaSeparated (map (property v) (k :: ks)) ++ 125%N :: x
  = member (Key_name k)
      ++ v k
      ++ match ks with
         | [] => 125%N :: x
         | _ => 44%N :: commaSeparated (map (property v) ks) ++ 125%N :: x
         end.
Proof.
  destruct ks as [|k1 ks].
  - cbn [map commaSeparated]. unfold property. rewrite <- app_assoc.
    reflexivity.
  - change (commaSeparated (map (property v) (k :: k1 :: ks)))
      with (property v k
              ++ 44%N :: commaSeparated (map (property v) (k1 :: ks))).
    unfold property at 1. rewrite <- !app_assoc. reflexivity.
Qed.

(** Two lists of properties, each closed by a brace and followed by any
    text, that give the same text: the keys are the same, in the same
    order, and so are the values, provided that under every key the two
    values are decided by their text. *)
Lemma properties_prefix (v v' : Key -> JSString) ks :
  forall ks' x y,
    (forall k x y,
       In k ks -> In k ks' -> v k ++ x = v' k ++ y -> v k = v' k /\ x = y) ->
    ks <> [] -> ks' <> [] ->
    commaSeparated (map (property v) ks) ++ 125%N :: x
    = commaSeparated (map (property v') ks') ++ 125%N :: y ->
    ks = ks' /\ (forall k, In k ks -> v k = v' k) /\ x = y.
Proof.
  induction ks as [|k ks IH]; intros ks' x y Hv Hne Hne' E; [congruence|].
  destruct ks' as [|k' ks']; [congruence|].
  rewrite !commaSeparated_property in E.
  apply member_prefix in E. destruct E as [<- E].
  apply Hv in E; [|left; reflexivity|left; reflexivity].
  destruct E as [Ev E].
  destruct ks as [|k1 ks], ks' as [|k1' ks'].
  - injection E as ->. split; [reflexivity|]. split; [|reflexivity].
    intros k0 [<-|[]]. exact Ev.
  - discriminate E.
  - discriminate E.
  - assert (E' : commaSeparated (map (property v) (k1 :: ks)) ++ 125%N :: x
                 = commaSeparated (map (property v') (k1' :: ks'))
                     ++ 125%N :: y)
      by (injection E as E; exact E).
    clear E. rename E' into E.
    apply IH in E; [| |discriminate|discriminate].
    + destruct E as (Eks & Evs & ->). rewrite <- Eks.
      split; [reflexivity|]. split; [|reflexivity].
      intros k0 [<-|Hin]; [exact Ev | exact (Evs k0 Hin)].
    + intros k0 x0 y0 Hin Hin'. apply Hv; right; assumption.
Qed.

Lemma JSON_object_prefix (v v' : Key -> JSString) ks ks' x y :
  (forall k x y,
     In k ks -> In k ks' -> v k ++ x = v' k ++ y -> v k = v' k /\ x = y) ->
  ks <> [] -> ks' <> [] ->
  JSON_object (map (property v) ks) ++ x
  = JSON_object (map (property v') ks') ++ y ->
  ks = ks' /\ (forall k, In k ks -> v k = v' k) /\ x = y.
Proof.
  intros Hv Hne Hne'. unfold JSON_object. literals.
  rewrite <- !app_assoc. cbn [app]. intros E. injection E as E.
  exact (properties_prefix v v' ks ks' x y Hv Hne Hne' E).
Qed.

Lemma QuoteJSONString_inj s s' :
  QuoteJSONString s = QuoteJSONString s' -> s = s'.
Proof.
  intros E.
  assert (E' : QuoteJSONString s ++ [] = QuoteJSONString s' ++ [])
    by (rewrite E; reflexivity).
  apply QuoteJSONString_prefix in E'. tauto.
Qed.

(** A text that is the same quoted string with two continuations. *)
Lemma same_value_prefix (t x y : JSString) :
  t ++ x = t ++ y -> t = t /\ x = y.
Proof. intros E. apply app_inv_head in E. auto. Qed.

Lemma quoted_value_prefix s s' x y :
  QuoteJSONString s ++ x = QuoteJSONString s' ++ y ->
  QuoteJSONString s = QuoteJSONString s' /\ x = y.
Proof.
  intros E. apply QuoteJSONString_prefix in E. destruct E as [-> ->]. auto.
Qed.

(** A serialized formula, followed by any text, determines the formula
    object, key orders included, and the text: no formula's text is a
    proper prefix of another's. *)
Lemma JSON_stringify_prefix f :
  forall f' x y,
    JSON_stringify f ++ x = JSON_stringify f' ++ y -> f = f' /\ x = y.
Proof.
  induction f as [keys n | keys g IH | keys c l IHl r IHr];
    intros [keys' n' | keys' g' | keys' c' l' r'] x y;
    cbn [JSON_stringify]; intros E;
    apply JSON_object_prefix in E;
    try apply AtomKeys_order_nonempty; try apply NotKeys_order_nonempty;
    try apply BinaryKeys_order_nonempty.
  - (* two atoms *)
    destruct E as (Ek & Ev & ->). apply AtomKeys_order_inj in Ek. subst keys'.
    pose proof (Ev K_name (proj2 (AtomKeys_order_In keys K_name)
                             (or_intror eq_refl))) as En.
    cbn [atomValue] in En. apply QuoteJSONString_inj in En. subst n'. auto.
  - intros k x0 y0 Hin Hin'. apply AtomKeys_order_In in Hin.
    destruct Hin as [-> | ->]; cbn [atomValue].
    + apply same_value_prefix.
    + apply quoted_value_prefix.
  - (* an atom and a negation *)
    destruct E as (_ & Ev & _).
    pose proof (Ev K_type (proj2 (AtomKeys_order_In keys K_type)
                             (or_introl eq_refl))) as Et.
    discriminate Et.
  - intros k x0 y0 Hin Hin'.
    apply AtomKeys_order_In in Hin. apply NotKeys_order_In in Hin'.
    destruct Hin as [-> | ->], Hin' as [H | H]; try discriminate H.
    cbn [atomValue notValue]. literals. intros E0. discriminate E0.
  - (* an atom and a binary node *)
    destruct E as (_ & Ev & _).
    pose proof (Ev K_type (proj2 (AtomKeys_order_In keys K_type)
                             (or_introl eq_refl))) as Et.
    discriminate Et.
  - intros k x0 y0 Hin Hin'.
    apply AtomKeys_order_In in Hin. apply BinaryKeys_order_In in Hin'.
    destruct Hin as [-> | ->], Hin' as [H | [H | [H | H]]];
      try discriminate H.
    cbn [atomValue binaryValue]. literals. intros E0. discriminate E0.
  - (* a negation and an atom *)
    destruct E as (_ & Ev & _).
    pose proof (Ev K_type (proj2 (NotKeys_order_In keys K_type)
                             (or_introl eq_refl))) as Et.
    discriminate Et.
  - intros k x0 y0 Hin Hin'.
    apply NotKeys_order_In in Hin. apply AtomKeys_order_In in Hin'.
    destruct Hin as [-> | ->], Hin' as [H | H]; try discriminate H.
    cbn [atomValue notValue]. literals. intros E0. discriminate E0.
  - (* two negations *)
    destruct E as (Ek & Ev & ->). apply NotKeys_order_inj in Ek. subst keys'.
    pose proof (Ev K_formula (proj2 (NotKeys_order_In keys K_formula)
                                (or_intror eq_refl))) as Eg.
    cbn [notValue] in Eg.
    assert (Eg' : JSON_stringify g ++ [] = JSON_stringify g' ++ [])
      by (rewrite Eg; reflexivity).
    apply IH in Eg'. destruct Eg' as [-> _]. auto.
  - intros k x0 y0 Hin Hin'. apply NotKeys_order_In in Hin.
    destruct Hin as [-> | ->]; cbn [notValue].
    + apply same_value_prefix.
    + intros E0. apply IH in E0. destruct E0 as [-> ->]. auto.
  - (* a negation and a binary node *)
    destruct E as (_ & Ev & _).
    pose proof (Ev K_type (proj2 (NotKeys_order_In keys K_type)
                             (or_introl eq_refl))) as Et.
    discriminate Et.
  - intros k x0 y0 Hin Hin'.
    apply NotKeys_order_In in Hin. apply BinaryKeys_order_In in Hin'.
    destruct Hin as [-> | ->], Hin' as [H | [H | [H | H]]];
      try discriminate H.
    cbn [notValue binaryValue]. literals. intros E0. discriminate E0.
  - (* a binary node and an atom *)
    destruct E as (_ & Ev & _).
    pose proof (Ev K_type (proj2 (BinaryKeys_order_In keys K_type)
                             (or_introl eq_refl))) as Et.
    discriminate Et.
  - intros k x0 y0 Hin Hin'.
    apply BinaryKeys_order_In in Hin. apply AtomKeys_order_In in Hin'.
    destruct Hin as [-> | [-> | [-> | ->]]], Hin' as [H | H];
      try discriminate H.
    cbn [atomValue binaryValue]. literals. intros E0. discriminate E0.
  - (* a binary node and a negation *)
    destruct E as (_ & Ev & _).
    pose proof (Ev K_type (proj2 (BinaryKeys_order_In keys K_type)
                             (or_introl eq_refl))) as Et.
    discriminate Et.
  - intros k x0 y0 Hin Hin'.
    apply BinaryKeys_order_In in Hin. apply NotKeys_order_In in Hin'.
    destruct Hin as [-> | [-> | [-> | ->]]], Hin' as [H | H];
      try discriminate H.
    cbn [notValue binaryValue]. literals. intros E0. discriminate E0.
  - (* two binary nodes *)
    destruct E as (Ek & Ev & ->).
    apply BinaryKeys_order_inj in Ek. subst keys'.
    pose proof (Ev K_connective
                  (proj2 (BinaryKeys_order_In keys K_connective)
                     (or_intror (or_introl eq_refl)))) as Ec.
    pose proof (Ev K_left
                  (proj2 (BinaryKeys_order_In keys K_left)
                     (or_intror (or_intror (or_introl eq_refl))))) as El.
    pose proof (Ev K_right
                  (proj2 (BinaryKeys_order_In keys K_right)
                     (or_intror (or_intror (or_intror eq_refl))))) as Er.
    cbn [binaryValue] in Ec, El, Er.
    apply QuoteJSONString_inj, Connective_name_inj in Ec. subst c'.
    assert (El' : JSON_stringify l ++ [] = JSON_stringify l' ++ [])
      by (rewrite El; reflexivity).
    assert (Er' : JSON_stringify r ++ [] = JSON_stringify r' ++ [])
      by (rewrite Er; reflexivity).
    apply IHl in El'. apply IHr in Er'.
    destruct El' as [-> _], Er' as [-> _]. auto.
  - intros k x0 y0 Hin Hin'. apply BinaryKeys_order_In in Hin.
    destruct Hin as [-> | [-> | [-> | ->]]]; cbn [binaryValue].
    + apply same_value_prefix.
    + apply quoted_value_prefix.
    + intros E0. apply IHl in E0. destruct E0 as [-> ->]. auto.
    + intros E0. apply IHr in E0. destruct E0 as [-> ->]. auto.
Qed.

Lemma JSON_stringify_inj f f' :
  JSON_stringify f = JSON_stringify f' -> f = f'.
Proof.
  intros E.
  assert (E' : JSON_stringify f ++ [] = JSON_stringify f' ++ [])
    by (rewrite E; reflexivity).
  apply JSON_stringify_prefix in E'. tauto.
Qed.

Lemma isFormulaEqual_eq f1 f2 : isFormulaEqual f1 f2 = true <-> f1 = f2.
Proof.
  unfold isFormulaEqual. rewrite str_eqb_eq.
  split; [apply JSON_stringify_inj | intros ->; reflexivity].
Qed.

Lemma isFormulaEqual_refl f : isFormulaEqual f f = true.
Proof. apply isFormulaEqual_eq; reflexivity. Qed.

Lemma structurallyEqual_refl f : structurallyEqual f f = true.
Proof.
  induction f as [keys n | keys g IH | keys c l IHl r IHr]; simpl.
  - apply str_eqb_refl.
  - exact IH.
  - rewrite IHl, IHr. destruct c; reflexivity.
Qed.

(** On formulas written in the key order of the object literals the
    recursive comparison decides equality. *)
Lemma structurallyEqual_eq f1 :
  forall f2,
    literalKeys f1 = true -> literalKeys f2 = true ->
    (structurallyEqual f1 f2 = true <-> f1 = f2).
Proof.
  induction f1 as [keys n | keys g IH | keys c l IHl r IHr];
    intros [keys' n' | keys' g' | keys' c' l' r'] H1 H2;
    destruct keys; try discriminate H1;
    destruct keys'; try discriminate H2;
    simpl in *; try (split; discriminate).
  - rewrite str_eqb_eq. split; congruence.
  - rewrite (IH g' H1 H2). split; congruence.
  - apply andb_true_iff in H1, H2. destruct H1 as [Hl Hr], H2 as [Hl' Hr'].
    rewrite !andb_true_iff, Connective_eqb_eq,
      (IHl l' Hl Hl'), (IHr r' Hr Hr').
    split; [intros [[-> ->] ->]; reflexivity | intros E; injection E; auto].
Qed.

(** What [isFormulaEqual] decides, on formula objects that carry exactly
    the properties of their variant.  It returns [true] exactly when its
    two arguments are the same formula object: the same tag and fields and,
    at every node, the same order of the keys.  So a [true] always means that
    the two trees agree in tag and fields, and on two formulas whose
    objects are written in the key order of the object literals of the
    source, as the parser and the engine build them, [isFormulaEqual]
    returns what the recursive comparison of tag and fields returns. *)
Theorem isFormulaEqual_compares_objects f1 f2 :
  (isFormulaEqual f1 f2 = true <-> f1 = f2)
  /\ (isFormulaEqual f1 f2 = true -> structurallyEqual f1 f2 = true)
  /\ (literalKeys f1 = true -> literalKeys f2 = true ->
      isFormulaEqual f1 f2 = structurallyEqual f1 f2).
Proof.
  split; [apply isFormulaEqual_eq|]. split.
  - intros E. apply isFormulaEqual_eq in E. subst f2.
    apply structurallyEqual_refl.
  - intros H1 H2.
    destruct (isFormulaEqual f1 f2) eqn:E1, (structurallyEqual f1 f2) eqn:E2;
      try reflexivity.
    + apply isFormulaEqual_eq in E1. subst f2.
      rewrite structurallyEqual_refl in E2. discriminate E2.
    + apply (structurallyEqual_eq f1 f2 H1 H2) in E2.
      apply isFormulaEqual_eq in E2. congruence.
Qed.

Lemma isFormulaEqual_compares_objects_witness :
  isFormulaEqual (BINARY IMPLIES atomP atomQ) (BINARY IMPLIES atomP atomR)
  = structurallyEqual (BINARY IMPLIES atomP atomQ)
      (BINARY IMPLIES atomP atomR).
Proof.
  apply (isFormulaEqual_compares_objects (BINARY IMPLIES atomP atomQ)
           (BINARY IMPLIES atomP atomR)); reflexivity.
Defined.

(** C9 at a failing input.  The objects [{ type: 'ATOM', name: 'P' }] and
    [{ name: 'P', type: 'ATOM' }] have the same tag and the same name, and
    the recursive comparison of tag and fields returns [true] on them;
    [isFormulaEqual] returns [false], because the two serializations list
    the keys in different orders.  The same happens below the root: an
    implication from the one and an implication from the other are told
    apart. *)
Theorem C9_isFormulaEqual_depends_on_key_order :
  structurallyEqual atomP reorderedP = true
  /\ isFormulaEqual atomP reorderedP = false
  /\ JSON_stringify atomP <> JSON_stringify reorderedP
  /\ structurallyEqual (BINARY IMPLIES atomP atomQ)
       (BINARY IMPLIES reorderedP atomQ) = true
  /\ isFormulaEqual (BINARY IMPLIES atomP atomQ)
       (BINARY IMPLIES reorderedP atomQ) = false.
Proof.
  repeat split; try (vm_compute; reflexivity).
  vm_compute. discriminate.
Qed.

(* ================================================================== *)
(** ** The rule engine *)
(* ================================================================== *)

Section Engine_facts.

Local Open Scope Z_scope.

Lemma findStep_id st i s : findStep st i = Some s -> id s = i.
Proof.
  unfold findStep; intros H. apply find_some in H.
  destruct H as [_ H]. apply Z.eqb_eq in H. exact H.
Qed.

Lemma findStep_In st i s : findStep st i = Some s -> In s (currentSteps st).
Proof. unfold findStep; intros H. apply find_some in H. tauto. Qed.

Lemma selectedPremises_two st a b p q :
  findStep st a = Some p -> findStep st b = Some q ->
  selectedPremises st [a; b] = [p; q].
Proof. unfold selectedPremises; simpl; intros -> ->; reflexivity. Qed.

Lemma length_filterDefined {A} (l : list (option A)) :
  (length (filterDefined l) <= length l)%nat.
Proof. induction l as [|[a|] l IH]; simpl; lia. Qed.

(** [markDischarged] keeps the length and every field but the flag. *)
Lemma markDischarged_Forall2 i steps :
  Forall2 (fun old new => new = old \/ new = discharged old)
          steps (markDischarged i steps).
Proof.
  induction steps as [|s steps IH]; simpl; constructor; [|exact IH].
  destruct (id s =? i); auto.
Qed.


(** With distinct ids, [markDischarged] rewrites one position only. *)
Lemma markDischarged_split asm pre post :
  NoDup (map id (pre ++ asm :: post)) ->
  markDischarged (id asm) (pre ++ asm :: post)
  = pre ++ discharged asm :: post.
Proof.
  intros ND. unfold markDischarged.
  assert (keep : forall l, ~ In (id asm) (map id l) ->
            map (fun step => if id step =? id asm then discharged step
                             else step) l = l).
  { induction l as [|s l IH]; simpl; intros Hn; [reflexivity|].
    destruct (Z.eqb_spec (id s) (id asm)) as [E|_]; [tauto|].
    rewrite IH; tauto. }
  rewrite map_app in *. simpl in *. rewrite Z.eqb_refl.
  apply NoDup_remove in ND. destruct ND as [ND Hn].
  rewrite in_app_iff in Hn.
  rewrite !keep by tauto. reflexivity.
Qed.

(** *** What a successful call returns *)

(** The case analysis behind [applyRule]: breaks the tests of the source
    one after the other. *)
Ltac branches H :=
  repeat match type of H with
  | context [match ?x with _ => _ end] =>
      destruct x eqn:?; try discriminate H
  end.

Lemma applyRule_success st r ids o st' :
  applyRule st r ids o = inr st' ->
  exists steps f js d dis,
    st' = withNewStep st steps
            {| id := nextId st; formula := f; rule := r;
               justification := js; depth := d; isDischarged := dis |}
    /\ r <> ASSUME
    /\ (steps = currentSteps st
        \/ r = II /\ exists i, steps = markDischarged i (currentSteps st)).
Proof.
  intros H.
  destruct r; unfold applyRule in H; try discriminate H;
    unfold applyMP, applyCI, applyCE, applyDN, applyDI, applyDS, applyII,
      formulaOf, depthOf, newStepOf, throw, ret in H;
    branches H; injection H as <-;
    do 5 eexists; (split; [reflexivity|]); (split; [discriminate|]);
    solve [left; reflexivity
          | right; split; [reflexivity|]; eexists; reflexivity].
Qed.

Lemma map_id_markDischarged i steps :
  map id (markDischarged i steps) = map id steps.
Proof.
  unfold markDischarged. rewrite map_map. apply map_ext.
  intros s; destruct (id s =? i); reflexivity.
Qed.

Lemma map_rule_markDischarged i steps :
  map rule (markDischarged i steps) = map rule steps.
Proof.
  unfold markDischarged. rewrite map_map. apply map_ext.
  intros s; destruct (id s =? i); reflexivity.
Qed.

(** *** Implication introduction on two resolved ids *)

Lemma applyII_found st a b sa sb o :
  findStep st a = Some sa ->
  findStep st b = Some sb ->
  let asm := if II_takes_first sa sb then sa else sb in
  let con := if II_takes_first sa sb then sb else sa in
  applyRule st II [a; b] o
  = inr (withNewStep st (markDischarged (id asm) (currentSteps st))
           {| id := nextId st;
              formula := BINARY IMPLIES (formula asm) (formula con);
              rule := II;
              justification := [id asm; id con];
              depth := 0;
              isDischarged := Some false |}).
Proof.
  intros Ha Hb. unfold applyRule, applyII, II_takes_first.
  rewrite Ha, Hb.
  destruct (isASSUME sa), (isASSUME sb), (id sa <? id sb); reflexivity.
Qed.

(** The one addition of the source is exact from [-2^53] up to, and not
    including, [2^53]. *)
Lemma Number_add_one n :
  - Number.limit <= n < Number.limit -> Number.add n 1 = n + 1.
Proof.
  intros H. unfold Number.add.
  destruct (Z.eq_dec (n + 1) Number.limit) as [E | N].
  - rewrite E. vm_compute. reflexivity.
  - unfold Number.round.
    destruct (Z.ltb_spec (Z.abs (n + 1)) Number.limit) as [_ | Hge];
      [reflexivity|].
    unfold Number.limit in *. lia.
Qed.

(** C7, as stated, fails: [nextId + 1] is an addition of doubles.  In the
    initial proof state with the counter at [2 ^ 53], whose ids 1 and 2 are
    below the counter, CI on lines 1 and 2 succeeds; the returned [nextId]
    is again [2 ^ 53], not [2 ^ 53 + 1], and the appended step has that
    very id, so [nextId] no longer exceeds every id. *)
Lemma C7_counterexample :
  exists st',
    applyRule counterLimitState CI [1; 2] None = inr st'
    /\ Forall (fun s => id s < nextId counterLimitState)
         (currentSteps counterLimitState)
    /\ nextId st' = nextId counterLimitState
    /\ nextId st' <> nextId counterLimitState + 1
    /\ ~ Forall (fun s => id s < nextId st') (currentSteps st').
Proof.
  eexists. split; [vm_compute; reflexivity|].
  split; [repeat constructor|].
  split; [vm_compute; reflexivity|].
  split; [vm_compute; discriminate|].
  intros H. rewrite Forall_forall in H.
  specialize (H _ (or_intror (or_intror (or_introl eq_refl)))).
  vm_compute in H. discriminate H.
Qed.

(** C7, amended.  Every successful call gives the appended step the id
    [nextId] of the input state, keeps the ids of the existing steps and
    returns the double nearest to [nextId + 1] as the new [nextId].  When
    [nextId] is at least [-2^53] and below [2^53] this is [nextId + 1], and
    a state whose [nextId] exceeds every id in [currentSteps] is mapped to
    such a state. *)
Theorem C7_id_monotonicity st r ids o st' :
  applyRule st r ids o = inr st' ->
  (exists steps newStep,
     currentSteps st' = steps ++ [newStep]
     /\ map id steps = map id (currentSteps st)
     /\ id newStep = nextId st)
  /\ nextId st' = Number.add (nextId st) 1
  /\ (- 2 ^ 53 <= nextId st < 2 ^ 53 ->
      nextId st' = nextId st + 1
      /\ (Forall (fun s => id s < nextId st) (currentSteps st) ->
          Forall (fun s => id s < nextId st') (currentSteps st'))).
Proof.
  intros H. apply applyRule_success in H.
  destruct H as (steps & f & js & d & dis & -> & _ & Hsteps).
  assert (Hids : map id steps = map id (currentSteps st)).
  { destruct Hsteps as [-> | [_ [i ->]]];
      [reflexivity | apply map_id_markDischarged]. }
  split; [|split; [reflexivity|]].
  - eexists steps, _. simpl. repeat split. exact Hids.
  - intros Hn. simpl. rewrite (Number_add_one (nextId st) Hn).
    split; [reflexivity|].
    intros Hinv. apply Forall_app. split.
    + apply Forall_forall. intros s Hs.
      apply (in_map id) in Hs. rewrite Hids in Hs.
      apply in_map_iff in Hs. destruct Hs as (s0 & E & Hs0).
      rewrite Forall_forall in Hinv. specialize (Hinv s0 Hs0). lia.
    + constructor; [simpl; lia | constructor].
Qed.

(** C7 on modus ponens in the initial state. *)
Lemma C7_witness :
  exists st',
    applyRule INITIAL_PROOF_STATE MP [1; 2] None = inr st'
    /\ nextId st' = 4
    /\ Forall (fun s => id s < nextId st') (currentSteps st').
Proof.
  eexists. split; [vm_compute; reflexivity|].
  destruct (C7_id_monotonicity INITIAL_PROOF_STATE MP [1; 2] None _ eq_refl)
    as (_ & _ & H).
  destruct H as [H1 H2];
    [vm_compute; split; [discriminate | reflexivity]|].
  split; [exact H1|]. apply H2. repeat constructor.
Defined.

(** C8, as stated, fails: applying II a second time to an assumption that
    is already discharged returns every existing step unchanged, so no
    existing step differs (the claim says exactly one does).  The state is
    the one the engine itself returns for II on lines 1 and 2 of two
    assumptions; its ids are pairwise distinct and below [nextId]. *)
Lemma C8_counterexample :
  applyRule twoAssumptionsState II [1; 2] None = inr dischargedOnceState
  /\ NoDup (map id (currentSteps dischargedOnceState))
  /\ Forall (fun s => id s < nextId dischargedOnceState)
       (currentSteps dischargedOnceState)
  /\ exists st',
       applyRule dischargedOnceState II [1; 2] None = inr st'
       /\ ~ (exists k old new,
               nth_error (currentSteps dischargedOnceState) k = Some old
               /\ nth_error (currentSteps st') k = Some new
               /\ new <> old).
Proof.
  split; [vm_compute; reflexivity|].
  split; [simpl; repeat constructor; simpl; intuition discriminate|].
  split; [repeat constructor|].
  eexists. split; [vm_compute; reflexivity|].
  intros (k & old & new & Hold & Hnew & Hne).
  destruct k as [|[|[|k]]];
    [vm_compute in Hold, Hnew; congruence ..
    | destruct k; discriminate Hold].
Qed.

(** What II returns: the assumption is the step the three tests of the
    source choose among the two resolved steps. *)
Lemma applyII_success st ids o st' :
  applyRule st II ids o = inr st' ->
  exists a b sa sb,
    ids = [a; b]
    /\ findStep st a = Some sa
    /\ findStep st b = Some sb
    /\ let asm := if II_takes_first sa sb then sa else sb in
       let con := if II_takes_first sa sb then sb else sa in
       st' = withNewStep st (markDischarged (id asm) (currentSteps st))
               {| id := nextId st;
                  formula := BINARY IMPLIES (formula asm) (formula con);
                  rule := II;
                  justification := [id asm; id con];
                  depth := 0;
                  isDischarged := Some false |}.
Proof.
  intros H.
  destruct ids as [|a [|b [|c ids]]]; try discriminate H.
  destruct (findStep st a) as [sa|] eqn:Ha;
    [|unfold applyRule, applyII in H; rewrite Ha in H; discriminate H].
  destruct (findStep st b) as [sb|] eqn:Hb;
    [|unfold applyRule, applyII in H; rewrite Ha, Hb in H; discriminate H].
  rewrite (applyII_found st a b sa sb o Ha Hb) in H.
  injection H as <-. exists a, b, sa, sb. repeat split; assumption.
Qed.

(** A step and its copy with the flag set differ exactly when the flag was
    not set. *)
Lemma discharged_differs step :
  discharged step <> step <-> isDischarged step <> Some true.
Proof.
  destruct step as [i f r js d [[|]|]]; unfold discharged; simpl;
    split; intros H E; try discriminate E; try (apply H; reflexivity).
Qed.

Lemma markDischarged_differs i steps k old new :
  nth_error steps k = Some old ->
  nth_error (markDischarged i steps) k = Some new ->
  (new <> old <-> id old = i /\ isDischarged old <> Some true).
Proof.
  intros Hold Hnew. unfold markDischarged in Hnew.
  rewrite nth_error_map, Hold in Hnew. simpl in Hnew.
  injection Hnew as <-.
  destruct (Z.eqb_spec (id old) i) as [Ei | Ni].
  - rewrite discharged_differs. tauto.
  - split; [congruence | tauto].
Qed.

(** C8, amended.  Every successful call keeps [premises] and [goal] and
    returns the existing steps, in order and with their id, formula, rule,
    justification and depth, followed by one new step.  For every rule but
    II the existing steps are returned as they are.  For II every existing
    step that has the id of the chosen assumption is replaced by its copy
    with [isDischarged = true]: an existing step differs from its original
    exactly when it has that id and its flag was not already [true].  When
    the ids of the input steps are pairwise distinct the assumption step is
    the only one replaced, so exactly one existing step differs, in its
    flag, unless the assumption was already discharged, and then none
    does. *)
Theorem C8_frame st r ids o st' :
  applyRule st r ids o = inr st' ->
  premises st' = premises st
  /\ goal st' = goal st
  /\ exists steps newStep,
       currentSteps st' = steps ++ [newStep]
       /\ Forall2 (fun old new =>
                     id new = id old /\ formula new = formula old
                     /\ rule new = rule old
                     /\ justification new = justification old
                     /\ depth new = depth old)
            (currentSteps st) steps
       /\ (r <> II -> steps = currentSteps st)
       /\ (r = II ->
           exists a b sa sb asm,
             ids = [a; b]
             /\ findStep st a = Some sa
             /\ findStep st b = Some sb
             /\ asm = (if II_takes_first sa sb then sa else sb)
             /\ steps
                = map (fun step =>
                         if id step =? id asm
                         then {| id := id step; formula := formula step;
                                 rule := rule step;
                                 justification := justification step;
                                 depth := depth step;
                                 isDischarged := Some true |}
                         else step)
                    (currentSteps st)
             /\ (forall k old new,
                   nth_error (currentSteps st) k = Some old ->
                   nth_error steps k = Some new ->
                   (new <> old
                    <-> id old = id asm /\ isDischarged old <> Some true))
             /\ (NoDup (map id (currentSteps st)) ->
                 exists pre post,
                   currentSteps st = pre ++ asm :: post
                   /\ steps
                      = pre
                        ++ {| id := id asm; formula := formula asm;
                              rule := rule asm;
                              justification := justification asm;
                              depth := depth asm;
                              isDischarged := Some true |} :: post
                   /\ (steps <> currentSteps st
                       <-> isDischarged asm <> Some true))).
Proof.
  intros H. pose proof H as Hsucc. apply applyRule_success in H.
  destruct H as (steps & f & js & d & dis & -> & _ & Hsteps).
  split; [reflexivity|]. split; [reflexivity|].
  exists steps, {| id := nextId st; formula := f; rule := r;
                   justification := js; depth := d; isDischarged := dis |}.
  split; [reflexivity|]. split; [|split].
  - destruct Hsteps as [-> | [_ [k ->]]].
    + clear Hsucc.
      induction (currentSteps st); constructor; (tauto || assumption).
    + eapply Forall2_impl; [|apply markDischarged_Forall2].
      intros old new [-> | ->]; simpl; tauto.
  - destruct Hsteps as [-> | [-> _]]; [reflexivity | congruence].
  - intros ->. clear Hsteps. apply applyII_success in Hsucc.
    destruct Hsucc as (a & b & sa & sb & -> & Ha & Hb & E).
    cbv zeta in E. apply (f_equal currentSteps) in E. simpl in E.
    apply app_inj_tail in E. destruct E as [E _].
    exists a, b, sa, sb, (if II_takes_first sa sb then sa else sb).
    assert (Hin : In (if II_takes_first sa sb then sa else sb)
                    (currentSteps st))
      by (destruct (II_takes_first sa sb); eauto using findStep_In).
    set (asm := if II_takes_first sa sb then sa else sb) in *.
    split; [reflexivity|]. split; [exact Ha|]. split; [exact Hb|].
    split; [reflexivity|]. split; [exact E|]. split.
    + intros i old new Hold Hnew. rewrite E in Hnew.
      exact (markDischarged_differs (id asm) (currentSteps st) i old new
               Hold Hnew).
    + intros ND. apply in_split in Hin.
      destruct Hin as (pre & post & Hsplit). exists pre, post.
      split; [exact Hsplit|].
      assert (Es : steps = pre ++ discharged asm :: post).
      { rewrite E. rewrite Hsplit in ND |- *.
        apply markDischarged_split, ND. }
      split; [exact Es|]. rewrite Es, Hsplit.
      rewrite <- discharged_differs. split.
      * intros N Ed. apply N. rewrite Ed. reflexivity.
      * intros N Ed. apply app_inv_head in Ed. injection Ed as Ed.
        apply N. destruct asm; unfold discharged; simpl in *; congruence.
Qed.

(** C8 on the first implication introduction over two assumptions: line 1
    is replaced by its discharged copy and nothing else changes. *)
Lemma C8_witness :
  exists st' steps newStep,
    applyRule twoAssumptionsState II [1; 2] None = inr st'
    /\ currentSteps st' = steps ++ [newStep]
    /\ steps
       = [ {| id := 1; formula := atomP; rule := ASSUME;
              justification := []; depth := 0; isDischarged := Some true |};
           {| id := 2; formula := atomQ; rule := ASSUME;
              justification := []; depth := 0; isDischarged := None |} ]
    /\ steps <> currentSteps twoAssumptionsState.
Proof.
  destruct (C8_frame twoAssumptionsState II [1; 2] None _ eq_refl)
    as (_ & _ & steps & newStep & E & _ & _ & H).
  destruct (H eq_refl)
    as (a & b & sa & sb & asm & Eids & Ha & Hb & Easm & Es & _).
  injection Eids as <- <-.
  vm_compute in Ha, Hb. injection Ha as <-. injection Hb as <-.
  vm_compute in Easm. subst asm.
  eexists _, steps, newStep. split; [reflexivity|].
  split; [exact E|]. rewrite Es. vm_compute.
  split; [reflexivity | discriminate].
Defined.

(** C10. [applyRule] with rule ASSUME fails for every state, selection and
    secondary formula, with the error of the final fall-through; and the
    step appended by a successful call carries the applied rule, which is
    never ASSUME, while the rule tags of the existing steps are kept: the
    engine creates no ASSUME step. *)
Theorem C10_ASSUME_always_fails :
  (forall st ids o,
     applyRule st ASSUME ids o = inl (Rule_is_not_yet_implemented ASSUME))
  /\ (forall st r ids o st',
        applyRule st r ids o = inr st' ->
        r <> ASSUME
        /\ exists steps newStep,
             currentSteps st' = steps ++ [newStep]
             /\ rule newStep = r
             /\ map rule steps = map rule (currentSteps st)).
Proof.
  split; [reflexivity|].
  intros st r ids o st' H. apply applyRule_success in H.
  destruct H as (steps & f & js & d & dis & -> & Hr & Hsteps).
  split; [exact Hr|].
  eexists steps, _. simpl. repeat split.
  destruct Hsteps as [-> | [_ [i ->]]];
    [reflexivity | apply map_rule_markDischarged].
Qed.

(** C10 on modus ponens in the initial state: the new step is tagged MP. *)
Lemma C10_witness :
  exists st',
    applyRule INITIAL_PROOF_STATE MP [1; 2] None = inr st'
    /\ MP <> ASSUME
    /\ exists steps newStep,
         currentSteps st' = steps ++ [newStep]
         /\ rule newStep = MP
         /\ map rule steps = map rule (currentSteps INITIAL_PROOF_STATE).
Proof.
  eexists. split; [vm_compute; reflexivity|].
  apply (proj2 C10_ASSUME_always_fails INITIAL_PROOF_STATE MP [1; 2] None).
  vm_compute. reflexivity.
Defined.



(** *** Modus ponens and disjunctive syllogism on two resolved ids *)

Lemma Formula_size_left k c l r :
  (Formula_size l < Formula_size (BinaryObject k c l r))%nat.
Proof. simpl; lia. Qed.

(** A formula is not the antecedent of an implication whose antecedent is
    an implication from that formula: the tree would contain itself. *)
Lemma mpConclusion_converse k A B :
  mpConclusion A (BinaryObject k IMPLIES A B) = None.
Proof.
  destruct A as [? n | ? g | k' c l r]; try reflexivity.
  destruct c; try reflexivity. cbn [mpConclusion].
  destruct (isFormulaEqual l
              (BinaryObject k IMPLIES (BinaryObject k' IMPLIES l r) B))
    eqn:E; [|reflexivity].
  apply isFormulaEqual_eq in E. apply (f_equal Formula_size) in E.
  simpl in E. lia.
Qed.

Lemma mpConclusion_Some f g B :
  mpConclusion f g = Some B <-> exists k, f = BinaryObject k IMPLIES g B.
Proof.
  unfold mpConclusion. split.
  - destruct f as [? n | ? h | k c l r]; try discriminate.
    destruct c; try discriminate.
    destruct (isFormulaEqual l g) eqn:E; [|discriminate].
    apply isFormulaEqual_eq in E. intros [= <-]. subst. eauto.
  - intros [k ->]. rewrite isFormulaEqual_refl. reflexivity.
Qed.

Lemma mpConclusion_None f g :
  mpConclusion f g = None <-> ~ exists k B, f = BinaryObject k IMPLIES g B.
Proof.
  split.
  - intros E (k & B & HB).
    assert (H : mpConclusion f g = Some B)
      by (apply mpConclusion_Some; eauto).
    congruence.
  - intros N. destruct (mpConclusion f g) as [B|] eqn:E; [|reflexivity].
    apply mpConclusion_Some in E. destruct E as [k E]. exfalso. eauto.
Qed.

Lemma applyMP_found st a b p q o :
  findStep st a = Some p ->
  findStep st b = Some q ->
  applyRule st MP [a; b] o
  = match mpConclusion (formula p) (formula q) with
    | Some newFormula =>
        inr (withNewStep st (currentSteps st)
               (newStepOf st newFormula MP [a; b]
                  (Z.max (depth p) (depth q))))
    | None =>
        match mpConclusion (formula q) (formula p) with
        | Some newFormula =>
            inr (withNewStep st (currentSteps st)
                   (newStepOf st newFormula MP [a; b]
                      (Z.max (depth p) (depth q))))
        | None => inl MP_premises_do_not_match
        end
    end.
Proof.
  intros Ha Hb. unfold applyRule, applyMP.
  rewrite (selectedPremises_two st a b p q Ha Hb). reflexivity.
Qed.

(** Modus ponens on two resolved premises.  If one of the two formulas
    is an implication object (its keys in any order) with sides [A] and
    [B] and the other one is the object [A] itself, with the same key
    order at every node, MP succeeds for both orders of the ids: it keeps
    the state and appends a step with formula [B], the selected ids as
    justification and the larger of the two depths.  If neither order fits
    in this sense, MP fails, for both orders, with its pattern error. *)
Theorem MP_needs_the_antecedent_object st a b p q o :
  findStep st a = Some p ->
  findStep st b = Some q ->
  (forall k A B,
     (formula p = BinaryObject k IMPLIES A B /\ formula q = A)
     \/ (formula q = BinaryObject k IMPLIES A B /\ formula p = A) ->
     applyRule st MP [a; b] o
     = inr {| premises := premises st;
              goal := goal st;
              currentSteps :=
                currentSteps st
                ++ [ {| id := nextId st; formula := B; rule := MP;
                        justification := [a; b];
                        depth := Z.max (depth p) (depth q);
                        isDischarged := None |} ];
              nextId := Number.add (nextId st) 1 |}
     /\ applyRule st MP [b; a] o
        = inr {| premises := premises st;
                 goal := goal st;
                 currentSteps :=
                   currentSteps st
                   ++ [ {| id := nextId st; formula := B; rule := MP;
                           justification := [b; a];
                           depth := Z.max (depth p) (depth q);
                           isDischarged := None |} ];
                 nextId := Number.add (nextId st) 1 |})
  /\ (~ (exists k A B,
           formula p = BinaryObject k IMPLIES A B /\ formula q = A) ->
      ~ (exists k A B,
           formula q = BinaryObject k IMPLIES A B /\ formula p = A) ->
      applyRule st MP [a; b] o = inl MP_premises_do_not_match
      /\ applyRule st MP [b; a] o = inl MP_premises_do_not_match
      /\ kindOf MP_premises_do_not_match = PatternMismatch).
Proof.
  intros Ha Hb.
  rewrite (applyMP_found st a b p q o Ha Hb),
          (applyMP_found st b a q p o Hb Ha).
  split.
  - intros k A B [[Hp Hq] | [Hq Hp]]; rewrite Hp, Hq.
    + rewrite mpConclusion_converse.
      rewrite (proj2 (mpConclusion_Some (BinaryObject k IMPLIES A B) A B)
                 (ex_intro _ k eq_refl)).
      rewrite (Z.max_comm (depth q) (depth p)). split; reflexivity.
    + rewrite mpConclusion_converse.
      rewrite (proj2 (mpConclusion_Some (BinaryObject k IMPLIES A B) A B)
                 (ex_intro _ k eq_refl)).
      rewrite (Z.max_comm (depth q) (depth p)). split; reflexivity.
  - intros N1 N2.
    assert (E1 : mpConclusion (formula p) (formula q) = None).
    { apply mpConclusion_None. intros (k & B & HB). apply N1. eauto. }
    assert (E2 : mpConclusion (formula q) (formula p) = None).
    { apply mpConclusion_None. intros (k & B & HB). apply N2. eauto. }
    rewrite E1, E2. repeat split.
Qed.

(** On the initial state, whose lines are [P -> Q] and [P], and on two
    atoms, which fit neither ordering. *)
Lemma MP_needs_the_antecedent_object_witness :
  (applyRule INITIAL_PROOF_STATE MP [1; 2] None
   = inr {| premises := premises INITIAL_PROOF_STATE;
            goal := goal INITIAL_PROOF_STATE;
            currentSteps :=
              currentSteps INITIAL_PROOF_STATE
              ++ [ {| id := 3; formula := atomQ; rule := MP;
                      justification := [1; 2]; depth := 0;
                      isDischarged := None |} ];
            nextId := 4 |}
   /\ applyRule INITIAL_PROOF_STATE MP [2; 1] None
      = inr {| premises := premises INITIAL_PROOF_STATE;
               goal := goal INITIAL_PROOF_STATE;
               currentSteps :=
                 currentSteps INITIAL_PROOF_STATE
                 ++ [ {| id := 3; formula := atomQ; rule := MP;
                         justification := [2; 1]; depth := 0;
                         isDischarged := None |} ];
               nextId := 4 |})
  /\ applyRule twoAssumptionsState MP [1; 2] None
     = inl MP_premises_do_not_match.
Proof.
  split.
  - refine (proj1 (MP_needs_the_antecedent_object INITIAL_PROOF_STATE 1 2
                     _ _ None eq_refl eq_refl)
              tclr atomP atomQ _).
    left. split; reflexivity.
  - refine (proj1 (proj2 (MP_needs_the_antecedent_object
                            twoAssumptionsState 1 2 _ _ None
                            eq_refl eq_refl) _ _)).
    + intros (k & A & B & H & _). discriminate H.
    + intros (k & A & B & H & _). discriminate H.
Defined.

(** C3 at a failing input.  Line 1 of the state is [P -> Q], written as
    the parser writes it; line 2 is the atom [P] as the object
    [{ name: 'P', type: 'ATOM' }], which has the tag and the name of the
    antecedent.  The recursive comparison of tag and fields finds line 2
    equal to the antecedent, yet MP fails with its pattern error for both
    orders of the ids: [isFormulaEqual] compares serializations, and these
    differ in the order of the keys.  With line 2 in the key order of the
    antecedent the same call succeeds. *)
Theorem C3_MP_rejects_reordered_keys :
  map formula (currentSteps reorderedKeysState)
  = [BINARY IMPLIES atomP atomQ; reorderedP]
  /\ structurallyEqual atomP reorderedP = true
  /\ applyRule reorderedKeysState MP [1; 2] None
     = inl MP_premises_do_not_match
  /\ applyRule reorderedKeysState MP [2; 1] None
     = inl MP_premises_do_not_match
  /\ exists st', applyRule INITIAL_PROOF_STATE MP [1; 2] None = inr st'.
Proof.
  repeat split; try (vm_compute; reflexivity).
  eexists. vm_compute. reflexivity.
Qed.

(** The conclusion DS draws from a disjunction and a negation, as the
    source computes it for one assignment of the two premises. *)
Lemma applyDS_found st a b p q o :
  findStep st a = Some p ->
  findStep st b = Some q ->
  applyRule st DS [a; b] o
  = match dsConclusion (formula p) (formula q) with
    | Some c =>
        inr (withNewStep st (currentSteps st)
               (newStepOf st c DS [a; b] (Z.max (depth p) (depth q))))
    | None => inl DS_premises_must_be_disjunction_and_negation
    end.
Proof.
  intros Ha Hb. unfold applyRule, applyDS.
  rewrite (selectedPremises_two st a b p q Ha Hb). reflexivity.
Qed.

Lemma isDisjunction_true f :
  isDisjunction f = true <-> exists k A B, f = BinaryObject k OR A B.
Proof.
  split.
  - destruct f as [? ? | ? ? | k [] A B]; try discriminate. eauto.
  - intros (k & A & B & ->). reflexivity.
Qed.

Lemma dsCase_spec k0 k A B n c :
  dsCase (BinaryObject k0 k A B) n = Some c <->
  exists kn X,
    n = NotObject kn X /\ (X = A /\ c = B \/ X <> A /\ X = B /\ c = A).
Proof.
  unfold dsCase. split.
  - destruct n as [? ? | kn X | ? ? ? ?]; try discriminate.
    destruct (isFormulaEqual A X) eqn:E1.
    + apply isFormulaEqual_eq in E1. intros [= <-]. exists kn, X. auto.
    + destruct (isFormulaEqual B X) eqn:E2; [|discriminate].
      apply isFormulaEqual_eq in E2. intros [= <-].
      exists kn, X. split; [reflexivity|]. right. repeat split; auto.
      intros ->. rewrite isFormulaEqual_refl in E1. discriminate.
  - intros (kn & X & -> & [[-> ->] | (N & -> & ->)]).
    + rewrite isFormulaEqual_refl. reflexivity.
    + destruct (isFormulaEqual A B) eqn:E1.
      * apply isFormulaEqual_eq in E1. congruence.
      * rewrite isFormulaEqual_refl. reflexivity.
Qed.

Lemma dsConclusion_spec f g c :
  dsConclusion f g = Some c <->
  exists k kn A B X,
    (f = BinaryObject k OR A B /\ g = NotObject kn X
     \/ g = BinaryObject k OR A B /\ f = NotObject kn X)
    /\ (X = A /\ c = B \/ X <> A /\ X = B /\ c = A).
Proof.
  unfold dsConclusion. split.
  - destruct (isDisjunction f) eqn:Df.
    + apply isDisjunction_true in Df. destruct Df as (k & A & B & ->).
      intros H. apply dsCase_spec in H.
      destruct H as (kn & X & -> & H). exists k, kn, A, B, X. auto.
    + destruct (isDisjunction g) eqn:Dg; [|discriminate].
      apply isDisjunction_true in Dg. destruct Dg as (k & A & B & ->).
      intros H. apply dsCase_spec in H.
      destruct H as (kn & X & -> & H). exists k, kn, A, B, X. auto.
  - intros (k & kn & A & B & X & [[-> ->] | [-> ->]] & H);
      cbn [isDisjunction]; apply dsCase_spec; exists kn, X; auto.
Qed.

(** Disjunctive syllogism on two resolved premises.  DS succeeds exactly
    when one of the two formulas is a disjunction object (its keys in any
    order) with sides [A] and [B] and the other one is a negation object
    whose operand [X] is the object [A] or the object [B] itself, with the
    same key order at every node; it then keeps the state and appends [B]
    when [X] is [A], and [A] when [X] is [B], with the selected ids as
    justification and the larger of the two depths.  In every other case DS
    fails with its pattern error. *)
Theorem DS_needs_the_disjunct_object st a b p q o :
  findStep st a = Some p ->
  findStep st b = Some q ->
  ((exists st', applyRule st DS [a; b] o = inr st')
   <-> (exists k kn A B X,
          (formula p = BinaryObject k OR A B /\ formula q = NotObject kn X
           \/ formula q = BinaryObject k OR A B
              /\ formula p = NotObject kn X)
          /\ (X = A \/ X = B)))
  /\ (forall k kn A B X,
        formula p = BinaryObject k OR A B /\ formula q = NotObject kn X
        \/ formula q = BinaryObject k OR A B /\ formula p = NotObject kn X ->
        forall c, (X = A /\ c = B) \/ (X = B /\ c = A) ->
        applyRule st DS [a; b] o
        = inr {| premises := premises st;
                 goal := goal st;
                 currentSteps :=
                   currentSteps st
                   ++ [ {| id := nextId st; formula := c; rule := DS;
                           justification := [a; b];
                           depth := Z.max (depth p) (depth q);
                           isDischarged := None |} ];
                 nextId := Number.add (nextId st) 1 |})
  /\ (~ (exists k kn A B X,
           (formula p = BinaryObject k OR A B /\ formula q = NotObject kn X
            \/ formula q = BinaryObject k OR A B
               /\ formula p = NotObject kn X)
           /\ (X = A \/ X = B)) ->
      applyRule st DS [a; b] o
      = inl DS_premises_must_be_disjunction_and_negation
      /\ kindOf DS_premises_must_be_disjunction_and_negation
         = PatternMismatch).
Proof.
  intros Ha Hb. rewrite (applyDS_found st a b p q o Ha Hb).
  assert (Hsome : forall k kn A B X c,
            formula p = BinaryObject k OR A B /\ formula q = NotObject kn X
            \/ formula q = BinaryObject k OR A B
               /\ formula p = NotObject kn X ->
            (X = A /\ c = B) \/ (X = B /\ c = A) ->
            dsConclusion (formula p) (formula q) = Some c).
  { intros k kn A B X c Hpq Hc. apply dsConclusion_spec.
    exists k, kn, A, B, X.
    split; [exact Hpq|].
    destruct Hc as [[-> ->] | [-> ->]]; [auto|].
    destruct (isFormulaEqual A B) eqn:E.
    - apply isFormulaEqual_eq in E. subst. auto.
    - right. repeat split. intros ->.
      rewrite isFormulaEqual_refl in E. discriminate. }
  split; [|split].
  - split.
    + intros [st' H].
      destruct (dsConclusion (formula p) (formula q)) as [c|] eqn:E;
        [|discriminate].
      apply dsConclusion_spec in E.
      destruct E as (k & kn & A & B & X & Hpq & Hc). exists k, kn, A, B, X.
      split; [exact Hpq|]. tauto.
    + intros (k & kn & A & B & X & Hpq & [-> | ->]).
      * rewrite (Hsome k kn A B A B Hpq); eauto.
      * rewrite (Hsome k kn A B B A Hpq); eauto.
  - intros k kn A B X Hpq c Hc. rewrite (Hsome k kn A B X c Hpq Hc).
    reflexivity.
  - intros N.
    destruct (dsConclusion (formula p) (formula q)) as [c|] eqn:E;
      [|split; reflexivity].
    exfalso. apply N. apply dsConclusion_spec in E.
    destruct E as (k & kn & A & B & X & Hpq & Hc). exists k, kn, A, B, X.
    split; [exact Hpq|]. tauto.
Qed.

(** On a disjunction and the negation of its left side, selected in the
    order negation, disjunction; and on two premises without a
    disjunction. *)
Lemma DS_needs_the_disjunct_object_witness :
  applyRule disjunctionState DS [2; 1] None
  = inr {| premises := premises disjunctionState;
           goal := goal disjunctionState;
           currentSteps :=
             currentSteps disjunctionState
             ++ [ {| id := 3; formula := atomQ; rule := DS;
                     justification := [2; 1]; depth := 1;
                     isDischarged := None |} ];
           nextId := 4 |}
  /\ applyRule INITIAL_PROOF_STATE DS [1; 2] None
     = inl DS_premises_must_be_disjunction_and_negation.
Proof.
  split.
  - refine (proj1 (proj2 (DS_needs_the_disjunct_object disjunctionState 2 1
                            _ _ None eq_refl eq_refl))
              tclr type_formula atomP atomQ atomP _ atomQ _).
    + right. split; reflexivity.
    + left. split; reflexivity.
  - refine (proj1 (proj2 (proj2 (DS_needs_the_disjunct_object
                                   INITIAL_PROOF_STATE 1 2 _ _ None
                                   eq_refl eq_refl)) _)).
    intros (k & kn & A & B & X & [[H _] | [H _]] & _); discriminate H.
Defined.

(** C5 at a failing input.  Line 1 of the state is [P or Q], written as
    the parser writes it; line 2 is the negation of the atom [P] as the
    object [{ name: 'P', type: 'ATOM' }], which has the tag and the name
    of the left disjunct.  The recursive comparison of tag and fields
    finds the negated formula equal to the left disjunct, yet DS fails
    with its pattern error for both orders of the ids: [isFormulaEqual]
    compares serializations, and these differ in the order of the keys.
    With the negated atom in the key order of the disjunct the same call
    succeeds. *)
Theorem C5_DS_rejects_reordered_keys :
  map formula (currentSteps reorderedDisjunctionState)
  = [BINARY OR atomP atomQ; FNOT reorderedP]
  /\ structurallyEqual atomP reorderedP = true
  /\ applyRule reorderedDisjunctionState DS [1; 2] None
     = inl DS_premises_must_be_disjunction_and_negation
  /\ applyRule reorderedDisjunctionState DS [2; 1] None
     = inl DS_premises_must_be_disjunction_and_negation
  /\ exists st', applyRule disjunctionState DS [1; 2] None = inr st'.
Proof.
  repeat split; try (vm_compute; reflexivity).
  eexists. vm_compute. reflexivity.
Qed.

(** *** A selected id that resolves to no step *)

Lemma selectedPremises_short st a b :
  findStep st a = None \/ findStep st b = None ->
  (length (selectedPremises st [a; b]) <= 1)%nat.
Proof.
  unfold selectedPremises; simpl.
  intros [-> | ->]; destruct (findStep st _); simpl; lia.
Qed.

(** MP, CE, DN, DI (given its secondary formula), DS and II report a
    missing step with one of the three not-found messages. *)
Lemma missing_step_is_StepNotFound st r ids o :
  match r, ids with
  | (MP | DS | II), [a; b] =>
      findStep st a = None \/ findStep st b = None
  | (CE_LEFT | CE_RIGHT | DN), [a] => findStep st a = None
  | (DI_LEFT | DI_RIGHT), [a] => findStep st a = None /\ o <> None
  | _, _ => False
  end ->
  exists e, applyRule st r ids o = inl e /\ kindOf e = StepNotFound.
Proof.
  destruct r; destruct ids as [|a [|b [|c ids]]]; try contradiction;
    unfold applyRule, applyCE, applyDN, applyDI.
  - intros H. apply selectedPremises_short in H. unfold applyMP.
    destruct (selectedPremises st [a; b]) as [|x [|y l]]; simpl in *;
      try lia; eexists; split; reflexivity.
  - intros ->. eexists; split; reflexivity.
  - intros ->. eexists; split; reflexivity.
  - intros ->. eexists; split; reflexivity.
  - intros [-> Ho]. destruct o; [|contradiction].
    eexists; split; reflexivity.
  - intros [-> Ho]. destruct o; [|contradiction].
    eexists; split; reflexivity.
  - intros H. apply selectedPremises_short in H. unfold applyDS.
    destruct (selectedPremises st [a; b]) as [|x [|y l]]; simpl in *;
      try lia; eexists; split; reflexivity.
  - unfold applyII. intros [-> | ->]; [|destruct (findStep st a)];
      eexists; split; reflexivity.
Qed.

(** CI has no such test: with a missing step the read of [formula] on
    [undefined] raises a [TypeError]. *)
Lemma applyCI_missing_step st a b o :
  findStep st a = None \/ findStep st b = None ->
  applyRule st CI [a; b] o = inl (TypeError_reading_undefined "formula").
Proof.
  unfold applyRule, applyCI, selectedPremises; simpl.
  intros [-> | ->]; destruct (findStep st _); reflexivity.
Qed.

(** C1 at a failing input. In the initial state, whose steps have the ids
    1 and 2, CI on the ids 1 and 99 does not fail with a not-found error:
    it raises the [TypeError]; MP and DS on the same ids report the missing
    step. *)
Theorem C1_CI_missing_step_raises_TypeError :
  findStep INITIAL_PROOF_STATE 99 = None
  /\ applyRule INITIAL_PROOF_STATE CI [1; 99] None
     = inl (TypeError_reading_undefined "formula")
  /\ kindOf (TypeError_reading_undefined "formula") <> StepNotFound
  /\ applyRule INITIAL_PROOF_STATE MP [1; 99] None
     = inl One_or_both_selected_steps_not_found
  /\ applyRule INITIAL_PROOF_STATE DS [1; 99] None
     = inl One_or_both_selected_steps_not_found.
Proof. repeat split; discriminate. Qed.

End Engine_facts.

(* ================================================================== *)
(** ** The lexer *)
(* ================================================================== *)

Section Lexer_facts.

(** Number of tokens of type IMPLIES. *)
Lemma countImplies_app l1 l2 :
  countImplies (l1 ++ l2) = countImplies l1 + countImplies l2.
Proof.
  unfold countImplies. rewrite filter_app, length_app. reflexivity.
Qed.

(** One iteration of the loop on a character that is neither [-] nor the
    arrow: the loop stops with an error at this position or goes on one
    character further, with no new IMPLIES token. *)
Lemma tokenizeFrom_other char rest position tokens :
  char <> ch_MINUS -> char <> ch_ARROW ->
  (exists e, tokenizeFrom (char :: rest) position tokens
             = inl (e char position)
             /\ (e = Invalid_character \/ e = Unrecognized_character))
  \/ (exists new,
        tokenizeFrom (char :: rest) position tokens
        = tokenizeFrom rest (position + 1) (tokens ++ new)
        /\ countImplies new = 0
        /\ Forall (fun t => tok_type t <> T_IMPLIES) new).
Proof.
  intros Hm Ha. apply N.eqb_neq in Hm, Ha.
  cbn [tokenizeFrom]. rewrite Hm, Ha.
  repeat match goal with
  | |- context [if ?b then _ else _] => destruct b
  end;
  try (left; exists Unrecognized_character; split; [reflexivity | tauto]);
  right;
  try (exists []; rewrite app_nil_r; repeat split; constructor);
  eexists [_]; repeat split; repeat constructor; discriminate.
Qed.


Lemma tokenizeFrom_minus_greater rest position tokens :
  tokenizeFrom (ch_MINUS :: ch_GREATER :: rest) position tokens
  = tokenizeFrom rest (position + 2)
      (tokens ++ [mkToken T_IMPLIES [ch_MINUS; ch_GREATER]]).
Proof. reflexivity. Qed.

Lemma tokenizeFrom_arrow rest position tokens :
  tokenizeFrom (ch_ARROW :: rest) position tokens
  = tokenizeFrom rest (position + 1) (tokens ++ [mkToken T_IMPLIES [ch_ARROW]]).
Proof. reflexivity. Qed.

Lemma tokenizeFrom_lone_minus rest position tokens :
  hd_error rest <> Some ch_GREATER ->
  tokenizeFrom (ch_MINUS :: rest) position tokens
  = inl (Invalid_character ch_MINUS position).
Proof.
  destruct rest as [|next rest]; [reflexivity|]. simpl hd_error. intros H.
  change (tokenizeFrom (ch_MINUS :: next :: rest) position tokens)
    with (if (next =? ch_GREATER)%N
          then tokenizeFrom rest (position + 2)
                 (tokens ++ [mkToken T_IMPLIES [ch_MINUS; ch_GREATER]])
          else inl (Invalid_character ch_MINUS position)).
  destruct (N.eqb_spec next ch_GREATER); [congruence | reflexivity].
Qed.

Lemma followed_by_greater_dec (rest : JSString) :
  {hd_error rest = Some ch_GREATER} + {hd_error rest <> Some ch_GREATER}.
Proof.
  destruct rest as [|next rest]; [right; discriminate|].
  destruct (N.eq_dec next ch_GREATER) as [-> | H];
    [left; reflexivity | right; simpl; congruence].
Qed.

(** A [-] that is not followed by [>] stops the loop with an error, at the
    [-] or before it. *)
Lemma tokenizeFrom_fails_on_lone_minus n :
  forall input position tokens i,
    length input <= n ->
    nth_error input i = Some ch_MINUS ->
    nth_error input (S i) <> Some ch_GREATER ->
    exists e c p,
      tokenizeFrom input position tokens = inl (e c p)
      /\ (e = Invalid_character \/ e = Unrecognized_character)
      /\ position <= p <= position + i
      /\ (p = position + i -> e = Invalid_character /\ c = ch_MINUS).
Proof.
  induction n as [|n IH]; intros input position tokens i Hn Hi Hnext.
  { destruct input; [destruct i; discriminate | simpl in Hn; lia]. }
  destruct input as [|char rest]; [destruct i; discriminate|].
  simpl in Hn.
  destruct (N.eq_dec char ch_MINUS) as [-> | Hm].
  - (* the head is a minus sign *)
    destruct (followed_by_greater_dec rest) as [Hg | Hg].
    + destruct rest as [|next rest']; [discriminate|].
      simpl in Hg. injection Hg as ->.
      rewrite tokenizeFrom_minus_greater.
      destruct i as [|[|i]]; [simpl in Hnext; congruence | discriminate |].
      simpl in Hi, Hnext, Hn.
      destruct (IH rest' (position + 2)
                  (tokens ++ [mkToken T_IMPLIES [ch_MINUS; ch_GREATER]])
                  i ltac:(lia) Hi Hnext)
        as (e & c & p & E & He & Hp & Hlast).
      exists e, c, p. repeat split; try tauto; try lia;
        apply Hlast; lia.
    + rewrite (tokenizeFrom_lone_minus rest position tokens Hg).
      exists Invalid_character, ch_MINUS, position.
      repeat split; try tauto; lia.
  - destruct i as [|i]; [simpl in Hi; congruence|].
    simpl in Hi, Hnext.
    destruct (N.eq_dec char ch_ARROW) as [-> | Ha].
    + rewrite tokenizeFrom_arrow.
      destruct (IH rest (position + 1)
                  (tokens ++ [mkToken T_IMPLIES [ch_ARROW]])
                  i ltac:(lia) Hi Hnext)
        as (e & c & p & E & He & Hp & Hlast).
      exists e, c, p. repeat split; try tauto; try lia;
        apply Hlast; lia.
    + destruct (tokenizeFrom_other char rest position tokens Hm Ha)
        as [(e & E & He) | (new & E & _)].
      * exists e, char, position. repeat split; try tauto; lia.
      * rewrite E.
        destruct (IH rest (position + 1) (tokens ++ new)
                    i ltac:(lia) Hi Hnext)
          as (e & c & p & E' & He & Hp & Hlast).
        exists e, c, p. repeat split; try tauto; try lia;
          apply Hlast; lia.
Qed.

(** On success every [-] (with its [>]) and every arrow has produced one
    IMPLIES token, and nothing else has. *)
Lemma tokenizeFrom_counts_implies n :
  forall input position tokens toks,
    length input <= n ->
    tokenizeFrom input position tokens = inr toks ->
    countImplies toks
    = countImplies tokens + count_occ N.eq_dec input ch_MINUS
      + count_occ N.eq_dec input ch_ARROW
    /\ (Forall impliesValueOk tokens -> Forall impliesValueOk toks).
Proof.
  induction n as [|n IH]; intros input position tokens toks Hn E.
  { destruct input; [|simpl in Hn; lia].
    simpl in E. injection E as <-. rewrite countImplies_app. simpl.
    split; [unfold countImplies; simpl; lia|].
    intros H. apply Forall_app. split; [exact H|].
    repeat constructor. discriminate. }
  destruct input as [|char rest].
  { apply (IH [] position tokens toks); [simpl; lia | exact E]. }
  simpl in Hn.
  destruct (N.eq_dec char ch_MINUS) as [-> | Hm].
  - destruct (followed_by_greater_dec rest) as [Hg | Hg].
    + destruct rest as [|next rest']; [discriminate|].
      simpl in Hg. injection Hg as ->.
      rewrite tokenizeFrom_minus_greater in E.
      apply IH in E; [|simpl in Hn; lia]. destruct E as [E F].
      rewrite E, countImplies_app.
      split.
      * change (countImplies [mkToken T_IMPLIES [ch_MINUS; ch_GREATER]])
          with 1.
        change (count_occ N.eq_dec (ch_MINUS :: ch_GREATER :: rest') ch_MINUS)
          with (S (count_occ N.eq_dec rest' ch_MINUS)).
        change (count_occ N.eq_dec (ch_MINUS :: ch_GREATER :: rest') ch_ARROW)
          with (count_occ N.eq_dec rest' ch_ARROW).
        lia.
      * intros H. apply F, Forall_app. split; [exact H|].
        apply Forall_cons; [intros _; left; reflexivity | constructor].
    + rewrite (tokenizeFrom_lone_minus rest position tokens Hg) in E.
      discriminate.
  - destruct (N.eq_dec char ch_ARROW) as [-> | Ha].
    + rewrite tokenizeFrom_arrow in E.
      apply IH in E; [|lia]. destruct E as [E F].
      rewrite E, countImplies_app.
      split.
      * change (countImplies [mkToken T_IMPLIES [ch_ARROW]]) with 1.
        change (count_occ N.eq_dec (ch_ARROW :: rest) ch_MINUS)
          with (count_occ N.eq_dec rest ch_MINUS).
        change (count_occ N.eq_dec (ch_ARROW :: rest) ch_ARROW)
          with (S (count_occ N.eq_dec rest ch_ARROW)).
        lia.
      * intros H. apply F, Forall_app. split; [exact H|].
        apply Forall_cons; [intros _; right; reflexivity | constructor].
    + destruct (tokenizeFrom_other char rest position tokens Hm Ha)
        as [(e & E' & _) | (new & E' & Hc & Hnew)]; [congruence|].
      rewrite E' in E. apply IH in E; [|lia]. destruct E as [E F].
      rewrite E, countImplies_app, Hc.
      split.
      * rewrite !count_occ_cons_neq by congruence.
        rewrite Nat.add_0_r. reflexivity.
      * intros H. apply F, Forall_app. split; [exact H|].
        eapply Forall_impl; [|exact Hnew].
        intros t Ht Himp. contradiction.
Qed.

(** C6. In any state of the loop, the two characters [->] and the single
    arrow each push one IMPLIES token and the loop goes on after them,
    while a [-] followed by anything else, or by nothing, throws at its
    position.  Hence, for every input: if some [-] is not followed by [>],
    [tokenize] fails with a lexical error located at that [-] or before
    it, and the error located at the [-] is the one for [-] itself; and if
    [tokenize] succeeds, the IMPLIES tokens are as many as the [-] and
    arrow characters of the input together, each with the text it was read
    from. *)
Theorem C6_tokenize_implies :
  (forall rest position tokens,
     tokenizeFrom (ch_MINUS :: ch_GREATER :: rest) position tokens
     = tokenizeFrom rest (position + 2)
         (tokens ++ [mkToken T_IMPLIES [ch_MINUS; ch_GREATER]]))
  /\ (forall rest position tokens,
        tokenizeFrom (ch_ARROW :: rest) position tokens
        = tokenizeFrom rest (position + 1)
            (tokens ++ [mkToken T_IMPLIES [ch_ARROW]]))
  /\ (forall rest position tokens,
        hd_error rest <> Some ch_GREATER ->
        tokenizeFrom (ch_MINUS :: rest) position tokens
        = inl (Invalid_character ch_MINUS position))
  /\ (forall input i,
        nth_error input i = Some ch_MINUS ->
        nth_error input (S i) <> Some ch_GREATER ->
        exists e,
          tokenize input = inl e
          /\ kindOf e = LexError
          /\ (e = Invalid_character ch_MINUS i
              \/ exists c p, p < i
                   /\ (e = Invalid_character c p
                       \/ e = Unrecognized_character c p)))
  /\ (forall input toks,
        tokenize input = inr toks ->
        countImplies toks
        = count_occ N.eq_dec input ch_MINUS
          + count_occ N.eq_dec input ch_ARROW
        /\ Forall impliesValueOk toks).
Proof.
  split; [exact tokenizeFrom_minus_greater|].
  split; [exact tokenizeFrom_arrow|].
  split; [exact tokenizeFrom_lone_minus|].
  split.
  - intros input i Hi Hnext.
    destruct (tokenizeFrom_fails_on_lone_minus (length input) input 0 [] i
                (le_n _) Hi Hnext)
      as (e & c & p & E & He & Hp & Hlast).
    exists (e c p). split; [exact E|].
    split; [destruct He as [-> | ->]; reflexivity|].
    destruct (Nat.eq_dec p i) as [-> | Hne].
    + left. destruct (Hlast eq_refl) as [-> ->]. reflexivity.
    + right. exists c, p. split; [simpl in Hp; lia|].
      destruct He as [-> | ->]; auto.
  - intros input toks E.
    destruct (tokenizeFrom_counts_implies (length input) input 0 [] toks
                (le_n _) E) as [Hc Hf].
    split; [rewrite Hc; reflexivity | apply Hf; constructor].
Qed.

(** C6 on a string with a lone [-] at position 7 and on a string with two
    arrows. *)
Lemma C6_witness :
  (exists e,
     tokenize (lit "P -> Q - R") = inl e
     /\ kindOf e = LexError
     /\ (e = Invalid_character ch_MINUS 7
         \/ exists c p, p < 7
              /\ (e = Invalid_character c p
                  \/ e = Unrecognized_character c p)))
  /\ (exists toks,
        tokenize (lit "P -> (Q -> R)") = inr toks
        /\ countImplies toks = 2).
Proof.
  split.
  - apply (proj1 (proj2 (proj2 (proj2 C6_tokenize_implies)))
             (lit "P -> Q - R") 7).
    + reflexivity.
    + discriminate.
  - eexists. split; [vm_compute; reflexivity|].
    apply (proj2 (proj2 (proj2 (proj2 C6_tokenize_implies)))
             (lit "P -> (Q -> R)")).
    vm_compute. reflexivity.
Defined.

End Lexer_facts.

(* ================================================================== *)
(** ** The parser *)
(* ================================================================== *)

Section Parser_facts.

Lemma Returns_ret (P : nat -> Prop) f i :
  P i -> Returns P (Some (ret (f, i))).
Proof.
  intros H. eexists; split; [reflexivity|].
  intros f' i' E. injection E as _ <-. exact H.
Qed.

Lemma Returns_throw (P : nat -> Prop) e : Returns P (Some (throw e)).
Proof. eexists; split; [reflexivity | discriminate]. Qed.

Lemma Returns_bind (P Q : nat -> Prop) x k :
  Returns P x ->
  (forall f i1, P i1 -> Returns Q (k (f, i1))) ->
  Returns Q (bindP x k).
Proof.
  intros (res & -> & HP) Hk. destruct res as [e | [f i1]]; simpl.
  - apply Returns_throw.
  - apply Hk, (HP f i1 eq_refl).
Qed.

Lemma Returns_withToken (Q : nat -> Prop) tokens i k :
  (forall t, nth_error tokens i = Some t -> Returns Q (k t)) ->
  Returns Q (withToken tokens i k).
Proof.
  unfold withToken, peek. intros Hk.
  destruct (nth_error tokens i) as [t|]; [apply Hk; reflexivity|].
  apply Returns_throw.
Qed.

Lemma Returns_impl (P Q : nat -> Prop) x :
  (forall i, P i -> Q i) -> Returns P x -> Returns Q x.
Proof. intros H (res & E & HP). exists res. split; eauto. Qed.

(** With [r] tokens left, the seven functions need at most [4 r + 4]
    nested calls.  A parsing function returns an index after the one it
    started from, a loop one not before it. *)
Lemma parse_levels_return tokens r :
  forall i, length tokens - i <= r ->
  (forall fuel, 4 * r + 1 <= fuel ->
     Returns (fun i1 => i < i1) (parseUnary fuel tokens i))
  /\ (forall fuel lhs, 4 * r + 1 <= fuel ->
        Returns (fun i1 => i <= i1) (whileAnd fuel tokens lhs i))
  /\ (forall fuel, 4 * r + 2 <= fuel ->
        Returns (fun i1 => i < i1) (parseConjunction fuel tokens i))
  /\ (forall fuel lhs, 4 * r + 1 <= fuel ->
        Returns (fun i1 => i <= i1) (whileOr fuel tokens lhs i))
  /\ (forall fuel, 4 * r + 3 <= fuel ->
        Returns (fun i1 => i < i1) (parseDisjunction fuel tokens i))
  /\ (forall fuel lhs, 4 * r + 1 <= fuel ->
        Returns (fun i1 => i <= i1) (whileImplies fuel tokens lhs i))
  /\ (forall fuel, 4 * r + 4 <= fuel ->
        Returns (fun i1 => i < i1) (parseImplication fuel tokens i)).
Proof.
  induction r as [r IH] using lt_wf_ind.
  assert (below : forall j, j < j + 1) by (intros; lia).
  (* a token at [i] leaves fewer tokens from [i + 1] on *)
  assert (Hnext : forall i t,
            length tokens - i <= r -> nth_error tokens i = Some t ->
            exists r', r = S r' /\ forall j, i < j -> length tokens - j <= r').
  { intros i t Hr Ht. assert (i < length tokens)
      by (apply nth_error_Some; congruence).
    destruct r as [|r']; [lia|]. exists r'. split; [reflexivity|].
    intros; lia. }
  assert (Hlater : forall i j,
            length tokens - i <= r -> i <= j -> length tokens - j <= r)
    by (intros; lia).
  assert (HU : forall i, length tokens - i <= r ->
            forall fuel, 4 * r + 1 <= fuel ->
            Returns (fun i1 => i < i1) (parseUnary fuel tokens i)).
  { intros i Hr [|n] Hf; [lia|]. cbn [parseUnary].
    apply Returns_withToken. intros t Ht.
    destruct (Hnext i t Hr Ht) as (r' & -> & Hr').
    destruct (IH r' (Nat.lt_succ_diag_r r') (i + 1) (Hr' (i + 1) (below i)))
      as (U & _ & _ & _ & _ & _ & I).
    destruct (tok_type t); try apply Returns_throw.
    - apply Returns_ret; lia.
    - eapply Returns_bind; [apply U; lia|].
      intros f i1 Hi1. apply Returns_ret; cbv beta in *; lia.
    - eapply Returns_bind; [apply I; lia|].
      intros f i1 Hi1. apply Returns_withToken. intros t1 _.
      destruct (negb _);
        [apply Returns_throw | apply Returns_ret; cbv beta in *; lia]. }
  assert (HWA : forall i, length tokens - i <= r ->
            forall fuel lhs, 4 * r + 1 <= fuel ->
            Returns (fun i1 => i <= i1) (whileAnd fuel tokens lhs i)).
  { intros i Hr [|n] lhs Hf; [lia|]. cbn [whileAnd].
    apply Returns_withToken. intros t Ht.
    destruct (Hnext i t Hr Ht) as (r' & -> & Hr').
    destruct (TokenType_eqb _ _); [|apply Returns_ret; lia].
    destruct (IH r' (Nat.lt_succ_diag_r r') (i + 1) (Hr' (i + 1) (below i)))
      as (U & _).
    eapply Returns_bind; [apply U; lia|].
    intros f i1 Hi1. cbv beta in Hi1.
    assert (Hi : i < i1) by lia.
    destruct (IH r' (Nat.lt_succ_diag_r r') i1 (Hr' i1 Hi))
      as (_ & WA & _).
    eapply Returns_impl; [|apply WA; lia]. intros; cbv beta in *; lia. }
  assert (HC : forall i, length tokens - i <= r ->
            forall fuel, 4 * r + 2 <= fuel ->
            Returns (fun i1 => i < i1) (parseConjunction fuel tokens i)).
  { intros i Hr [|n] Hf; [lia|]. cbn [parseConjunction].
    eapply Returns_bind; [apply (HU i Hr); lia|].
    intros f i1 Hi1. cbv beta in Hi1.
    eapply Returns_impl;
      [|apply (HWA i1 (Hlater i i1 Hr (Nat.lt_le_incl _ _ Hi1))); lia].
    intros; cbv beta in *; lia. }
  assert (HWO : forall i, length tokens - i <= r ->
            forall fuel lhs, 4 * r + 1 <= fuel ->
            Returns (fun i1 => i <= i1) (whileOr fuel tokens lhs i)).
  { intros i Hr [|n] lhs Hf; [lia|]. cbn [whileOr].
    apply Returns_withToken. intros t Ht.
    destruct (Hnext i t Hr Ht) as (r' & -> & Hr').
    destruct (TokenType_eqb _ _); [|apply Returns_ret; lia].
    destruct (IH r' (Nat.lt_succ_diag_r r') (i + 1) (Hr' (i + 1) (below i)))
      as (_ & _ & C & _).
    eapply Returns_bind; [apply C; lia|].
    intros f i1 Hi1. cbv beta in Hi1.
    assert (Hi : i < i1) by lia.
    destruct (IH r' (Nat.lt_succ_diag_r r') i1 (Hr' i1 Hi))
      as (_ & _ & _ & WO & _).
    eapply Returns_impl; [|apply WO; lia]. intros; cbv beta in *; lia. }
  assert (HD : forall i, length tokens - i <= r ->
            forall fuel, 4 * r + 3 <= fuel ->
            Returns (fun i1 => i < i1) (parseDisjunction fuel tokens i)).
  { intros i Hr [|n] Hf; [lia|]. cbn [parseDisjunction].
    eapply Returns_bind; [apply (HC i Hr); lia|].
    intros f i1 Hi1. cbv beta in Hi1.
    eapply Returns_impl;
      [|apply (HWO i1 (Hlater i i1 Hr (Nat.lt_le_incl _ _ Hi1))); lia].
    intros; cbv beta in *; lia. }
  assert (HWI : forall i, length tokens - i <= r ->
            forall fuel lhs, 4 * r + 1 <= fuel ->
            Returns (fun i1 => i <= i1) (whileImplies fuel tokens lhs i)).
  { intros i Hr [|n] lhs Hf; [lia|]. cbn [whileImplies].
    apply Returns_withToken. intros t Ht.
    destruct (Hnext i t Hr Ht) as (r' & -> & Hr').
    destruct (TokenType_eqb _ _); [|apply Returns_ret; lia].
    destruct (IH r' (Nat.lt_succ_diag_r r') (i + 1) (Hr' (i + 1) (below i)))
      as (_ & _ & _ & _ & _ & _ & I).
    eapply Returns_bind; [apply I; lia|].
    intros f i1 Hi1. cbv beta in Hi1.
    assert (Hi : i < i1) by lia.
    destruct (IH r' (Nat.lt_succ_diag_r r') i1 (Hr' i1 Hi))
      as (_ & _ & _ & _ & _ & WI & _).
    eapply Returns_impl; [|apply WI; lia]. intros; cbv beta in *; lia. }
  intros i Hr. repeat split; auto.
  intros [|n] Hf; [lia|]. cbn [parseImplication].
  eapply Returns_bind; [apply (HD i Hr); lia|].
  intros f i1 Hi1. cbv beta in Hi1.
  eapply Returns_impl;
    [|apply (HWI i1 (Hlater i i1 Hr (Nat.lt_le_incl _ _ Hi1))); lia].
  intros; cbv beta in *; lia.
Qed.

(** The counter of [parse] never runs out: [parse] returns a formula or
    throws, for every token array. *)
Theorem parse_terminates tokens : exists res, parse tokens = Some res.
Proof.
  unfold parse, parseWithFuel, parseFuel.
  destruct (parse_levels_return tokens (length tokens) 0 ltac:(lia))
    as (_ & _ & _ & _ & _ & _ & I).
  destruct (I (4 * length tokens + 4) (le_n _)) as (res & -> & _).
  destruct res as [e | [f i]]; simpl; [eauto|].
  unfold withToken. destruct (peek tokens i); [eauto|].
  destruct (negb _); eauto.
Qed.

Lemma parseFormula_terminates input : exists res, parseFormula input = Some res.
Proof.
  unfold parseFormula. destruct (tokenize input); [eauto|].
  apply parse_terminates.
Qed.

(** C4. Tokenizing and parsing the three sample strings gives the trees
    required by the precedence ladder: conjunction binds tighter than
    disjunction, implication associates to the right, and negation nests. *)
Theorem C4_precedence_and_associativity :
  parseFormula P_or_Q_and_R
  = Some (inr (BINARY OR atomP (BINARY AND atomQ atomR)))
  /\ parseFormula (lit "P -> Q -> R")
     = Some (inr (BINARY IMPLIES atomP (BINARY IMPLIES atomQ atomR)))
  /\ parseFormula (lit "~~P") = Some (inr (FNOT (FNOT atomP))).
Proof. repeat split; vm_compute; reflexivity. Qed.

End Parser_facts.

(* ================================================================== *)
(** ** Further properties of the rule engine *)
(* ================================================================== *)

Section Engine_rules.

Local Open Scope Z_scope.

(** Conjunction elimination.  On a resolved premise [And(A, B)], its keys
    in any order, CE_LEFT appends [A] and CE_RIGHT appends [B], at the
    depth of the premise; on a premise of any other form both fail with the
    pattern error of CE. *)
Theorem CE_splits_a_conjunction st i p o :
  findStep st i = Some p ->
  (forall k A B,
     formula p = BinaryObject k AND A B ->
     applyRule st CE_LEFT [i] o
     = inr {| premises := premises st; goal := goal st;
              currentSteps :=
                currentSteps st
                ++ [ {| id := nextId st; formula := A; rule := CE_LEFT;
                        justification := [i]; depth := depth p;
                        isDischarged := None |} ];
              nextId := Number.add (nextId st) 1 |}
     /\ applyRule st CE_RIGHT [i] o
        = inr {| premises := premises st; goal := goal st;
                 currentSteps :=
                   currentSteps st
                   ++ [ {| id := nextId st; formula := B; rule := CE_RIGHT;
                           justification := [i]; depth := depth p;
                           isDischarged := None |} ];
                 nextId := Number.add (nextId st) 1 |})
  /\ (~ (exists k A B, formula p = BinaryObject k AND A B) ->
      applyRule st CE_LEFT [i] o = inl CE_premise_must_be_a_conjunction
      /\ applyRule st CE_RIGHT [i] o = inl CE_premise_must_be_a_conjunction).
Proof.
  intros Hp. unfold applyRule, applyCE. rewrite Hp. split.
  - intros k A B ->. split; reflexivity.
  - intros N. destruct (formula p) as [? n | ? g | k [] l r];
      try (split; reflexivity).
    exfalso. eauto.
Qed.

Lemma CE_splits_a_conjunction_witness :
  exists st',
    applyRule (withNewStep INITIAL_PROOF_STATE
                 (currentSteps INITIAL_PROOF_STATE)
                 (newStepOf INITIAL_PROOF_STATE (BINARY AND atomP atomQ)
                    CI [2; 2] 0))
      CE_RIGHT [3] None = inr st'
    /\ option_map formula (findStep st' 4) = Some atomQ.
Proof.
  eexists. split.
  - refine (proj2 (proj1 (CE_splits_a_conjunction
                            (withNewStep INITIAL_PROOF_STATE
                               (currentSteps INITIAL_PROOF_STATE)
                               (newStepOf INITIAL_PROOF_STATE
                                  (BINARY AND atomP atomQ) CI [2; 2] 0))
                            3 _ None eq_refl) tclr atomP atomQ eq_refl)).
  - reflexivity.
Defined.

(** Double negation.  On a resolved premise [Not(Not(A))], the keys of the
    two negations in any order, DN appends [A] at the depth of the premise;
    on any other premise it fails with its pattern error. *)
Theorem DN_strips_two_negations st i p o :
  findStep st i = Some p ->
  (forall k1 k2 A,
     formula p = NotObject k1 (NotObject k2 A) ->
     applyRule st DN [i] o
     = inr {| premises := premises st; goal := goal st;
              currentSteps :=
                currentSteps st
                ++ [ {| id := nextId st; formula := A; rule := DN;
                        justification := [i]; depth := depth p;
                        isDischarged := None |} ];
              nextId := Number.add (nextId st) 1 |})
  /\ (~ (exists k1 k2 A, formula p = NotObject k1 (NotObject k2 A)) ->
      applyRule st DN [i] o = inl DN_premise_must_be_a_double_negation).
Proof.
  intros Hp. unfold applyRule, applyDN. rewrite Hp. split.
  - intros k1 k2 A ->. reflexivity.
  - intros N.
    destruct (formula p) as [? n | ? [? n | ? g | ? c l r] | ? c l r];
      try reflexivity.
    exfalso. eauto.
Qed.

Lemma DN_strips_two_negations_witness :
  applyRule (handleAddPremise INITIAL_PROOF_STATE
               (Some (FNOT (FNOT atomR)))) DN [3] None
  = inr {| premises := [];
           goal := atomQ;
           currentSteps :=
             currentSteps (handleAddPremise INITIAL_PROOF_STATE
                             (Some (FNOT (FNOT atomR))))
             ++ [ {| id := 4; formula := atomR; rule := DN;
                     justification := [3]; depth := 0;
                     isDischarged := None |} ];
           nextId := 5 |}.
Proof.
  exact (proj1 (DN_strips_two_negations
                  (handleAddPremise INITIAL_PROOF_STATE
                     (Some (FNOT (FNOT atomR))))
                  3 _ None eq_refl) type_formula type_formula atomR
           eq_refl).
Defined.

(** Disjunction introduction.  Without a secondary formula DI fails with
    the missing-formula error whether or not the selected id resolves; with
    one, on a resolved premise, DI_LEFT appends [Or(premise, secondary)]
    and DI_RIGHT appends [Or(secondary, premise)], at the depth of the
    premise, for any secondary formula. *)
Theorem DI_adds_the_secondary_formula st i :
  (applyRule st DI_LEFT [i] None = inl DI_requires_a_secondary_formula
   /\ applyRule st DI_RIGHT [i] None = inl DI_requires_a_secondary_formula)
  /\ forall p q,
       findStep st i = Some p ->
       applyRule st DI_LEFT [i] (Some q)
       = inr {| premises := premises st; goal := goal st;
                currentSteps :=
                  currentSteps st
                  ++ [ {| id := nextId st;
                          formula := BINARY OR (formula p) q;
                          rule := DI_LEFT;
                          justification := [i]; depth := depth p;
                          isDischarged := None |} ];
                nextId := Number.add (nextId st) 1 |}
       /\ applyRule st DI_RIGHT [i] (Some q)
          = inr {| premises := premises st; goal := goal st;
                   currentSteps :=
                     currentSteps st
                     ++ [ {| id := nextId st;
                             formula := BINARY OR q (formula p);
                             rule := DI_RIGHT;
                             justification := [i]; depth := depth p;
                             isDischarged := None |} ];
                   nextId := Number.add (nextId st) 1 |}.
Proof.
  split; [split; reflexivity|].
  intros p q Hp. unfold applyRule, applyDI. rewrite Hp.
  split; reflexivity.
Qed.

Lemma DI_adds_the_secondary_formula_witness :
  exists st',
    applyRule INITIAL_PROOF_STATE DI_RIGHT [2] (Some atomR) = inr st'
    /\ option_map formula (findStep st' 3) = Some (BINARY OR atomR atomP).
Proof.
  eexists. split.
  - exact (proj2 (proj2 (DI_adds_the_secondary_formula
                           INITIAL_PROOF_STATE 2) _ atomR eq_refl)).
  - reflexivity.
Defined.

(** Conjunction introduction.  On two resolved ids CI always succeeds and
    appends [And(first, second)] in the order of selection, at the larger
    of the two depths; the same id may be selected twice. *)
Theorem CI_joins_in_selection_order st a b p q o :
  findStep st a = Some p ->
  findStep st b = Some q ->
  applyRule st CI [a; b] o
  = inr {| premises := premises st; goal := goal st;
           currentSteps :=
             currentSteps st
             ++ [ {| id := nextId st;
                     formula := BINARY AND (formula p) (formula q);
                     rule := CI;
                     justification := [a; b];
                     depth := Z.max (depth p) (depth q);
                     isDischarged := None |} ];
           nextId := Number.add (nextId st) 1 |}.
Proof.
  intros Ha Hb. unfold applyRule, applyCI.
  rewrite (selectedPremises_two st a b p q Ha Hb). reflexivity.
Qed.

Lemma CI_joins_in_selection_order_witness :
  exists st',
    applyRule INITIAL_PROOF_STATE CI [2; 1] None = inr st'
    /\ option_map formula (findStep st' 3)
       = Some (BINARY AND atomP (BINARY IMPLIES atomP atomQ)).
Proof.
  eexists. split.
  - exact (CI_joins_in_selection_order INITIAL_PROOF_STATE 2 1 _ _ None
             eq_refl eq_refl).
  - reflexivity.
Defined.

(** The number of selected ids is tested first: with a wrong number every
    rule fails with the arity error of its own branch, whatever the ids,
    the state and the secondary formula are. *)
Theorem wrong_arity_is_rejected_first st r ids o :
  r <> ASSUME ->
  length ids <> arity r ->
  applyRule st r ids o = inl (arityError r)
  /\ kindOf (arityError r) = ArityMismatch.
Proof.
  intros Hr Hlen.
  destruct r; try contradiction; unfold applyRule, arity, arityError in *;
    unfold applyMP, applyCI, applyCE, applyDN, applyDI, applyDS, applyII;
    destruct ids as [|a [|b [|c ids]]]; simpl in *;
    try contradiction; split; reflexivity.
Qed.

Lemma wrong_arity_is_rejected_first_witness :
  applyRule INITIAL_PROOF_STATE MP [1; 2; 2] None
  = inl MP_requires_exactly_two_premises
  /\ applyRule INITIAL_PROOF_STATE DN [] None
     = inl DN_requires_exactly_one_premise.
Proof.
  split.
  - apply (wrong_arity_is_rejected_first INITIAL_PROOF_STATE MP [1; 2; 2]
             None); discriminate.
  - apply (wrong_arity_is_rejected_first INITIAL_PROOF_STATE DN [] None);
      discriminate.
Defined.

End Engine_rules.

Section Engine_states.

Local Open Scope Z_scope.

Ltac cases H :=
  repeat match type of H with
  | context [match ?x with _ => _ end] =>
      destruct x eqn:?; try discriminate H
  end.

Lemma find_app_first {A} (f : A -> bool) l1 l2 :
  find f (l1 ++ l2)
  = match find f l1 with
    | Some x => Some x
    | None => find f l2
    end.
Proof.
  induction l1 as [|x l1 IH]; simpl; [reflexivity|].
  destruct (f x); [reflexivity | exact IH].
Qed.

Lemma find_id_markDischarged k i steps :
  find (fun step => id step =? i) (markDischarged k steps)
  = option_map (fun s => if id s =? k then discharged s else s)
      (find (fun step => id step =? i) steps).
Proof.
  induction steps as [|s steps IH]; simpl; [reflexivity|].
  destruct (id s =? k) eqn:Ek; simpl; rewrite ?Ek;
    destruct (id s =? i); simpl; rewrite ?Ek; auto.
Qed.

Lemma find_id_fresh n steps :
  Forall (fun s => id s < n) steps ->
  find (fun step => id step =? n) steps = None.
Proof.
  induction 1 as [|s steps Hs _ IH]; simpl; [reflexivity|].
  destruct (Z.eqb_spec (id s) n); [lia | exact IH].
Qed.

(** What [findStep] returns in the state built by a successful call. *)
Lemma findStep_withNewStep st steps new i :
  findStep (withNewStep st steps new) i
  = match find (fun step => id step =? i) steps with
    | Some s => Some s
    | None => if id new =? i then Some new else None
    end.
Proof. unfold findStep; simpl. rewrite find_app_first. reflexivity. Qed.

(** The invariant of proof states.  If the ids of the steps are pairwise
    distinct and below [nextId], and [nextId] is at least [-2^53] and below
    [2^53], where adding 1 is exact, the ids of the state returned by any
    successful rule application are again pairwise distinct and below its
    [nextId].  (At [2^53] the sum rounds back to [2^53] and the invariant
    is lost: see [ids_repeat_at_the_limit].) *)
Theorem applyRule_keeps_ids_distinct st r ids o st' :
  WellFormed st ->
  - 2 ^ 53 <= nextId st < 2 ^ 53 ->
  applyRule st r ids o = inr st' ->
  WellFormed st'.
Proof.
  intros [ND Hlt] Hn H. apply applyRule_success in H.
  destruct H as (steps & f & js & d & dis & -> & _ & Hsteps).
  assert (Hids : map id steps = map id (currentSteps st)).
  { destruct Hsteps as [-> | [_ [i ->]]];
      [reflexivity | apply map_id_markDischarged]. }
  assert (Hlt' : Forall (fun z => z < nextId st) (map id steps)).
  { rewrite Hids. apply Forall_map. exact Hlt. }
  unfold WellFormed; simpl. rewrite (Number_add_one (nextId st) Hn). split.
  - rewrite map_app, Hids. simpl.
    apply NoDup_app; [exact ND | repeat constructor; simpl; tauto |].
    intros z Hz [<- | []]. rewrite <- Hids in Hz.
    rewrite Forall_forall in Hlt'. specialize (Hlt' _ Hz). lia.
  - apply Forall_app. split.
    + rewrite Forall_map in Hlt'.
      eapply Forall_impl; [|exact Hlt']. intros; simpl in *; lia.
    + repeat constructor. simpl. lia.
Qed.

Lemma applyRule_keeps_ids_distinct_witness :
  exists st',
    applyRule INITIAL_PROOF_STATE MP [1; 2] None = inr st'
    /\ WellFormed st'.
Proof.
  eexists. split; [vm_compute; reflexivity|].
  apply (applyRule_keeps_ids_distinct INITIAL_PROOF_STATE MP [1; 2] None).
  - split; simpl; repeat constructor; simpl; intuition discriminate.
  - vm_compute. split; [discriminate | reflexivity].
  - vm_compute. reflexivity.
Defined.

(** With the counter at [2^53] two successive calls give their new steps
    the same id. *)
Lemma ids_repeat_at_the_limit :
  WellFormed counterLimitState
  /\ exists st1 st2,
       applyRule counterLimitState CI [1; 2] None = inr st1
       /\ applyRule st1 CI [1; 2] None = inr st2
       /\ ~ WellFormed st1
       /\ ~ NoDup (map id (currentSteps st2)).
Proof.
  split.
  { split; [simpl; repeat constructor; simpl; intuition discriminate|].
    repeat constructor. }
  eexists _, _. split; [vm_compute; reflexivity|].
  split; [vm_compute; reflexivity|]. split.
  - intros [_ H]. rewrite Forall_forall in H.
    specialize (H _ (or_intror (or_intror (or_introl eq_refl)))).
    vm_compute in H. discriminate H.
  - intros H. vm_compute in H.
    apply NoDup_cons_iff in H. destruct H as [_ H].
    apply NoDup_cons_iff in H. destruct H as [_ H].
    apply NoDup_cons_iff in H. destruct H as [N _].
    apply N. left. reflexivity.
Qed.

Lemma selectedPremises_all_found st ids :
  length (selectedPremises st ids) = length ids ->
  Forall (fun j => findStep st j <> None) ids.
Proof.
  unfold selectedPremises. induction ids as [|j ids IH]; simpl;
    [constructor|].
  destruct (findStep st j) as [s|] eqn:E; simpl; intros Hlen.
  - constructor; [congruence | apply IH; lia].
  - pose proof (length_filterDefined (map (findStep st) ids)) as Hle.
    rewrite length_map in Hle. lia.
Qed.

Lemma findStep_of_found st i s :
  findStep st i = Some s -> findStep st (id s) <> None.
Proof.
  intros H. rewrite (findStep_id st i s H). congruence.
Qed.

(** The justification of the appended step cites existing steps only:
    every id in it resolves in the input state.  In a state whose ids are
    below [nextId], every cited id is therefore smaller than the id of the
    new step: no step cites itself or a later step. *)
Theorem justification_cites_existing_steps st r ids o st' :
  applyRule st r ids o = inr st' ->
  exists steps newStep,
    currentSteps st' = steps ++ [newStep]
    /\ Forall (fun j => findStep st j <> None) (justification newStep)
    /\ (Forall (fun s => id s < nextId st) (currentSteps st) ->
        Forall (fun j => j < id newStep) (justification newStep)).
Proof.
  intros H.
  assert (Hjs : exists steps f js d dis,
            st' = withNewStep st steps
                    {| id := nextId st; formula := f; rule := r;
                       justification := js; depth := d;
                       isDischarged := dis |}
            /\ Forall (fun j => findStep st j <> None) js).
  { destruct r; unfold applyRule in H; try discriminate H.
    - (* MP *)
      unfold applyMP, newStepOf, throw, ret in H.
      destruct (negb (length ids =? 2)%nat) eqn:L1; [discriminate|].
      destruct (negb (length (selectedPremises st ids) =? 2)%nat) eqn:L2;
        [discriminate|].
      apply negb_false_iff, Nat.eqb_eq in L1, L2.
      assert (F := selectedPremises_all_found st ids ltac:(congruence)).
      cases H; injection H as <-; do 5 eexists; split;
        try reflexivity; exact F.
    - (* CI *)
      unfold applyCI, formulaOf, depthOf, newStepOf, throw, ret in H.
      destruct (negb (length ids =? 2)%nat) eqn:L1; [discriminate|].
      apply negb_false_iff, Nat.eqb_eq in L1.
      pose proof (length_filterDefined (map (findStep st) ids)) as Hle.
      rewrite length_map in Hle. fold (selectedPremises st ids) in Hle.
      destruct (selectedPremises st ids) as [|x [|y l]] eqn:E;
        simpl in H; try discriminate H.
      assert (F : Forall (fun j => findStep st j <> None) ids).
      { apply selectedPremises_all_found. rewrite E. simpl in *. lia. }
      injection H as <-. do 5 eexists; split; try reflexivity; exact F.
    - (* CE_LEFT *)
      unfold applyCE, newStepOf, throw, ret in H.
      cases H; injection H as <-; do 5 eexists; split; try reflexivity;
        subst; repeat constructor; congruence.
    - unfold applyCE, newStepOf, throw, ret in H.
      cases H; injection H as <-; do 5 eexists; split; try reflexivity;
        subst; repeat constructor; congruence.
    - unfold applyDN, newStepOf, throw, ret in H.
      cases H; injection H as <-; do 5 eexists; split; try reflexivity;
        subst; repeat constructor; congruence.
    - unfold applyDI, newStepOf, throw, ret in H.
      cases H; injection H as <-; do 5 eexists; split; try reflexivity;
        subst; repeat constructor; congruence.
    - unfold applyDI, newStepOf, throw, ret in H.
      cases H; injection H as <-; do 5 eexists; split; try reflexivity;
        subst; repeat constructor; congruence.
    - (* DS *)
      unfold applyDS, newStepOf, throw, ret in H.
      destruct (negb (length ids =? 2)%nat) eqn:L1; [discriminate|].
      destruct (negb (length (selectedPremises st ids) =? 2)%nat) eqn:L2;
        [discriminate|].
      apply negb_false_iff, Nat.eqb_eq in L1, L2.
      assert (F := selectedPremises_all_found st ids ltac:(congruence)).
      cases H; injection H as <-; do 5 eexists; split;
        try reflexivity; exact F.
    - (* II *)
      unfold applyII in H.
      destruct ids as [|a [|b [|c ids]]]; try discriminate H.
      destruct (findStep st a) as [sa|] eqn:Ha; [|discriminate H].
      destruct (findStep st b) as [sb|] eqn:Hb; [|discriminate H].
      pose proof (findStep_of_found st a sa Ha) as Fa.
      pose proof (findStep_of_found st b sb Hb) as Fb.
      destruct (isASSUME sa && negb (isASSUME sb)),
               (isASSUME sb && negb (isASSUME sa)), (id sa <? id sb);
        simpl in H; injection H as <-;
        do 5 eexists; (split; [reflexivity|]);
        repeat (apply Forall_cons; [assumption|]); constructor. }
  destruct Hjs as (steps & f & js & d & dis & -> & F).
  eexists steps, _. split; [reflexivity|]. simpl. split; [exact F|].
  intros Hlt. eapply Forall_impl; [|exact F].
  intros j Hj. simpl in Hj.
  destruct (findStep st j) as [s|] eqn:E; [|congruence].
  rewrite <- (findStep_id st j s E).
  rewrite Forall_forall in Hlt. apply Hlt, (findStep_In st j s E).
Qed.

Lemma justification_cites_existing_steps_witness :
  exists st' steps newStep,
    applyRule twoAssumptionsState II [2; 1] None = inr st'
    /\ currentSteps st' = steps ++ [newStep]
    /\ Forall (fun j => findStep twoAssumptionsState j <> None)
         (justification newStep)
    /\ (Forall (fun s => id s < nextId twoAssumptionsState)
          (currentSteps twoAssumptionsState) ->
        Forall (fun j => j < id newStep) (justification newStep)).
Proof.
  destruct (justification_cites_existing_steps twoAssumptionsState II
              [2; 1] None _ eq_refl) as (steps & newStep & H).
  eexists _, steps, newStep. split; [reflexivity | exact H].
Defined.

End Engine_states.

Section Engine_lookup.

Local Open Scope Z_scope.

(** Looking steps up after a successful call.  In a state whose ids are
    below [nextId], the new step is found under the old [nextId]; under
    any other id the lookup gives what it gave before, up to the discharge
    flag: a step that was found is found again as it was or as its
    discharged copy, and an id that resolved to nothing still does. *)
Theorem lookup_after_applyRule st r ids o st' :
  Forall (fun s => id s < nextId st) (currentSteps st) ->
  applyRule st r ids o = inr st' ->
  exists steps newStep,
    currentSteps st' = steps ++ [newStep]
    /\ findStep st' (nextId st) = Some newStep
    /\ forall i,
         i <> nextId st ->
         match findStep st i with
         | Some s =>
             findStep st' i = Some s
             \/ (r = II /\ findStep st' i = Some (discharged s))
         | None => findStep st' i = None
         end.
Proof.
  intros Hlt H. apply applyRule_success in H.
  destruct H as (steps & f & js & d & dis & -> & _ & Hsteps).
  eexists steps, _. split; [reflexivity|].
  rewrite findStep_withNewStep. simpl id.
  assert (Hfind : forall i,
            find (fun step => id step =? i) steps
            = find (fun step => id step =? i) (currentSteps st)
            \/ (r = II /\ exists k,
                  find (fun step => id step =? i) steps
                  = option_map (fun s => if id s =? k then discharged s
                                         else s)
                      (find (fun step => id step =? i) (currentSteps st)))).
  { intros i. destruct Hsteps as [-> | [-> [k ->]]]; [left; reflexivity|].
    right. split; [reflexivity|]. exists k.
    apply find_id_markDischarged. }
  split.
  - destruct (Hfind (nextId st)) as [E | (_ & k & E)]; rewrite E;
      rewrite (find_id_fresh _ _ Hlt); simpl; rewrite Z.eqb_refl;
      reflexivity.
  - intros i Hi. rewrite findStep_withNewStep. simpl id.
    destruct (Z.eqb_spec (nextId st) i) as [E | _]; [congruence|].
    unfold findStep.
    destruct (Hfind i) as [E | (Hr & k & E)]; rewrite E.
    + destruct (find _ (currentSteps st)); auto.
    + destruct (find _ (currentSteps st)) as [s|]; simpl; [|reflexivity].
      destruct (id s =? k); auto.
Qed.

Lemma lookup_after_applyRule_witness :
  exists st' newStep,
    applyRule twoAssumptionsState II [1; 2] None = inr st'
    /\ findStep st' 3 = Some newStep
    /\ formula newStep = BINARY IMPLIES atomP atomQ
    /\ option_map isDischarged (findStep st' 1) = Some (Some true).
Proof.
  destruct (lookup_after_applyRule twoAssumptionsState II [1; 2] None _
              ltac:(repeat constructor) eq_refl)
    as (steps & newStep & Hs & Hnew & Hold).
  eexists _, newStep. split; [reflexivity|]. split; [exact Hnew|].
  split.
  - vm_compute in Hnew. injection Hnew as <-. reflexivity.
  - reflexivity.
Defined.

(** Conjunction introduction followed by conjunction elimination gives the
    two formulas back: in a state whose ids are below [nextId], after CI on
    two resolved steps, CE_LEFT on the new line appends the formula of the
    first step and CE_RIGHT the formula of the second. *)
Theorem CE_undoes_CI st a b p q o1 o2 :
  Forall (fun s => id s < nextId st) (currentSteps st) ->
  findStep st a = Some p ->
  findStep st b = Some q ->
  exists st1,
    applyRule st CI [a; b] o1 = inr st1
    /\ applyRule st1 CE_LEFT [nextId st] o2
       = inr {| premises := premises st; goal := goal st;
                currentSteps :=
                  currentSteps st1
                  ++ [ {| id := Number.add (nextId st) 1; formula := formula p;
                          rule := CE_LEFT; justification := [nextId st];
                          depth := Z.max (depth p) (depth q);
                          isDischarged := None |} ];
                nextId := Number.add (Number.add (nextId st) 1) 1 |}
    /\ applyRule st1 CE_RIGHT [nextId st] o2
       = inr {| premises := premises st; goal := goal st;
                currentSteps :=
                  currentSteps st1
                  ++ [ {| id := Number.add (nextId st) 1; formula := formula q;
                          rule := CE_RIGHT; justification := [nextId st];
                          depth := Z.max (depth p) (depth q);
                          isDischarged := None |} ];
                nextId := Number.add (Number.add (nextId st) 1) 1 |}.
Proof.
  intros Hlt Ha Hb. eexists. split.
  - unfold applyRule, applyCI.
    rewrite (selectedPremises_two st a b p q Ha Hb). reflexivity.
  - unfold applyRule, applyCE.
    rewrite findStep_withNewStep.
    rewrite (find_id_fresh _ _ Hlt). simpl. rewrite Z.eqb_refl.
    split; reflexivity.
Qed.

Lemma CE_undoes_CI_witness :
  exists st1 st2,
    applyRule INITIAL_PROOF_STATE CI [1; 2] None = inr st1
    /\ applyRule st1 CE_RIGHT [3] None = inr st2
    /\ option_map formula (findStep st2 4) = Some atomP.
Proof.
  destruct (CE_undoes_CI INITIAL_PROOF_STATE 1 2 _ _ None None
              ltac:(repeat constructor) eq_refl eq_refl)
    as (st1 & H1 & _ & H3).
  eexists st1, _. split; [exact H1|]. split; [exact H3|].
  vm_compute in H1. injection H1 as <-. reflexivity.
Defined.

(** Implication introduction followed by modus ponens gives the conclusion
    back: in a state whose ids are below [nextId], after II on two
    resolved ids, MP on the new line and the line II took as assumption, in
    either order, appends the formula of the line II took as conclusion. *)
Theorem MP_undoes_II st a b sa sb o1 o2 :
  Forall (fun s => id s < nextId st) (currentSteps st) ->
  findStep st a = Some sa ->
  findStep st b = Some sb ->
  exists st1 asm con,
    applyRule st II [a; b] o1 = inr st1
    /\ ((asm = sa /\ con = sb) \/ (asm = sb /\ con = sa))
    /\ option_map formula (findStep st1 (nextId st))
       = Some (BINARY IMPLIES (formula asm) (formula con))
    /\ (exists st2 newStep,
          applyRule st1 MP [nextId st; id asm] o2 = inr st2
          /\ currentSteps st2 = currentSteps st1 ++ [newStep]
          /\ formula newStep = formula con)
    /\ (exists st2 newStep,
          applyRule st1 MP [id asm; nextId st] o2 = inr st2
          /\ currentSteps st2 = currentSteps st1 ++ [newStep]
          /\ formula newStep = formula con).
Proof.
  intros Hlt Ha Hb.
  pose proof (applyII_found st a b sa sb o1 Ha Hb) as Happ.
  cbv zeta in Happ.
  set (asm := if II_takes_first sa sb then sa else sb) in *.
  set (con := if II_takes_first sa sb then sb else sa) in *.
  assert (Hasm : findStep st (id asm) = Some asm).
  { unfold asm. destruct (II_takes_first sa sb).
    - rewrite (findStep_id st a sa Ha). exact Ha.
    - rewrite (findStep_id st b sb Hb). exact Hb. }
  assert (Hnew_id : id asm <> nextId st).
  { pose proof (findStep_In _ _ _ Hasm) as Hin.
    rewrite Forall_forall in Hlt. specialize (Hlt _ Hin). lia. }
  eexists _, asm, con. split; [exact Happ|].
  split; [unfold asm, con; destruct (II_takes_first sa sb); auto|].
  match type of Happ with _ = inr ?s => set (st1 := s) end.
  assert (Hnew : findStep st1 (nextId st)
                 = Some {| id := nextId st;
                           formula :=
                             BINARY IMPLIES (formula asm) (formula con);
                           rule := II;
                           justification := [id asm; id con];
                           depth := 0;
                           isDischarged := Some false |}).
  { unfold st1. rewrite findStep_withNewStep, find_id_markDischarged.
    rewrite (find_id_fresh _ _ Hlt). simpl. rewrite Z.eqb_refl.
    reflexivity. }
  assert (Hold : findStep st1 (id asm) = Some (discharged asm)).
  { unfold st1. rewrite findStep_withNewStep, find_id_markDischarged.
    unfold findStep in Hasm. rewrite Hasm. simpl. rewrite Z.eqb_refl.
    reflexivity. }
  split; [rewrite Hnew; reflexivity|].
  split.
  - rewrite (applyMP_found st1 _ _ _ _ o2 Hnew Hold). simpl formula.
    rewrite (proj2 (mpConclusion_Some _ _ _) (ex_intro _ tclr eq_refl)).
    eexists _, _. split; [reflexivity|]. split; reflexivity.
  - rewrite (applyMP_found st1 _ _ _ _ o2 Hold Hnew). simpl formula.
    rewrite mpConclusion_converse.
    rewrite (proj2 (mpConclusion_Some _ _ _) (ex_intro _ tclr eq_refl)).
    eexists _, _. split; [reflexivity|]. split; reflexivity.
Qed.

Lemma MP_undoes_II_witness :
  exists st1 st2,
    applyRule twoAssumptionsState II [1; 2] None = inr st1
    /\ applyRule st1 MP [3; 1] None = inr st2
    /\ option_map formula (findStep st2 4) = Some atomQ.
Proof.
  destruct (MP_undoes_II twoAssumptionsState 1 2 _ _ None None
              ltac:(repeat constructor) eq_refl eq_refl)
    as (st1 & asm & con & H1 & _ & _ & _ & _).
  eexists st1, _. split; [exact H1|].
  vm_compute in H1. injection H1 as <-.
  split; vm_compute; reflexivity.
Defined.

End Engine_lookup.

(* ================================================================== *)
(** ** The client: goal test, premises and selection *)
(* ================================================================== *)

Section Client_facts.

Local Open Scope Z_scope.

Lemma isGoalAchieved_iff goal steps :
  isGoalAchieved goal steps = true
  <-> exists g s, goal = Some g /\ In s steps /\ formula s = g.
Proof.
  unfold isGoalAchieved. rewrite existsb_exists. split.
  - intros (s & Hin & H). destruct goal as [g|]; [|discriminate].
    apply str_eqb_eq, JSON_stringify_inj in H. eauto.
  - intros (g & s & -> & Hin & <-). exists s. split; [exact Hin|].
    apply str_eqb_refl.
Qed.

(** The goal test of the client and the engine.  Without a goal the goal
    is never achieved.  After a successful rule application the goal is
    achieved exactly if it was achieved before or the appended formula is
    the goal: a derivation never loses the goal, and reaches it only by
    deriving it. *)
Theorem goal_is_reached_by_deriving_it st r ids o st' :
  applyRule st r ids o = inr st' ->
  isGoalAchieved None (currentSteps st') = false
  /\ exists steps newStep,
       currentSteps st' = steps ++ [newStep]
       /\ forall g,
            isGoalAchieved (Some g) (currentSteps st') = true
            <-> isGoalAchieved (Some g) (currentSteps st) = true
                \/ formula newStep = g.
Proof.
  intros H. split.
  { unfold isGoalAchieved. induction (currentSteps st'); simpl; auto. }
  apply applyRule_success in H.
  destruct H as (steps & f & js & d & dis & -> & _ & Hsteps).
  eexists steps, _. split; [reflexivity|]. intros g. simpl.
  assert (Hmap : map formula steps = map formula (currentSteps st)).
  { destruct Hsteps as [-> | [_ [k ->]]]; [reflexivity|].
    unfold markDischarged. rewrite map_map. apply map_ext.
    intros s. destruct (id s =? k); reflexivity. }
  assert (Hin : forall l,
            isGoalAchieved (Some g) l = true <-> In g (map formula l)).
  { intros l. rewrite isGoalAchieved_iff, in_map_iff. split.
    - intros (g' & s & [= <-] & Hs & E). eauto.
    - intros (s & E & Hs). eauto. }
  rewrite !Hin, map_app, in_app_iff, Hmap. simpl. tauto.
Qed.

Lemma goal_is_reached_by_deriving_it_witness :
  exists st' steps newStep,
    applyRule INITIAL_PROOF_STATE MP [1; 2] None = inr st'
    /\ isGoalAchieved (Some atomQ) (currentSteps st') = true
    /\ currentSteps st' = steps ++ [newStep]
    /\ (isGoalAchieved (Some atomQ) (currentSteps st') = true
        <-> isGoalAchieved (Some atomQ) (currentSteps INITIAL_PROOF_STATE)
            = true
            \/ formula newStep = atomQ).
Proof.
  destruct (goal_is_reached_by_deriving_it INITIAL_PROOF_STATE MP [1; 2]
              None _ eq_refl) as (_ & steps & newStep & Hs & Hg).
  eexists _, steps, newStep. split; [reflexivity|].
  split; [reflexivity|]. split; [exact Hs | apply Hg].
Defined.

(** Adding a premise.  Without a parsed formula the state is returned as
    it is.  With one, a step tagged ASSUME with that formula, no
    justification and depth 0 is appended under the id [nextId]; the
    existing steps, the premises and the goal are kept and the new
    [nextId] is the double nearest to [nextId + 1].  In a state whose ids
    are pairwise distinct and below [nextId] the new premise is found
    under its id and every earlier lookup gives the same step; when
    moreover [nextId] is at least [-2^53] and below [2^53], the new
    [nextId] is [nextId + 1] and the ids stay pairwise distinct and below
    it. *)
Theorem handleAddPremise_appends_an_assumption st :
  handleAddPremise st None = st
  /\ forall ast,
       let st' := handleAddPremise st (Some ast) in
       currentSteps st'
       = currentSteps st
         ++ [ {| id := nextId st; formula := ast; rule := ASSUME;
                 justification := []; depth := 0; isDischarged := None |} ]
       /\ nextId st' = Number.add (nextId st) 1
       /\ premises st' = premises st /\ goal st' = goal st
       /\ (WellFormed st ->
           option_map formula (findStep st' (nextId st)) = Some ast
           /\ (forall i s, findStep st i = Some s -> findStep st' i = Some s)
           /\ (- 2 ^ 53 <= nextId st < 2 ^ 53 ->
               nextId st' = nextId st + 1 /\ WellFormed st')).
Proof.
  split; [reflexivity|]. intros ast st'.
  split; [reflexivity|]. split; [reflexivity|].
  split; [reflexivity|]. split; [reflexivity|].
  intros [ND Hlt]. split; [|split].
  - unfold st', findStep; simpl. rewrite find_app_first.
    rewrite (find_id_fresh _ _ Hlt). simpl. rewrite Z.eqb_refl.
    reflexivity.
  - intros i s Hs. unfold st', findStep in *; simpl.
    rewrite find_app_first, Hs. reflexivity.
  - intros Hn. unfold WellFormed, st'; simpl.
    rewrite (Number_add_one (nextId st) Hn).
    split; [reflexivity|]. split.
    + rewrite map_app. simpl.
      apply NoDup_app; [exact ND | repeat constructor; simpl; tauto |].
      intros z Hz [<- | []]. apply in_map_iff in Hz.
      destruct Hz as (s & E & Hs).
      rewrite Forall_forall in Hlt. specialize (Hlt s Hs). lia.
    + apply Forall_app. split.
      * eapply Forall_impl; [|exact Hlt]. intros; simpl in *; lia.
      * repeat constructor. simpl. lia.
Qed.

Lemma handleAddPremise_appends_an_assumption_witness :
  WellFormed (handleAddPremise INITIAL_PROOF_STATE (Some atomR))
  /\ option_map formula
       (findStep (handleAddPremise INITIAL_PROOF_STATE (Some atomR)) 3)
     = Some atomR.
Proof.
  destruct (proj2 (handleAddPremise_appends_an_assumption
                     INITIAL_PROOF_STATE) atomR)
    as (_ & _ & _ & _ & H).
  destruct H as (Hf & _ & Hw).
  - split; simpl; repeat constructor; simpl; intuition discriminate.
  - split; [|exact Hf]. apply Hw.
    vm_compute. split; [discriminate | reflexivity].
Defined.

(** Selecting lines.  While a request is loading a click changes nothing.
    Otherwise a click toggles the clicked id and nothing else: the id is
    selected afterwards exactly if it was not before, every other id keeps
    its status, the ids that stay selected keep their order, a newly
    selected id goes to the end, and a selection without repetition stays
    without repetition. *)
Theorem handleStepClick_toggles prev i :
  handleStepClick true prev i = prev
  /\ (In i (handleStepClick false prev i) <-> ~ In i prev)
  /\ (forall j, j <> i ->
        (In j (handleStepClick false prev i) <-> In j prev))
  /\ filter (fun j => negb (j =? i)) (handleStepClick false prev i)
     = filter (fun j => negb (j =? i)) prev
  /\ (~ In i prev -> handleStepClick false prev i = prev ++ [i])
  /\ (NoDup prev -> NoDup (handleStepClick false prev i)).
Proof.
  split; [reflexivity|].
  unfold handleStepClick.
  assert (Hex : existsb (fun j => j =? i) prev = true <-> In i prev).
  { rewrite existsb_exists. split.
    - intros (j & Hj & E). apply Z.eqb_eq in E. congruence.
    - intros H. exists i. split; [exact H | apply Z.eqb_refl]. }
  assert (Hfilter : forall j l,
            In j (filter (fun k => negb (k =? i)) l) <-> In j l /\ j <> i).
  { intros j l. rewrite filter_In, negb_true_iff, Z.eqb_neq. reflexivity. }
  destruct (existsb (fun j => j =? i) prev) eqn:E.
  - assert (Hin : In i prev) by (apply Hex; reflexivity).
    split; [|split; [|split; [|split]]].
    + rewrite Hfilter. tauto.
    + intros j Hj. rewrite Hfilter. tauto.
    + clear. induction prev as [|k l IH]; simpl; [reflexivity|].
      destruct (negb (k =? i)) eqn:Ek; simpl; rewrite ?Ek, IH; reflexivity.
    + intros Hn. contradiction.
    + intros Hd. apply NoDup_filter. exact Hd.
  - assert (Hnin : ~ In i prev).
    { intros Hi. apply Hex in Hi. congruence. }
    split; [|split; [|split; [|split]]].
    + rewrite in_app_iff. simpl. tauto.
    + intros j Hj. rewrite in_app_iff. simpl. intuition congruence.
    + rewrite filter_app. simpl. rewrite Z.eqb_refl. simpl.
      apply app_nil_r.
    + reflexivity.
    + intros Hd.
      apply NoDup_app; [exact Hd | repeat constructor; simpl; tauto|].
      intros z Hz [<- | []]. contradiction.
Qed.

Lemma handleStepClick_toggles_witness :
  handleStepClick false [1; 2] 1 = [2]
  /\ handleStepClick false (handleStepClick false [1; 2] 1) 1 = [2; 1]
  /\ NoDup (handleStepClick false [1; 2] 1).
Proof.
  split; [reflexivity|]. split; [reflexivity|].
  apply (proj2 (proj2 (proj2 (proj2 (proj2
           (handleStepClick_toggles [1; 2] 1)))))).
  repeat constructor; simpl; intuition discriminate.
Defined.

End Client_facts.

(* ================================================================== *)
(** ** Further properties of the lexer *)
(* ================================================================== *)

Section Lexer_more.

(** A character that is a token by itself. *)
Lemma tokenizeFrom_single c ty rest position tokens :
  isWhitespace c = false ->
  tokenTypeOf [c] = Some ty ->
  tokenizeFrom (c :: rest) position tokens
  = tokenizeFrom rest (position + 1) (tokens ++ [mkToken ty [c]]).
Proof.
  intros Hw. cbn [tokenizeFrom tokenTypeOf]. rewrite Hw.
  destruct (c =? ch_LEFT_PAREN)%N; [intros [= <-]; reflexivity|].
  destruct (c =? ch_RIGHT_PAREN)%N; [intros [= <-]; reflexivity|].
  destruct ((c =? ch_TILDE)%N || (c =? ch_NOT_SIGN)%N);
    [intros [= <-]; reflexivity|].
  destruct (c =? ch_LOGICAL_AND)%N; [intros [= <-]; reflexivity|].
  destruct (c =? ch_LOGICAL_OR)%N; [intros [= <-]; reflexivity|].
  destruct (N.eqb_spec c ch_MINUS) as [-> | _]; [discriminate|].
  destruct (c =? ch_ARROW)%N; [intros [= <-]; reflexivity|].
  destruct (isUpper c); [intros [= <-]; reflexivity | discriminate].
Qed.

Lemma tokenizeFrom_whitespace c rest position tokens :
  isWhitespace c = true ->
  tokenizeFrom (c :: rest) position tokens
  = tokenizeFrom rest (position + 1) tokens.
Proof. intros Hw. cbn [tokenizeFrom]. rewrite Hw. reflexivity. Qed.

Lemma tokenizeFrom_unrecognized c rest position tokens :
  isWhitespace c = false ->
  c <> ch_MINUS ->
  tokenTypeOf [c] = None ->
  tokenizeFrom (c :: rest) position tokens
  = inl (Unrecognized_character c position).
Proof.
  intros Hw Hm. apply N.eqb_neq in Hm.
  cbn [tokenizeFrom tokenTypeOf]. rewrite Hw, Hm.
  destruct (c =? ch_LEFT_PAREN)%N; [discriminate|].
  destruct (c =? ch_RIGHT_PAREN)%N; [discriminate|].
  destruct ((c =? ch_TILDE)%N || (c =? ch_NOT_SIGN)%N); [discriminate|].
  destruct (c =? ch_LOGICAL_AND)%N; [discriminate|].
  destruct (c =? ch_LOGICAL_OR)%N; [discriminate|].
  destruct (c =? ch_ARROW)%N; [discriminate|].
  destruct (isUpper c); [discriminate | reflexivity].
Qed.

(** Induction along the iterations of the loop of [tokenize]. *)
Lemma tokenizeFrom_cases
    (P : JSString -> nat -> list Token -> Result (list Token) -> Prop) :
  (forall position tokens,
     P [] position tokens (inr (tokens ++ [mkToken T_EOF []]))) ->
  (forall c rest position tokens,
     isWhitespace c = true ->
     P rest (position + 1) tokens
       (tokenizeFrom rest (position + 1) tokens) ->
     P (c :: rest) position tokens
       (tokenizeFrom rest (position + 1) tokens)) ->
  (forall c ty rest position tokens,
     isWhitespace c = false ->
     tokenTypeOf [c] = Some ty ->
     P rest (position + 1) (tokens ++ [mkToken ty [c]])
       (tokenizeFrom rest (position + 1) (tokens ++ [mkToken ty [c]])) ->
     P (c :: rest) position tokens
       (tokenizeFrom rest (position + 1) (tokens ++ [mkToken ty [c]]))) ->
  (forall rest position tokens,
     P rest (position + 2)
       (tokens ++ [mkToken T_IMPLIES [ch_MINUS; ch_GREATER]])
       (tokenizeFrom rest (position + 2)
          (tokens ++ [mkToken T_IMPLIES [ch_MINUS; ch_GREATER]])) ->
     P (ch_MINUS :: ch_GREATER :: rest) position tokens
       (tokenizeFrom rest (position + 2)
          (tokens ++ [mkToken T_IMPLIES [ch_MINUS; ch_GREATER]]))) ->
  (forall rest position tokens,
     hd_error rest <> Some ch_GREATER ->
     P (ch_MINUS :: rest) position tokens
       (inl (Invalid_character ch_MINUS position))) ->
  (forall c rest position tokens,
     isWhitespace c = false ->
     c <> ch_MINUS ->
     tokenTypeOf [c] = None ->
     P (c :: rest) position tokens
       (inl (Unrecognized_character c position))) ->
  forall input position tokens,
    P input position tokens (tokenizeFrom input position tokens).
Proof.
  intros Hnil Hws Htok Harrow Hlone Hbad input.
  assert (H : forall n input position tokens,
            length input <= n ->
            P input position tokens (tokenizeFrom input position tokens)).
  { induction n as [|n IH]; intros inp position tokens Hn.
    { destruct inp; [apply Hnil | simpl in Hn; lia]. }
    destruct inp as [|c rest]; [apply Hnil|]. simpl in Hn.
    destruct (isWhitespace c) eqn:Hw.
    { rewrite (tokenizeFrom_whitespace c rest position tokens Hw).
      apply Hws; [exact Hw | apply IH; lia]. }
    destruct (N.eq_dec c ch_MINUS) as [-> | Hm].
    { destruct (followed_by_greater_dec rest) as [Hg | Hg].
      - destruct rest as [|d rest']; [discriminate|].
        simpl in Hg. injection Hg as ->.
        rewrite tokenizeFrom_minus_greater.
        apply Harrow, IH. simpl in Hn. lia.
      - rewrite (tokenizeFrom_lone_minus rest position tokens Hg).
        apply Hlone, Hg. }
    destruct (tokenTypeOf [c]) as [ty|] eqn:Hty.
    - rewrite (tokenizeFrom_single c ty rest position tokens Hw Hty).
      apply Htok; [exact Hw | exact Hty | apply IH; lia].
    - rewrite (tokenizeFrom_unrecognized c rest position tokens Hw Hm Hty).
      apply Hbad; assumption. }
  intros position tokens. apply (H (length input)). apply le_n.
Qed.

Lemma tokenTypeOf_single_not_EOF c ty :
  tokenTypeOf [c] = Some ty -> ty <> T_EOF.
Proof.
  cbn [tokenTypeOf].
  repeat match goal with
  | |- context [if ?b then _ else _] => destruct b
  end; intros [= <-]; discriminate.
Qed.

Lemma tokenizeFrom_keeps_the_text input position tokens toks :
  tokenizeFrom input position tokens = inr toks ->
  exists new,
    toks = tokens ++ new ++ [mkToken T_EOF []]
    /\ Forall (fun t => tok_type t <> T_EOF) new
    /\ Forall (fun t => tokenTypeOf (tok_value t) = Some (tok_type t)) new
    /\ concat (map tok_value new) = withoutWhitespace input.
Proof.
  revert toks.
  pose (P := fun (input : JSString) (position : nat)
                     (tokens : list Token) (res : Result (list Token)) =>
               forall toks, res = inr toks ->
               exists new,
                 toks = tokens ++ new ++ [mkToken T_EOF []]
                 /\ Forall (fun t => tok_type t <> T_EOF) new
                 /\ Forall (fun t => tokenTypeOf (tok_value t)
                                     = Some (tok_type t)) new
                 /\ concat (map tok_value new) = withoutWhitespace input).
  revert input position tokens.
  apply (tokenizeFrom_cases P); unfold P; clear.
  - intros position tokens toks [= <-]. exists [].
    split; [reflexivity|]. split; [constructor|].
    split; [constructor | reflexivity].
  - intros c rest position tokens Hw IH toks E.
    destruct (IH toks E) as (new & -> & H1 & H2 & H3).
    exists new. split; [reflexivity|]. split; [exact H1|].
    split; [exact H2|].
    unfold withoutWhitespace. simpl. rewrite Hw. exact H3.
  - intros c ty rest position tokens Hw Hty IH toks E.
    destruct (IH toks E) as (new & -> & H1 & H2 & H3).
    exists (mkToken ty [c] :: new). rewrite <- app_assoc. simpl.
    split; [reflexivity|]. split; [|split].
    + constructor; [|exact H1]. simpl.
      apply (tokenTypeOf_single_not_EOF c ty Hty).
    + constructor; [exact Hty | exact H2].
    + unfold withoutWhitespace in *. simpl. rewrite Hw, H3. reflexivity.
  - intros rest position tokens IH toks E.
    destruct (IH toks E) as (new & -> & H1 & H2 & H3).
    exists (mkToken T_IMPLIES [ch_MINUS; ch_GREATER] :: new).
    rewrite <- app_assoc. simpl.
    split; [reflexivity|]. split; [|split].
    + constructor; [discriminate | exact H1].
    + constructor; [reflexivity | exact H2].
    + unfold withoutWhitespace in *. simpl. rewrite H3. reflexivity.
  - discriminate.
  - discriminate.
Qed.

(** The token array.  When [tokenize] succeeds, its result ends with the
    EOF token and has no other EOF token, every token has the type that
    belongs to its text, and the texts of the tokens, put together, are
    the input without its white space: nothing else is dropped, added or
    reordered. *)
Theorem tokenize_keeps_the_text input toks :
  tokenize input = inr toks ->
  endsWithEOF toks
  /\ Forall (fun t => tokenTypeOf (tok_value t) = Some (tok_type t)) toks
  /\ concat (map tok_value toks) = withoutWhitespace input.
Proof.
  unfold tokenize. intros E.
  destruct (tokenizeFrom_keeps_the_text input 0 [] toks E)
    as (new & -> & H1 & H2 & H3).
  simpl. split; [exists new; auto|]. split.
  - apply Forall_app. split; [exact H2 | repeat constructor].
  - rewrite map_app, concat_app, H3. simpl. apply app_nil_r.
Qed.

Lemma tokenize_keeps_the_text_witness :
  exists toks,
    tokenize (lit " ~P ->  (Q) ") = inr toks
    /\ concat (map tok_value toks) = lit "~P->(Q)".
Proof.
  eexists. split; [vm_compute; reflexivity|].
  refine (proj2 (proj2 (tokenize_keeps_the_text (lit " ~P ->  (Q) ") _ _))).
  vm_compute. reflexivity.
Defined.

Lemma tokenizeFrom_error input position tokens e :
  tokenizeFrom input position tokens = inl e ->
  exists c k,
    nth_error input k = Some c
    /\ (exists toks,
          tokenizeFrom (firstn k input) position tokens = inr toks)
    /\ (e = Invalid_character c (position + k)
          /\ c = ch_MINUS
          /\ nth_error input (S k) <> Some ch_GREATER
        \/ e = Unrecognized_character c (position + k)
           /\ isWhitespace c = false
           /\ tokenTypeOf [c] = None /\ c <> ch_MINUS).
Proof.
  revert e.
  pose (P := fun (input : JSString) (position : nat)
                     (tokens : list Token) (res : Result (list Token)) =>
               forall e, res = inl e ->
               exists c k,
                 nth_error input k = Some c
                 /\ (exists toks,
                       tokenizeFrom (firstn k input) position tokens
                       = inr toks)
                 /\ (e = Invalid_character c (position + k)
                       /\ c = ch_MINUS
                       /\ nth_error input (S k) <> Some ch_GREATER
                     \/ e = Unrecognized_character c (position + k)
                        /\ isWhitespace c = false
                        /\ tokenTypeOf [c] = None /\ c <> ch_MINUS)).
  revert input position tokens.
  apply (tokenizeFrom_cases P); unfold P; clear.
  - discriminate.
  - intros c rest position tokens Hw IH e E.
    destruct (IH e E) as (c' & k & Hk & (toks & Ht) & He).
    exists c', (S k). split; [exact Hk|]. split.
    + exists toks. simpl firstn.
      rewrite (tokenizeFrom_whitespace c _ position tokens Hw). exact Ht.
    + replace (position + S k) with (position + 1 + k) by lia. exact He.
  - intros c ty rest position tokens Hw Hty IH e E.
    destruct (IH e E) as (c' & k & Hk & (toks & Ht) & He).
    exists c', (S k). split; [exact Hk|]. split.
    + exists toks. simpl firstn.
      rewrite (tokenizeFrom_single c ty _ position tokens Hw Hty).
      exact Ht.
    + replace (position + S k) with (position + 1 + k) by lia. exact He.
  - intros rest position tokens IH e E.
    destruct (IH e E) as (c' & k & Hk & (toks & Ht) & He).
    exists c', (S (S k)). split; [exact Hk|]. split.
    + exists toks. simpl firstn. rewrite tokenizeFrom_minus_greater.
      exact Ht.
    + replace (position + S (S k)) with (position + 2 + k) by lia.
      exact He.
  - intros rest position tokens Hg e [= <-].
    exists ch_MINUS, 0. split; [reflexivity|]. split.
    + eexists. reflexivity.
    + left. rewrite Nat.add_0_r. repeat split.
      destruct rest; simpl in *; exact Hg.
  - intros c rest position tokens Hw Hm Hty e [= <-].
    exists c, 0. split; [reflexivity|]. split.
    + eexists. reflexivity.
    + right. rewrite Nat.add_0_r. repeat split; assumption.
Qed.

(** Lexical errors.  When [tokenize] fails, the error names a character of
    the input and its index, everything before that index is lexically
    fine (the text up to it can be tokenized), and the character is a [-]
    that is not followed by [>] or a character outside the alphabet of the
    lexer: [tokenize] fails with nothing else. *)
Theorem tokenize_error_is_the_first_bad_character input e :
  tokenize input = inl e ->
  exists c p,
    nth_error input p = Some c
    /\ (exists toks, tokenize (firstn p input) = inr toks)
    /\ (e = Invalid_character c p /\ c = ch_MINUS
          /\ nth_error input (S p) <> Some ch_GREATER
        \/ e = Unrecognized_character c p /\ isWhitespace c = false
           /\ tokenTypeOf [c] = None /\ c <> ch_MINUS).
Proof.
  unfold tokenize. intros E. exact (tokenizeFrom_error input 0 [] e E).
Qed.

Lemma tokenize_error_is_the_first_bad_character_witness :
  exists c p,
    nth_error (lit "P -> q") p = Some c
    /\ (exists toks, tokenize (firstn p (lit "P -> q")) = inr toks)
    /\ p = 5.
Proof.
  destruct (tokenize_error_is_the_first_bad_character (lit "P -> q")
              (Unrecognized_character 113%N 5) eq_refl)
    as (c & p & Hc & Ht & [(He & _) | (He & _)]).
  - discriminate He.
  - exists c, p. injection He as _ <-. auto.
Defined.

(** White space does not matter for a text that can be tokenized: taking
    it out leaves the token array unchanged.  (Putting white space in can
    matter: between [-] and [>] it turns the arrow into an error.) *)
Theorem tokenize_ignores_whitespace input toks :
  tokenize input = inr toks ->
  tokenize (withoutWhitespace input) = inr toks.
Proof.
  unfold tokenize.
  pose (P := fun (input : JSString) (position : nat)
                     (tokens : list Token) (res : Result (list Token)) =>
               forall toks, res = inr toks ->
               forall position',
                 tokenizeFrom (withoutWhitespace input) position' tokens
                 = inr toks).
  assert (H : forall input position tokens,
            P input position tokens (tokenizeFrom input position tokens)).
  { apply (tokenizeFrom_cases P); unfold P; clear.
    - intros position tokens toks E position'. exact E.
    - intros c rest position tokens Hw IH toks E position'.
      unfold withoutWhitespace. cbn [filter]. rewrite Hw. cbn [negb].
      apply IH, E.
    - intros c ty rest position tokens Hw Hty IH toks E position'.
      unfold withoutWhitespace. cbn [filter]. rewrite Hw. cbn [negb].
      rewrite (tokenizeFrom_single c ty _ position' tokens Hw Hty).
      apply IH, E.
    - intros rest position tokens IH toks E position'.
      change (withoutWhitespace (ch_MINUS :: ch_GREATER :: rest))
        with (ch_MINUS :: ch_GREATER :: withoutWhitespace rest).
      rewrite tokenizeFrom_minus_greater. apply IH, E.
    - discriminate.
    - discriminate. }
  intros E. exact (H input 0 [] toks E 0).
Qed.

Lemma tokenize_ignores_whitespace_witness :
  tokenize (withoutWhitespace (lit "P  -> Q")) = tokenize (lit "P  -> Q")
  /\ exists e, tokenize (lit "P - > Q") = inl e.
Proof.
  split.
  - rewrite (tokenize_ignores_whitespace (lit "P  -> Q") _ eq_refl).
    reflexivity.
  - eexists. reflexivity.
Defined.

End Lexer_more.

(* ================================================================== *)
(** ** Further properties of the parser *)
(* ================================================================== *)

Section Parser_fuel.

(** *** One step of each function *)

Lemma parseImplication_S n tokens i :
  parseImplication (S n) tokens i
  = bindP (parseDisjunction n tokens i)
      (fun '(lhs, i1) => whileImplies n tokens lhs i1).
Proof. reflexivity. Qed.

Lemma whileImplies_S n tokens lhs i :
  whileImplies (S n) tokens lhs i
  = withToken tokens i (fun t =>
      if TokenType_eqb (tok_type t) T_IMPLIES then
        bindP (parseImplication n tokens (i + 1)) (fun '(rhs, i1) =>
        whileImplies n tokens (BINARY IMPLIES lhs rhs) i1)
      else Some (ret (lhs, i))).
Proof. reflexivity. Qed.

Lemma parseDisjunction_S n tokens i :
  parseDisjunction (S n) tokens i
  = bindP (parseConjunction n tokens i)
      (fun '(lhs, i1) => whileOr n tokens lhs i1).
Proof. reflexivity. Qed.

Lemma whileOr_S n tokens lhs i :
  whileOr (S n) tokens lhs i
  = withToken tokens i (fun t =>
      if TokenType_eqb (tok_type t) T_OR then
        bindP (parseConjunction n tokens (i + 1)) (fun '(rhs, i1) =>
        whileOr n tokens (BINARY OR lhs rhs) i1)
      else Some (ret (lhs, i))).
Proof. reflexivity. Qed.

Lemma parseConjunction_S n tokens i :
  parseConjunction (S n) tokens i
  = bindP (parseUnary n tokens i)
      (fun '(lhs, i1) => whileAnd n tokens lhs i1).
Proof. reflexivity. Qed.

Lemma whileAnd_S n tokens lhs i :
  whileAnd (S n) tokens lhs i
  = withToken tokens i (fun t =>
      if TokenType_eqb (tok_type t) T_AND then
        bindP (parseUnary n tokens (i + 1)) (fun '(rhs, i1) =>
        whileAnd n tokens (BINARY AND lhs rhs) i1)
      else Some (ret (lhs, i))).
Proof. reflexivity. Qed.

Lemma parseUnary_S n tokens i :
  parseUnary (S n) tokens i
  = withToken tokens i (fun token =>
      match tok_type token with
      | T_NOT =>
          bindP (parseUnary n tokens (i + 1)) (fun '(formula, i1) =>
          Some (ret (FNOT formula, i1)))
      | T_LEFT_PAREN =>
          bindP (parseImplication n tokens (i + 1)) (fun '(formula, i1) =>
          withToken tokens i1 (fun t =>
          if negb (TokenType_eqb (tok_type t) T_RIGHT_PAREN) then
            Some (throw (Expected_right_paren_but_found (tok_value t)))
          else Some (ret (formula, i1 + 1))))
      | T_PROPOSITION => Some (ret (ATOM (tok_value token), i + 1))
      | _ => Some (throw (Unexpected_token (tok_value token)))
      end).
Proof. reflexivity. Qed.

Lemma withToken_at {B} tokens i t (k : Token -> Partial B) :
  nth_error tokens i = Some t -> withToken tokens i k = k t.
Proof. unfold withToken, peek. intros ->. reflexivity. Qed.

(** *** More fuel gives the same result *)

Lemma fuelStable_refl {A} (x : Partial A) : fuelStable x x.
Proof. intros r H; exact H. Qed.

Lemma fuelStable_bind {A B} (x y : Partial A) (k l : A -> Partial B) :
  fuelStable x y ->
  (forall a, fuelStable (k a) (l a)) ->
  fuelStable (bindP x k) (bindP y l).
Proof.
  intros Hx Hk r. destruct x as [[e | a]|]; simpl; try discriminate.
  - rewrite (Hx _ eq_refl). simpl. auto.
  - rewrite (Hx _ eq_refl). simpl. apply Hk.
Qed.

Lemma fuelStable_withToken {B} tokens i (k l : Token -> Partial B) :
  (forall t, fuelStable (k t) (l t)) ->
  fuelStable (withToken tokens i k) (withToken tokens i l).
Proof.
  intros Hk. unfold withToken. destruct (peek tokens i);
    [apply fuelStable_refl | apply Hk].
Qed.

Lemma parse_fuel_step tokens n :
  (forall i, fuelStable (parseImplication n tokens i)
               (parseImplication (S n) tokens i))
  /\ (forall lhs i, fuelStable (whileImplies n tokens lhs i)
                      (whileImplies (S n) tokens lhs i))
  /\ (forall i, fuelStable (parseDisjunction n tokens i)
                  (parseDisjunction (S n) tokens i))
  /\ (forall lhs i, fuelStable (whileOr n tokens lhs i)
                      (whileOr (S n) tokens lhs i))
  /\ (forall i, fuelStable (parseConjunction n tokens i)
                  (parseConjunction (S n) tokens i))
  /\ (forall lhs i, fuelStable (whileAnd n tokens lhs i)
                      (whileAnd (S n) tokens lhs i))
  /\ (forall i, fuelStable (parseUnary n tokens i)
                  (parseUnary (S n) tokens i)).
Proof.
  induction n as [|n (I & WI & D & WO & C & WA & U)].
  { repeat split; intros; intros r H; discriminate H. }
  repeat split; intros.
  - rewrite (parseImplication_S n), (parseImplication_S (S n)).
    apply fuelStable_bind; [apply D | intros [f j]; apply WI].
  - rewrite (whileImplies_S n), (whileImplies_S (S n)).
    apply fuelStable_withToken. intros t.
    destruct (TokenType_eqb _ _); [|apply fuelStable_refl].
    apply fuelStable_bind; [apply I | intros [f j]; apply WI].
  - rewrite (parseDisjunction_S n), (parseDisjunction_S (S n)).
    apply fuelStable_bind; [apply C | intros [f j]; apply WO].
  - rewrite (whileOr_S n), (whileOr_S (S n)).
    apply fuelStable_withToken. intros t.
    destruct (TokenType_eqb _ _); [|apply fuelStable_refl].
    apply fuelStable_bind; [apply C | intros [f j]; apply WO].
  - rewrite (parseConjunction_S n), (parseConjunction_S (S n)).
    apply fuelStable_bind; [apply U | intros [f j]; apply WA].
  - rewrite (whileAnd_S n), (whileAnd_S (S n)).
    apply fuelStable_withToken. intros t.
    destruct (TokenType_eqb _ _); [|apply fuelStable_refl].
    apply fuelStable_bind; [apply U | intros [f j]; apply WA].
  - rewrite (parseUnary_S n), (parseUnary_S (S n)).
    apply fuelStable_withToken. intros t.
    destruct (tok_type t); try apply fuelStable_refl.
    + apply fuelStable_bind; [apply U | intros [f j]; apply fuelStable_refl].
    + apply fuelStable_bind; [apply I | intros [f j]; apply fuelStable_refl].
Qed.

Lemma parseImplication_fuel_mono tokens i n m r :
  n <= m ->
  parseImplication n tokens i = Some r ->
  parseImplication m tokens i = Some r.
Proof.
  induction 1 as [|m _ IH]; [auto|].
  intros H. apply (proj1 (parse_fuel_step tokens m)), IH, H.
Qed.

(** What [parse] returns is what the top-level function returns with any
    sufficient amount of fuel. *)
Lemma parse_of_ParsesTo tokens need f j :
  ParsesTo parseImplication tokens need 0 f j ->
  parse tokens
  = withToken tokens j (fun t =>
      if negb (TokenType_eqb (tok_type t) T_EOF) then
        Some (throw (Unexpected_token_at_end (tok_value t)))
      else Some (ret f)).
Proof.
  intros Hp. unfold parse, parseWithFuel.
  destruct (parse_levels_return tokens (length tokens) 0 ltac:(lia))
    as (_ & _ & _ & _ & _ & _ & I).
  destruct (I (parseFuel tokens) (le_n _)) as (res & E & _).
  pose proof (parseImplication_fuel_mono tokens 0 _
                (Nat.max need (parseFuel tokens)) res
                (Nat.le_max_r _ _) E) as E'.
  rewrite (Hp _ (Nat.le_max_l _ _)) in E'. injection E' as <-.
  rewrite E. reflexivity.
Qed.

End Parser_fuel.

Section Parser_steps.

Variable tokens : list Token.

(** *** How the results of the seven functions combine *)

Lemma Parses_atom i t :
  nth_error tokens i = Some t ->
  tok_type t = T_PROPOSITION ->
  Parses parseUnary tokens i (ATOM (tok_value t)) (i + 1).
Proof.
  intros Ht Hty. exists 1. intros [|n] Hn; [lia|].
  rewrite parseUnary_S, (withToken_at _ _ _ _ Ht), Hty. reflexivity.
Qed.

Lemma Parses_not i t g j :
  nth_error tokens i = Some t ->
  tok_type t = T_NOT ->
  Parses parseUnary tokens (i + 1) g j ->
  Parses parseUnary tokens i (FNOT g) j.
Proof.
  intros Ht Hty [k Hg]. exists (S k). intros [|n] Hn; [lia|].
  rewrite parseUnary_S, (withToken_at _ _ _ _ Ht), Hty.
  rewrite (Hg n ltac:(lia)). reflexivity.
Qed.

Lemma Parses_paren i t f j t' :
  nth_error tokens i = Some t ->
  tok_type t = T_LEFT_PAREN ->
  Parses parseImplication tokens (i + 1) f j ->
  nth_error tokens j = Some t' ->
  tok_type t' = T_RIGHT_PAREN ->
  Parses parseUnary tokens i f (j + 1).
Proof.
  intros Ht Hty [k Hf] Ht' Hty'. exists (S k). intros [|n] Hn; [lia|].
  rewrite parseUnary_S, (withToken_at _ _ _ _ Ht), Hty.
  rewrite (Hf n ltac:(lia)). simpl.
  rewrite (withToken_at _ _ _ _ Ht'), Hty'. reflexivity.
Qed.

Lemma Throws_unclosed i t f j t' :
  nth_error tokens i = Some t ->
  tok_type t = T_LEFT_PAREN ->
  Parses parseImplication tokens (i + 1) f j ->
  nth_error tokens j = Some t' ->
  tok_type t' <> T_RIGHT_PAREN ->
  Throws parseUnary tokens i (Expected_right_paren_but_found (tok_value t')).
Proof.
  intros Ht Hty [k Hf] Ht' Hty'. exists (S k). intros [|n] Hn; [lia|].
  rewrite parseUnary_S, (withToken_at _ _ _ _ Ht), Hty.
  rewrite (Hf n ltac:(lia)). simpl.
  rewrite (withToken_at _ _ _ _ Ht').
  destruct (tok_type t'); try reflexivity. contradiction.
Qed.

Lemma Throws_unexpected i t :
  nth_error tokens i = Some t ->
  tok_type t <> T_NOT -> tok_type t <> T_LEFT_PAREN ->
  tok_type t <> T_PROPOSITION ->
  Throws parseUnary tokens i (Unexpected_token (tok_value t)).
Proof.
  intros Ht H1 H2 H3. exists 1. intros [|n] Hn; [lia|].
  rewrite parseUnary_S, (withToken_at _ _ _ _ Ht).
  destruct (tok_type t); try reflexivity; contradiction.
Qed.

(** The three loops: stopping, and going once round. *)

Lemma Loops_stop_And lhs i t :
  nth_error tokens i = Some t -> tok_type t <> T_AND ->
  Loops whileAnd tokens lhs i lhs i.
Proof.
  intros Ht Hty. exists 1. intros [|n] Hn; [lia|].
  rewrite whileAnd_S, (withToken_at _ _ _ _ Ht).
  destruct (tok_type t); try reflexivity. contradiction.
Qed.

Lemma Loops_stop_Or lhs i t :
  nth_error tokens i = Some t -> tok_type t <> T_OR ->
  Loops whileOr tokens lhs i lhs i.
Proof.
  intros Ht Hty. exists 1. intros [|n] Hn; [lia|].
  rewrite whileOr_S, (withToken_at _ _ _ _ Ht).
  destruct (tok_type t); try reflexivity. contradiction.
Qed.

Lemma Loops_stop_Implies lhs i t :
  nth_error tokens i = Some t -> tok_type t <> T_IMPLIES ->
  Loops whileImplies tokens lhs i lhs i.
Proof.
  intros Ht Hty. exists 1. intros [|n] Hn; [lia|].
  rewrite whileImplies_S, (withToken_at _ _ _ _ Ht).
  destruct (tok_type t); try reflexivity. contradiction.
Qed.

Lemma Loops_more_And lhs i t rhs j f j' :
  nth_error tokens i = Some t -> tok_type t = T_AND ->
  Parses parseUnary tokens (i + 1) rhs j ->
  Loops whileAnd tokens (BINARY AND lhs rhs) j f j' ->
  Loops whileAnd tokens lhs i f j'.
Proof.
  intros Ht Hty [k1 H1] [k2 H2]. exists (S (Nat.max k1 k2)).
  intros [|n] Hn; [lia|].
  rewrite whileAnd_S, (withToken_at _ _ _ _ Ht), Hty.
  rewrite (H1 n ltac:(lia)). simpl. apply H2. lia.
Qed.

Lemma Loops_more_Or lhs i t rhs j f j' :
  nth_error tokens i = Some t -> tok_type t = T_OR ->
  Parses parseConjunction tokens (i + 1) rhs j ->
  Loops whileOr tokens (BINARY OR lhs rhs) j f j' ->
  Loops whileOr tokens lhs i f j'.
Proof.
  intros Ht Hty [k1 H1] [k2 H2]. exists (S (Nat.max k1 k2)).
  intros [|n] Hn; [lia|].
  rewrite whileOr_S, (withToken_at _ _ _ _ Ht), Hty.
  rewrite (H1 n ltac:(lia)). simpl. apply H2. lia.
Qed.

Lemma Loops_more_Implies lhs i t rhs j f j' :
  nth_error tokens i = Some t -> tok_type t = T_IMPLIES ->
  Parses parseImplication tokens (i + 1) rhs j ->
  Loops whileImplies tokens (BINARY IMPLIES lhs rhs) j f j' ->
  Loops whileImplies tokens lhs i f j'.
Proof.
  intros Ht Hty [k1 H1] [k2 H2]. exists (S (Nat.max k1 k2)).
  intros [|n] Hn; [lia|].
  rewrite whileImplies_S, (withToken_at _ _ _ _ Ht), Hty.
  rewrite (H1 n ltac:(lia)). simpl. apply H2. lia.
Qed.

Lemma LoopThrows_And lhs i t e :
  nth_error tokens i = Some t -> tok_type t = T_AND ->
  Throws parseUnary tokens (i + 1) e ->
  LoopThrows whileAnd tokens lhs i e.
Proof.
  intros Ht Hty [k1 H1]. exists (S k1). intros [|n] Hn; [lia|].
  rewrite whileAnd_S, (withToken_at _ _ _ _ Ht), Hty.
  rewrite (H1 n ltac:(lia)). reflexivity.
Qed.

(** A function and the loop that follows it. *)

Lemma Parses_conjunction i l j f j' :
  Parses parseUnary tokens i l j ->
  Loops whileAnd tokens l j f j' ->
  Parses parseConjunction tokens i f j'.
Proof.
  intros [k1 H1] [k2 H2]. exists (S (Nat.max k1 k2)).
  intros [|n] Hn; [lia|].
  rewrite parseConjunction_S, (H1 n ltac:(lia)). simpl. apply H2. lia.
Qed.

Lemma Parses_disjunction i l j f j' :
  Parses parseConjunction tokens i l j ->
  Loops whileOr tokens l j f j' ->
  Parses parseDisjunction tokens i f j'.
Proof.
  intros [k1 H1] [k2 H2]. exists (S (Nat.max k1 k2)).
  intros [|n] Hn; [lia|].
  rewrite parseDisjunction_S, (H1 n ltac:(lia)). simpl. apply H2. lia.
Qed.

Lemma Parses_implication i l j f j' :
  Parses parseDisjunction tokens i l j ->
  Loops whileImplies tokens l j f j' ->
  Parses parseImplication tokens i f j'.
Proof.
  intros [k1 H1] [k2 H2]. exists (S (Nat.max k1 k2)).
  intros [|n] Hn; [lia|].
  rewrite parseImplication_S, (H1 n ltac:(lia)). simpl. apply H2. lia.
Qed.

(** An operand followed by a token that is not its operator. *)

Lemma Parses_up_conjunction i f j t :
  Parses parseUnary tokens i f j ->
  nth_error tokens j = Some t -> tok_type t <> T_AND ->
  Parses parseConjunction tokens i f j.
Proof. eauto using Parses_conjunction, Loops_stop_And. Qed.

Lemma Parses_up_disjunction i f j t :
  Parses parseConjunction tokens i f j ->
  nth_error tokens j = Some t -> tok_type t <> T_OR ->
  Parses parseDisjunction tokens i f j.
Proof. eauto using Parses_disjunction, Loops_stop_Or. Qed.

Lemma Parses_up_implication i f j t :
  Parses parseDisjunction tokens i f j ->
  nth_error tokens j = Some t -> tok_type t <> T_IMPLIES ->
  Parses parseImplication tokens i f j.
Proof. eauto using Parses_implication, Loops_stop_Implies. Qed.

Lemma Parses_unary_to_disjunction i f j t :
  Parses parseUnary tokens i f j ->
  nth_error tokens j = Some t ->
  tok_type t <> T_AND -> tok_type t <> T_OR ->
  Parses parseDisjunction tokens i f j.
Proof. eauto using Parses_up_conjunction, Parses_up_disjunction. Qed.

Lemma Parses_unary_to_implication i f j t :
  Parses parseUnary tokens i f j ->
  nth_error tokens j = Some t -> stopsLoops t ->
  Parses parseImplication tokens i f j.
Proof.
  intros H Ht (H1 & H2 & H3).
  eauto using Parses_unary_to_disjunction, Parses_up_implication.
Qed.

(** Errors travel up unchanged. *)

Lemma Throws_conjunction i e :
  Throws parseUnary tokens i e -> Throws parseConjunction tokens i e.
Proof.
  intros [k H]. exists (S k). intros [|n] Hn; [lia|].
  rewrite parseConjunction_S, (H n ltac:(lia)). reflexivity.
Qed.

Lemma Throws_conjunction_loop i l j e :
  Parses parseUnary tokens i l j ->
  LoopThrows whileAnd tokens l j e ->
  Throws parseConjunction tokens i e.
Proof.
  intros [k1 H1] [k2 H2]. exists (S (Nat.max k1 k2)).
  intros [|n] Hn; [lia|].
  rewrite parseConjunction_S, (H1 n ltac:(lia)). simpl. apply H2. lia.
Qed.

Lemma Throws_disjunction i e :
  Throws parseConjunction tokens i e -> Throws parseDisjunction tokens i e.
Proof.
  intros [k H]. exists (S k). intros [|n] Hn; [lia|].
  rewrite parseDisjunction_S, (H n ltac:(lia)). reflexivity.
Qed.

Lemma Throws_implication i e :
  Throws parseDisjunction tokens i e -> Throws parseImplication tokens i e.
Proof.
  intros [k H]. exists (S k). intros [|n] Hn; [lia|].
  rewrite parseImplication_S, (H n ltac:(lia)). reflexivity.
Qed.

(** *** Slices of the token array *)

Lemma sliceAt_head i t l :
  sliceAt tokens i (t :: l) ->
  nth_error tokens i = Some t /\ sliceAt tokens (i + 1) l.
Proof.
  intros H. split.
  - rewrite <- (Nat.add_0_r i). apply (H 0 t). reflexivity.
  - intros k t' Hk. replace (i + 1 + k) with (i + S k) by lia.
    apply H. exact Hk.
Qed.

Lemma sliceAt_app i l1 l2 :
  sliceAt tokens i (l1 ++ l2) ->
  sliceAt tokens i l1 /\ sliceAt tokens (i + length l1) l2.
Proof.
  intros H. split.
  - intros k t Hk. apply H. rewrite nth_error_app1; [exact Hk|].
    apply nth_error_Some. congruence.
  - intros k t Hk. rewrite <- Nat.add_assoc. apply H.
    rewrite nth_error_app2 by lia.
    replace (length l1 + k - length l1) with k by lia. exact Hk.
Qed.

(** *** The text of a formula is read back as the formula *)

Lemma tokensOf_unary f :
  parsable f = true ->
  forall i,
    sliceAt tokens i (tokensOf f) ->
    Parses parseUnary tokens i f (i + length (tokensOf f)).
Proof.
  induction f as [ks name | ks g IH | ks c l IHl r IHr]; intros Hp i Hs;
    destruct ks; try discriminate Hp.
  - destruct name as [|ch [|ch' name]]; try discriminate Hp.
    apply sliceAt_head in Hs. destruct Hs as [Ht _].
    exact (Parses_atom i _ Ht eq_refl).
  - simpl in Hp, Hs |- *. apply sliceAt_head in Hs. destruct Hs as [Ht Hs].
    replace (i + S (length (tokensOf g)))
      with (i + 1 + length (tokensOf g)) by lia.
    exact (Parses_not i _ g _ Ht eq_refl (IH Hp (i + 1) Hs)).
  - simpl in Hp. apply andb_true_iff in Hp. destruct Hp as [Hp Hr].
    apply andb_true_iff in Hp. destruct Hp as [Hc Hl].
    cbn [tokensOf] in Hs |- *.
    apply sliceAt_head in Hs. destruct Hs as [Hopen Hs].
    apply sliceAt_app in Hs. destruct Hs as [Hsl Hs].
    apply sliceAt_app in Hs. destruct Hs as [Hsc Hs].
    apply sliceAt_app in Hs. destruct Hs as [Hsr Hs].
    apply sliceAt_head in Hs. destruct Hs as [Hclose _].
    pose proof (IHl Hl _ Hsl) as Pl.
    set (j1 := i + 1 + length (tokensOf l)) in *.
    set (j2 := j1 + length (connectiveToken c) + length (tokensOf r)) in *.
    pose proof (IHr Hr _ Hsr) as Pr. fold j2 in Pr.
    assert (Hin : Parses parseImplication tokens (i + 1) (BINARY c l r) j2).
    { destruct c; try discriminate Hc; cbn [connectiveToken length] in *;
        apply sliceAt_head in Hsc; destruct Hsc as [Hop _].
      - (* AND *)
        eapply Parses_up_implication;
          [eapply Parses_up_disjunction;
             [eapply Parses_conjunction;
                [exact Pl
                |eapply Loops_more_And;
                   [exact Hop | reflexivity | exact Pr
                   |eapply Loops_stop_And; [exact Hclose | discriminate]]]
             |exact Hclose | discriminate]
          |exact Hclose | discriminate].
      - (* OR *)
        eapply Parses_up_implication;
          [eapply Parses_disjunction;
             [eapply Parses_up_conjunction;
                [exact Pl | exact Hop | discriminate]
             |eapply Loops_more_Or;
                [exact Hop | reflexivity
                |eapply Parses_up_conjunction;
                   [exact Pr | exact Hclose | discriminate]
                |eapply Loops_stop_Or; [exact Hclose | discriminate]]]
          |exact Hclose | discriminate].
      - (* IMPLIES *)
        eapply Parses_implication;
          [eapply Parses_unary_to_disjunction;
             [exact Pl | exact Hop | discriminate | discriminate]
          |eapply Loops_more_Implies;
             [exact Hop | reflexivity
             |eapply Parses_unary_to_implication;
                [exact Pr | exact Hclose
                |repeat split; discriminate]
             |eapply Loops_stop_Implies; [exact Hclose | discriminate]]]. }
    pose proof (Parses_paren i _ _ j2 _ Hopen eq_refl Hin Hclose eq_refl)
      as Hall.
    replace (j2 + 1)
      with (i + length (mkToken T_LEFT_PAREN [ch_LEFT_PAREN]
                          :: tokensOf l ++ connectiveToken c ++ tokensOf r
                          ++ [mkToken T_RIGHT_PAREN [ch_RIGHT_PAREN]]))
      in Hall
      by (unfold j2, j1; simpl; rewrite !length_app; simpl; lia).
    exact Hall.
Qed.

End Parser_steps.

Section Parser_round_trip.

Lemma parse_of_Parses tokens f j t :
  Parses parseImplication tokens 0 f j ->
  nth_error tokens j = Some t ->
  parse tokens
  = if negb (TokenType_eqb (tok_type t) T_EOF)
    then Some (inl (Unexpected_token_at_end (tok_value t)))
    else Some (inr f).
Proof.
  intros [need Hp] Ht.
  rewrite (parse_of_ParsesTo tokens need f j Hp).
  rewrite (withToken_at _ _ _ _ Ht). reflexivity.
Qed.

Lemma parse_of_Throws tokens e :
  Throws parseImplication tokens 0 e -> parse tokens = Some (inl e).
Proof.
  intros [need Hp]. unfold parse, parseWithFuel.
  destruct (parse_levels_return tokens (length tokens) 0 ltac:(lia))
    as (_ & _ & _ & _ & _ & _ & I).
  destruct (I (parseFuel tokens) (le_n _)) as (res & E & _).
  pose proof (parseImplication_fuel_mono tokens 0 _
                (Nat.max need (parseFuel tokens)) res
                (Nat.le_max_r _ _) E) as E'.
  rewrite (Hp _ (Nat.le_max_l _ _)) in E'. injection E' as <-.
  rewrite E. reflexivity.
Qed.

Lemma sliceAt_whole tokens : sliceAt tokens 0 tokens.
Proof. intros k t H. exact H. Qed.

(** *** Tokenizing the text of a formula *)

Lemma isUpper_is_a_proposition c :
  isUpper c = true ->
  isWhitespace c = false /\ tokenTypeOf [c] = Some T_PROPOSITION.
Proof.
  intros H. unfold isUpper in H. apply andb_true_iff in H.
  destruct H as [H1 H2]. apply N.leb_le in H1, H2.
  assert (Heq : forall k, (k < 65 \/ 90 < k)%N -> (c =? k)%N = false)
    by (intros k Hk; apply N.eqb_neq; lia).
  split.
  - unfold isWhitespace.
    rewrite !Heq by lia.
    replace (c <=? 13)%N with false by (symmetry; apply N.leb_gt; lia).
    replace (8192 <=? c)%N with false by (symmetry; apply N.leb_gt; lia).
    destruct (9 <=? c)%N; reflexivity.
  - cbn [tokenTypeOf].
    unfold ch_LEFT_PAREN, ch_RIGHT_PAREN, ch_TILDE, ch_NOT_SIGN,
      ch_LOGICAL_AND, ch_LOGICAL_OR, ch_ARROW.
    rewrite !Heq by lia. simpl.
    unfold isUpper.
    replace (65 <=? c)%N with true by (symmetry; apply N.leb_le; lia).
    replace (c <=? 90)%N with true by (symmetry; apply N.leb_le; lia).
    reflexivity.
Qed.

Lemma tokenizeFrom_connectiveText c rest position tokens :
  c <> NOT ->
  tokenizeFrom (connectiveText c ++ rest) position tokens
  = tokenizeFrom rest (position + 1 + 1 + 1) (tokens ++ connectiveToken c).
Proof. destruct c; [contradiction | reflexivity ..]. Qed.

Lemma tokenizeFrom_formatFormula f :
  parsable f = true ->
  forall rest position tokens,
  exists position',
    tokenizeFrom (formatFormula f ++ rest) position tokens
    = tokenizeFrom rest position' (tokens ++ tokensOf f).
Proof.
  induction f as [ks name | ks g IH | ks c l IHl r IHr];
    intros Hp rest position tokens; destruct ks; try discriminate Hp.
  - destruct name as [|ch [|ch' name]]; try discriminate Hp.
    simpl in Hp. destruct (isUpper_is_a_proposition ch Hp) as [Hw Hty].
    eexists. simpl.
    apply (tokenizeFrom_single ch T_PROPOSITION rest position tokens Hw Hty).
  - simpl in Hp.
    destruct (IH Hp rest (position + 1)
                (tokens ++ [mkToken T_NOT [ch_NOT_SIGN]])) as [p' E].
    exists p'. cbn [formatFormula tokensOf app].
    rewrite (tokenizeFrom_single ch_NOT_SIGN T_NOT _ position tokens
               eq_refl eq_refl).
    rewrite E, <- app_assoc. reflexivity.
  - simpl in Hp. apply andb_true_iff in Hp. destruct Hp as [Hp Hr].
    apply andb_true_iff in Hp. destruct Hp as [Hc Hl].
    assert (Hc' : c <> NOT) by (intros ->; discriminate Hc).
    cbn [formatFormula tokensOf app]. rewrite <- !app_assoc.
    rewrite (tokenizeFrom_single ch_LEFT_PAREN T_LEFT_PAREN _ position tokens
               eq_refl eq_refl).
    destruct (IHl Hl (connectiveText c ++ formatFormula r
                        ++ [ch_RIGHT_PAREN] ++ rest)
                (position + 1)
                (tokens ++ [mkToken T_LEFT_PAREN [ch_LEFT_PAREN]]))
      as [p1 E1].
    rewrite E1, (tokenizeFrom_connectiveText c _ _ _ Hc').
    destruct (IHr Hr ([ch_RIGHT_PAREN] ++ rest) (p1 + 1 + 1 + 1)
                (((tokens ++ [mkToken T_LEFT_PAREN [ch_LEFT_PAREN]])
                    ++ tokensOf l) ++ connectiveToken c))
      as [p2 E2].
    rewrite E2. cbn [app].
    rewrite (tokenizeFrom_single ch_RIGHT_PAREN T_RIGHT_PAREN _ p2 _
               eq_refl eq_refl).
    exists (p2 + 1). rewrite <- !app_assoc. reflexivity.
Qed.

Lemma tokenize_formatFormula f :
  parsable f = true ->
  tokenize (formatFormula f) = inr (tokensOf f ++ [mkToken T_EOF []]).
Proof.
  intros Hp. unfold tokenize.
  destruct (tokenizeFrom_formatFormula f Hp [] 0 []) as [p E].
  rewrite app_nil_r in E. rewrite E. reflexivity.
Qed.

Lemma parse_tokensOf f :
  parsable f = true ->
  parse (tokensOf f ++ [mkToken T_EOF []]) = Some (inr f).
Proof.
  intros Hp.
  set (tokens := tokensOf f ++ [mkToken T_EOF []]).
  pose proof (sliceAt_whole tokens) as Hs. unfold tokens at 2 in Hs.
  apply sliceAt_app in Hs. destruct Hs as [Hf He].
  apply sliceAt_head in He. destruct He as [He _]. simpl in He.
  pose proof (tokensOf_unary tokens f Hp 0 Hf) as Pu. simpl in Pu.
  rewrite (parse_of_Parses tokens f _ _
             (Parses_unary_to_implication tokens 0 f _ _ Pu He
                ltac:(repeat split; discriminate)) He).
  reflexivity.
Qed.



End Parser_round_trip.

Section Parser_precedence.

Lemma tokenize_two_operators A B C c1 c2 :
  parsable A = true -> parsable B = true -> parsable C = true ->
  c1 <> NOT -> c2 <> NOT ->
  tokenize (formatFormula A ++ connectiveText c1 ++ formatFormula B
              ++ connectiveText c2 ++ formatFormula C)
  = inr (tokensOf A ++ connectiveToken c1 ++ tokensOf B
           ++ connectiveToken c2 ++ tokensOf C ++ [mkToken T_EOF []]).
Proof.
  intros HA HB HC H1 H2. unfold tokenize.
  destruct (tokenizeFrom_formatFormula A HA
              (connectiveText c1 ++ formatFormula B ++ connectiveText c2
                 ++ formatFormula C) 0 []) as [p1 E1].
  rewrite E1, (tokenizeFrom_connectiveText c1 _ _ _ H1).
  destruct (tokenizeFrom_formatFormula B HB
              (connectiveText c2 ++ formatFormula C) (p1 + 1 + 1 + 1)
              (([] ++ tokensOf A) ++ connectiveToken c1)) as [p2 E2].
  rewrite E2, (tokenizeFrom_connectiveText c2 _ _ _ H2).
  destruct (tokenizeFrom_formatFormula C HC [] (p2 + 1 + 1 + 1)
              (((([] ++ tokensOf A) ++ connectiveToken c1) ++ tokensOf B)
                 ++ connectiveToken c2)) as [p3 E3].
  rewrite app_nil_r in E3. rewrite E3. simpl.
  rewrite <- !app_assoc. reflexivity.
Qed.

(** Precedence and associativity for arbitrary operands.  For parsable
    formulas [A], [B], [C] written by [formatFormula] and any two binary
    connectives, the text [A c1 B c2 C] is read as [(A c1 B) c2 C] when
    [c1] binds tighter than [c2], or as tight and is a conjunction or a
    disjunction, and as [A c1 (B c2 C)] otherwise: conjunction binds
    tighter than disjunction, disjunction tighter than implication,
    conjunction and disjunction associate to the left and implication to
    the right. *)
Theorem parse_groups_by_precedence A B C c1 c2 :
  parsable A = true -> parsable B = true -> parsable C = true ->
  c1 <> NOT -> c2 <> NOT ->
  parseFormula (formatFormula A ++ connectiveText c1 ++ formatFormula B
                  ++ connectiveText c2 ++ formatFormula C)
  = Some (inr (if groupsLeft c1 c2
               then BINARY c2 (BINARY c1 A B) C
               else BINARY c1 A (BINARY c2 B C))).
Proof.
  intros HA HB HC H1 H2. unfold parseFormula.
  rewrite (tokenize_two_operators A B C c1 c2 HA HB HC H1 H2).
  set (tokens := tokensOf A ++ connectiveToken c1 ++ tokensOf B
                   ++ connectiveToken c2 ++ tokensOf C
                   ++ [mkToken T_EOF []]).
  pose proof (sliceAt_whole tokens) as Hs. unfold tokens at 2 in Hs.
  apply sliceAt_app in Hs. destruct Hs as [SA Hs].
  apply sliceAt_app in Hs. destruct Hs as [S1 Hs].
  apply sliceAt_app in Hs. destruct Hs as [SB Hs].
  apply sliceAt_app in Hs. destruct Hs as [S2 Hs].
  apply sliceAt_app in Hs. destruct Hs as [SC SE].
  apply sliceAt_head in SE. destruct SE as [TE _].
  pose proof (tokensOf_unary tokens A HA _ SA) as PA.
  pose proof (tokensOf_unary tokens B HB _ SB) as PB.
  pose proof (tokensOf_unary tokens C HC _ SC) as PC.
  simpl Nat.add in *.
  assert (stopE : stopsLoops (mkToken T_EOF []))
    by (repeat split; discriminate).
  destruct c1; try contradiction; destruct c2; try contradiction;
    cbn [connectiveToken length groupsLeft level Nat.ltb Nat.leb Nat.eqb
         Connective_eqb negb orb andb] in *;
    apply sliceAt_head in S1; destruct S1 as [T1 _];
    apply sliceAt_head in S2; destruct S2 as [T2 _];
    match type of TE with
    | nth_error _ ?j = _ =>
        match goal with
        | |- parse tokens = Some (inr ?F) =>
            assert (P : Parses parseImplication tokens 0 F j);
            [| rewrite (parse_of_Parses tokens _ _ _ P TE); reflexivity]
        end
    end.
  - (* A and B and C *)
    eapply Parses_up_implication;
      [eapply Parses_up_disjunction;
         [eapply Parses_conjunction;
            [exact PA
            |eapply Loops_more_And;
               [exact T1 | reflexivity | exact PB
               |eapply Loops_more_And;
                  [exact T2 | reflexivity | exact PC
                  |eapply Loops_stop_And; [exact TE | discriminate]]]]
         |exact TE | discriminate]
      |exact TE | discriminate].
  - (* A and B or C *)
    eapply Parses_up_implication;
      [eapply Parses_disjunction;
         [eapply Parses_conjunction;
            [exact PA
            |eapply Loops_more_And;
               [exact T1 | reflexivity | exact PB
               |eapply Loops_stop_And; [exact T2 | discriminate]]]
         |eapply Loops_more_Or;
            [exact T2 | reflexivity
            |eapply Parses_up_conjunction; [exact PC | exact TE | discriminate]
            |eapply Loops_stop_Or; [exact TE | discriminate]]]
      |exact TE | discriminate].
  - (* A and B implies C *)
    eapply Parses_implication;
      [eapply Parses_up_disjunction;
         [eapply Parses_conjunction;
            [exact PA
            |eapply Loops_more_And;
               [exact T1 | reflexivity | exact PB
               |eapply Loops_stop_And; [exact T2 | discriminate]]]
         |exact T2 | discriminate]
      |eapply Loops_more_Implies;
         [exact T2 | reflexivity
         |eapply Parses_unary_to_implication; [exact PC | exact TE | exact stopE]
         |eapply Loops_stop_Implies; [exact TE | discriminate]]].
  - (* A or B and C *)
    eapply Parses_up_implication;
      [eapply Parses_disjunction;
         [eapply Parses_up_conjunction; [exact PA | exact T1 | discriminate]
         |eapply Loops_more_Or;
            [exact T1 | reflexivity
            |eapply Parses_conjunction;
               [exact PB
               |eapply Loops_more_And;
                  [exact T2 | reflexivity | exact PC
                  |eapply Loops_stop_And; [exact TE | discriminate]]]
            |eapply Loops_stop_Or; [exact TE | discriminate]]]
      |exact TE | discriminate].
  - (* A or B or C *)
    eapply Parses_up_implication;
      [eapply Parses_disjunction;
         [eapply Parses_up_conjunction; [exact PA | exact T1 | discriminate]
         |eapply Loops_more_Or;
            [exact T1 | reflexivity
            |eapply Parses_up_conjunction; [exact PB | exact T2 | discriminate]
            |eapply Loops_more_Or;
               [exact T2 | reflexivity
               |eapply Parses_up_conjunction;
                  [exact PC | exact TE | discriminate]
               |eapply Loops_stop_Or; [exact TE | discriminate]]]]
      |exact TE | discriminate].
  - (* A or B implies C *)
    eapply Parses_implication;
      [eapply Parses_disjunction;
         [eapply Parses_up_conjunction; [exact PA | exact T1 | discriminate]
         |eapply Loops_more_Or;
            [exact T1 | reflexivity
            |eapply Parses_up_conjunction; [exact PB | exact T2 | discriminate]
            |eapply Loops_stop_Or; [exact T2 | discriminate]]]
      |eapply Loops_more_Implies;
         [exact T2 | reflexivity
         |eapply Parses_unary_to_implication; [exact PC | exact TE | exact stopE]
         |eapply Loops_stop_Implies; [exact TE | discriminate]]].
  - (* A implies B and C *)
    eapply Parses_implication;
      [eapply Parses_unary_to_disjunction;
         [exact PA | exact T1 | discriminate | discriminate]
      |eapply Loops_more_Implies;
         [exact T1 | reflexivity
         |eapply Parses_up_implication;
            [eapply Parses_up_disjunction;
               [eapply Parses_conjunction;
                  [exact PB
                  |eapply Loops_more_And;
                     [exact T2 | reflexivity | exact PC
                     |eapply Loops_stop_And; [exact TE | discriminate]]]
               |exact TE | discriminate]
            |exact TE | discriminate]
         |eapply Loops_stop_Implies; [exact TE | discriminate]]].
  - (* A implies B or C *)
    eapply Parses_implication;
      [eapply Parses_unary_to_disjunction;
         [exact PA | exact T1 | discriminate | discriminate]
      |eapply Loops_more_Implies;
         [exact T1 | reflexivity
         |eapply Parses_up_implication;
            [eapply Parses_disjunction;
               [eapply Parses_up_conjunction;
                  [exact PB | exact T2 | discriminate]
               |eapply Loops_more_Or;
                  [exact T2 | reflexivity
                  |eapply Parses_up_conjunction;
                     [exact PC | exact TE | discriminate]
                  |eapply Loops_stop_Or; [exact TE | discriminate]]]
            |exact TE | discriminate]
         |eapply Loops_stop_Implies; [exact TE | discriminate]]].
  - (* A implies B implies C *)
    eapply Parses_implication;
      [eapply Parses_unary_to_disjunction;
         [exact PA | exact T1 | discriminate | discriminate]
      |eapply Loops_more_Implies;
         [exact T1 | reflexivity
         |eapply Parses_implication;
            [eapply Parses_unary_to_disjunction;
               [exact PB | exact T2 | discriminate | discriminate]
            |eapply Loops_more_Implies;
               [exact T2 | reflexivity
               |eapply Parses_unary_to_implication;
                  [exact PC | exact TE | exact stopE]
               |eapply Loops_stop_Implies; [exact TE | discriminate]]]
         |eapply Loops_stop_Implies; [exact TE | discriminate]]].
Qed.

Lemma parse_groups_by_precedence_witness :
  parseFormula (formatFormula (BINARY OR atomP atomQ) ++ connectiveText OR
                  ++ formatFormula (FNOT atomR) ++ connectiveText AND
                  ++ formatFormula atomP)
  = Some (inr (BINARY OR (BINARY OR atomP atomQ)
                 (BINARY AND (FNOT atomR) atomP))).
Proof.
  apply (parse_groups_by_precedence (BINARY OR atomP atomQ) (FNOT atomR)
           atomP OR AND); (reflexivity || discriminate).
Defined.

End Parser_precedence.

Section Parser_safety.

Variable body : list Token.

Lemma EOF_is_last i :
  i <= length body -> exists t, nth_error (withEOF body) i = Some t.
Proof.
  intros Hi. destruct (nth_error (withEOF body) i) eqn:E; [eauto|].
  apply nth_error_None in E. unfold withEOF in E.
  rewrite length_app in E. simpl in E. lia.
Qed.

Lemma consumed_is_before_EOF i t :
  i <= length body -> nth_error (withEOF body) i = Some t ->
  tok_type t <> T_EOF -> i + 1 <= length body.
Proof.
  intros Hi Ht Hty. destruct (Nat.eq_dec i (length body)) as [->|]; [|lia].
  unfold withEOF in Ht. rewrite nth_error_app2, Nat.sub_diag in Ht by lia.
  simpl in Ht. injection Ht as <-. contradiction.
Qed.

Lemma proposition_token_is_parsable i t :
  lexed (withEOF body) -> nth_error (withEOF body) i = Some t ->
  tok_type t = T_PROPOSITION -> parsable (ATOM (tok_value t)) = true.
Proof.
  intros Hc Ht Hty. apply nth_error_In in Ht.
  unfold lexed in Hc. rewrite Forall_forall in Hc.
  specialize (Hc t Ht). rewrite Hty in Hc.
  destruct (tok_value t) as [|c [|d [|]]]; simpl in *; try discriminate.
  - destruct (c =? ch_LEFT_PAREN)%N; [discriminate|].
    destruct (c =? ch_RIGHT_PAREN)%N; [discriminate|].
    destruct ((c =? ch_TILDE)%N || (c =? ch_NOT_SIGN)%N); [discriminate|].
    destruct (c =? ch_LOGICAL_AND)%N; [discriminate|].
    destruct (c =? ch_LOGICAL_OR)%N; [discriminate|].
    destruct (c =? ch_ARROW)%N; [discriminate|].
    destruct (isUpper c); [reflexivity | discriminate].
  - destruct ((c =? ch_MINUS)%N && (d =? ch_GREATER)%N); discriminate.
Qed.

Lemma Good_bind x k :
  Good body x ->
  (forall f j,
     j <= length body -> (lexed (withEOF body) -> parsable f = true) ->
     Good body (k (f, j))) ->
  Good body (bindP x k).
Proof.
  intros Hx Hk. destruct x as [[e | [f j]] |]; simpl in *; auto.
  destruct Hx. auto.
Qed.

Lemma Good_withToken i k :
  i <= length body ->
  (forall t, nth_error (withEOF body) i = Some t -> Good body (k t)) ->
  Good body (withToken (withEOF body) i k).
Proof.
  intros Hi Hk. destruct (EOF_is_last i Hi) as [t Ht].
  rewrite (withToken_at (withEOF body) i t k Ht). auto.
Qed.

Lemma Good_ret f j :
  j <= length body -> (lexed (withEOF body) -> parsable f = true) ->
  Good body (Some (ret (f, j))).
Proof. simpl. auto. Qed.

Lemma parser_keeps_Good fuel :
  (forall i,
     i <= length body -> Good body (parseUnary fuel (withEOF body) i))
  /\ (forall lhs i,
        i <= length body -> (lexed (withEOF body) -> parsable lhs = true) ->
        Good body (whileAnd fuel (withEOF body) lhs i))
  /\ (forall i,
        i <= length body ->
        Good body (parseConjunction fuel (withEOF body) i))
  /\ (forall lhs i,
        i <= length body -> (lexed (withEOF body) -> parsable lhs = true) ->
        Good body (whileOr fuel (withEOF body) lhs i))
  /\ (forall i,
        i <= length body ->
        Good body (parseDisjunction fuel (withEOF body) i))
  /\ (forall lhs i,
        i <= length body -> (lexed (withEOF body) -> parsable lhs = true) ->
        Good body (whileImplies fuel (withEOF body) lhs i))
  /\ (forall i,
        i <= length body ->
        Good body (parseImplication fuel (withEOF body) i)).
Proof.
  induction fuel as [|n (U & WA & PC & WO & PD & WI & PI)].
  { repeat split; intros; exact I. }
  assert (binary : forall c lhs rhs,
            c <> NOT ->
            (lexed (withEOF body) -> parsable lhs = true) ->
            (lexed (withEOF body) -> parsable rhs = true) ->
            lexed (withEOF body) -> parsable (BINARY c lhs rhs) = true).
  { intros c lhs rhs Hc Hl Hr Hcons. simpl.
    rewrite (Hl Hcons), (Hr Hcons). destruct c; try reflexivity.
    contradiction. }
  split; [|split; [|split; [|split; [|split; [|split]]]]].
  - (* parseUnary *)
    intros i Hi. rewrite parseUnary_S. apply Good_withToken; [exact Hi|].
    intros t Ht. destruct (tok_type t) eqn:Hty; try reflexivity.
    + (* a proposition *)
      apply Good_ret.
      * apply (consumed_is_before_EOF i t Hi Ht). rewrite Hty. discriminate.
      * intros Hc. exact (proposition_token_is_parsable i t Hc Ht Hty).
    + (* a negation *)
      assert (Hn : i + 1 <= length body)
        by (apply (consumed_is_before_EOF i t Hi Ht); rewrite Hty;
            discriminate).
      apply Good_bind; [apply U; exact Hn|].
      intros f j Hj Hf. apply Good_ret; [exact Hj | exact Hf].
    + (* a parenthesis *)
      assert (Hn : i + 1 <= length body)
        by (apply (consumed_is_before_EOF i t Hi Ht); rewrite Hty;
            discriminate).
      apply Good_bind; [apply PI; exact Hn|].
      intros f j Hj Hf. apply Good_withToken; [exact Hj|].
      intros t' Ht'. destruct (tok_type t') eqn:Hty'; try reflexivity.
      apply Good_ret; [|exact Hf].
      apply (consumed_is_before_EOF j t' Hj Ht'). rewrite Hty'. discriminate.
  - (* whileAnd *)
    intros lhs i Hi Hl. rewrite whileAnd_S.
    apply Good_withToken; [exact Hi|]. intros t Ht.
    destruct (tok_type t) eqn:Hty; try (apply Good_ret; assumption).
    assert (Hn : i + 1 <= length body)
      by (apply (consumed_is_before_EOF i t Hi Ht); rewrite Hty;
          discriminate).
    apply Good_bind; [apply U; exact Hn|].
    intros f j Hj Hf. apply WA; [exact Hj|].
    apply binary; [discriminate | exact Hl | exact Hf].
  - (* parseConjunction *)
    intros i Hi. rewrite parseConjunction_S.
    apply Good_bind; [apply U; exact Hi|].
    intros f j Hj Hf. apply WA; assumption.
  - (* whileOr *)
    intros lhs i Hi Hl. rewrite whileOr_S.
    apply Good_withToken; [exact Hi|]. intros t Ht.
    destruct (tok_type t) eqn:Hty; try (apply Good_ret; assumption).
    assert (Hn : i + 1 <= length body)
      by (apply (consumed_is_before_EOF i t Hi Ht); rewrite Hty;
          discriminate).
    apply Good_bind; [apply PC; exact Hn|].
    intros f j Hj Hf. apply WO; [exact Hj|].
    apply binary; [discriminate | exact Hl | exact Hf].
  - (* parseDisjunction *)
    intros i Hi. rewrite parseDisjunction_S.
    apply Good_bind; [apply PC; exact Hi|].
    intros f j Hj Hf. apply WO; assumption.
  - (* whileImplies *)
    intros lhs i Hi Hl. rewrite whileImplies_S.
    apply Good_withToken; [exact Hi|]. intros t Ht.
    destruct (tok_type t) eqn:Hty; try (apply Good_ret; assumption).
    assert (Hn : i + 1 <= length body)
      by (apply (consumed_is_before_EOF i t Hi Ht); rewrite Hty;
          discriminate).
    apply Good_bind; [apply PI; exact Hn|].
    intros f j Hj Hf. apply WI; [exact Hj|].
    apply binary; [discriminate | exact Hl | exact Hf].
  - (* parseImplication *)
    intros i Hi. rewrite parseImplication_S.
    apply Good_bind; [apply PD; exact Hi|].
    intros f j Hj Hf. apply WI; assumption.
Qed.

Lemma parse_is_safe :
  exists res,
    parse (withEOF body) = Some res
    /\ match res with
       | inl e => kindOf e = ParseError
       | inr f => lexed (withEOF body) -> parsable f = true
       end.
Proof.
  destruct (parse_terminates (withEOF body)) as [res Hres]. exists res.
  split; [exact Hres|].
  unfold parse, parseWithFuel in Hres.
  destruct (parser_keeps_Good (parseFuel (withEOF body)))
    as (_ & _ & _ & _ & _ & _ & PI).
  specialize (PI 0 (Nat.le_0_l _)).
  destruct (parseImplication (parseFuel (withEOF body)) (withEOF body) 0)
    as [[e | [f j]] |]; simpl in Hres, PI.
  - injection Hres as <-. exact PI.
  - destruct PI as [Hj Hf]. destruct (EOF_is_last j Hj) as [t Ht].
    rewrite (withToken_at (withEOF body) j t _ Ht) in Hres.
    destruct (negb _); injection Hres as <-; [reflexivity | exact Hf].
  - discriminate.
Qed.

End Parser_safety.

Section Parser_results.

Lemma tokenize_ends_withEOF input toks :
  tokenize input = inr toks ->
  exists body, toks = withEOF body /\ lexed toks.
Proof.
  unfold tokenize. intros E.
  destruct (tokenizeFrom_keeps_the_text input 0 [] toks E)
    as (new & -> & _ & H2 & _).
  exists new. split; [reflexivity|]. cbn [app].
  apply Forall_app. split; [exact H2 | repeat constructor].
Qed.

Lemma tokenize_error_kind input e :
  tokenize input = inl e -> kindOf e = LexError.
Proof.
  unfold tokenize. intros E.
  destruct (tokenizeFrom_error input 0 [] e E)
    as (c & p & _ & _ & [(-> & _) | (-> & _)]); reflexivity.
Qed.

(** On a token array that ends with an EOF token, as [tokenize] builds
    it, [parse] returns a formula or throws one of its own three errors:
    it never reads a token past the end of the array, which would raise a
    TypeError. *)
Theorem parse_never_reads_past_EOF body :
  exists res,
    parse (withEOF body) = Some res
    /\ forall e, res = inl e -> kindOf e = ParseError.
Proof.
  destruct (parse_is_safe body) as (res & Hres & Hgood).
  exists res. split; [exact Hres|]. intros e ->. exact Hgood.
Qed.

(** Without a token of type EOF [parse] returns no formula: the test after
    the top-level call needs one. *)
Theorem parse_needs_an_EOF_token tokens f :
  parse tokens = Some (inr f) ->
  exists t, In t tokens /\ tok_type t = T_EOF.
Proof.
  unfold parse, parseWithFuel. intros H.
  destruct (parseImplication (parseFuel tokens) tokens 0)
    as [[e | [g j]] |]; simpl in H; try discriminate.
  unfold withToken, peek in H.
  destruct (nth_error tokens j) as [t|] eqn:Ht; simpl in H;
    [|discriminate].
  exists t. split; [exact (nth_error_In _ _ Ht)|].
  destruct (tok_type t); simpl in H; try discriminate. reflexivity.
Qed.

Lemma parse_needs_an_EOF_token_witness :
  exists t,
    In t [mkToken T_PROPOSITION (lit "P"); mkToken T_EOF []]
    /\ tok_type t = T_EOF.
Proof.
  apply (parse_needs_an_EOF_token
           [mkToken T_PROPOSITION (lit "P"); mkToken T_EOF []] atomP).
  reflexivity.
Defined.

(** The /api/parse pipeline fails only with a lexer error or a parser
    error, whatever the input string. *)
Theorem parseFormula_fails_only_with_lex_or_parse_errors input e :
  parseFormula input = Some (inl e) ->
  kindOf e = LexError \/ kindOf e = ParseError.
Proof.
  unfold parseFormula. destruct (tokenize input) as [e' | toks] eqn:Etok.
  - intros H. injection H as <-. left.
    exact (tokenize_error_kind input e' Etok).
  - intros H.
    destruct (tokenize_ends_withEOF input toks Etok) as (body & -> & _).
    destruct (parse_is_safe body) as (res & Hres & Hgood).
    rewrite Hres in H. injection H as ->. right. exact Hgood.
Qed.

Lemma parseFormula_fails_only_with_lex_or_parse_errors_witness :
  kindOf (Unexpected_token []) = LexError
  \/ kindOf (Unexpected_token []) = ParseError.
Proof.
  apply (parseFormula_fails_only_with_lex_or_parse_errors (lit "P ->")).
  reflexivity.
Defined.

(** A formula returned for an input string has single upper-case letters
    as atoms and no binary node tagged NOT, and the text [formatFormula]
    writes for it parses back to the same formula. *)
Theorem parseFormula_result_reads_back input f :
  parseFormula input = Some (inr f) ->
  parsable f = true /\ parseFormula (formatFormula f) = Some (inr f).
Proof.
  unfold parseFormula at 1.
  destruct (tokenize input) as [e' | toks] eqn:Etok; [discriminate|].
  intros H.
  destruct (tokenize_ends_withEOF input toks Etok) as (body & -> & Hcons).
  destruct (parse_is_safe body) as (res & Hres & Hgood).
  rewrite Hres in H. injection H as ->.
  assert (Hp : parsable f = true) by exact (Hgood Hcons).
  split; [exact Hp|].
  unfold parseFormula. rewrite (tokenize_formatFormula f Hp).
  exact (parse_tokensOf f Hp).
Qed.

Lemma parseFormula_result_reads_back_witness :
  parsable (BINARY IMPLIES atomP (BINARY IMPLIES atomQ atomR)) = true
  /\ parseFormula
       (formatFormula (BINARY IMPLIES atomP (BINARY IMPLIES atomQ atomR)))
     = Some (inr (BINARY IMPLIES atomP (BINARY IMPLIES atomQ atomR))).
Proof.
  apply (parseFormula_result_reads_back (lit "P -> Q -> R")).
  reflexivity.
Defined.

End Parser_results.

Section Parser_errors.

Lemma LoopThrows_Or tokens lhs i t e :
  nth_error tokens i = Some t -> tok_type t = T_OR ->
  Throws parseConjunction tokens (i + 1) e ->
  LoopThrows whileOr tokens lhs i e.
Proof.
  intros Ht Hty [k1 H1]. exists (S k1). intros [|n] Hn; [lia|].
  rewrite whileOr_S, (withToken_at _ _ _ _ Ht), Hty.
  rewrite (H1 n ltac:(lia)). reflexivity.
Qed.

Lemma LoopThrows_Implies tokens lhs i t e :
  nth_error tokens i = Some t -> tok_type t = T_IMPLIES ->
  Throws parseImplication tokens (i + 1) e ->
  LoopThrows whileImplies tokens lhs i e.
Proof.
  intros Ht Hty [k1 H1]. exists (S k1). intros [|n] Hn; [lia|].
  rewrite whileImplies_S, (withToken_at _ _ _ _ Ht), Hty.
  rewrite (H1 n ltac:(lia)). reflexivity.
Qed.

Lemma Throws_disjunction_loop tokens i l j e :
  Parses parseConjunction tokens i l j ->
  LoopThrows whileOr tokens l j e ->
  Throws parseDisjunction tokens i e.
Proof.
  intros [k1 H1] [k2 H2]. exists (S (Nat.max k1 k2)).
  intros [|n] Hn; [lia|].
  rewrite parseDisjunction_S, (H1 n ltac:(lia)). simpl. apply H2. lia.
Qed.

Lemma Throws_implication_loop tokens i l j e :
  Parses parseDisjunction tokens i l j ->
  LoopThrows whileImplies tokens l j e ->
  Throws parseImplication tokens i e.
Proof.
  intros [k1 H1] [k2 H2]. exists (S (Nat.max k1 k2)).
  intros [|n] Hn; [lia|].
  rewrite parseImplication_S, (H1 n ltac:(lia)). simpl. apply H2. lia.
Qed.

Lemma Throws_unary_to_implication tokens i e :
  Throws parseUnary tokens i e -> Throws parseImplication tokens i e.
Proof.
  intros H. apply Throws_implication, Throws_disjunction, Throws_conjunction.
  exact H.
Qed.

(** The first token of a formula's text: a proposition, a negation sign or
    an opening parenthesis, spelled by the first character of the text. *)
Lemma tokensOf_head g :
  parsable g = true ->
  exists t rest,
    tokensOf g = t :: rest
    /\ stopsLoops t /\ tok_type t <> T_EOF
    /\ tok_type t <> T_RIGHT_PAREN
    /\ tok_value t = firstn 1 (formatFormula g).
Proof.
  intros Hp. destruct g as [ks name | ks g | ks c l r];
    destruct ks; try discriminate Hp.
  - destruct name as [|ch [|ch' name]]; try discriminate Hp.
    exists (mkToken T_PROPOSITION [ch]), [].
    repeat split; discriminate.
  - exists (mkToken T_NOT [ch_NOT_SIGN]), (tokensOf g).
    repeat split; discriminate.
  - eexists (mkToken T_LEFT_PAREN [ch_LEFT_PAREN]), _.
    split; [reflexivity|]. repeat split; discriminate.
Qed.

Lemma tokenize_whitespace input :
  withoutWhitespace input = [] ->
  forall position tokens,
    tokenizeFrom input position tokens = inr (tokens ++ [mkToken T_EOF []]).
Proof.
  induction input as [|c rest IH]; intros Hw position tokens.
  - reflexivity.
  - unfold withoutWhitespace in Hw. cbn [filter] in Hw.
    destruct (isWhitespace c) eqn:Ec; cbn [negb] in Hw; [|discriminate].
    rewrite (tokenizeFrom_whitespace c rest position tokens Ec).
    apply IH. exact Hw.
Qed.

(** A binary connective with a missing operand.  After the text of a
    parsable formula, a connective that nothing follows makes the parser
    meet the EOF token where an operand must start; a connective that
    nothing precedes is itself met there.  Both are reported as an
    unexpected token, the first with the empty text of EOF. *)
Theorem parse_rejects_a_missing_operand f c :
  parsable f = true -> c <> NOT ->
  parseFormula (formatFormula f ++ connectiveText c)
  = Some (inl (Unexpected_token []))
  /\ parseFormula (connectiveText c ++ formatFormula f)
     = Some (inl (Unexpected_token (withoutWhitespace (connectiveText c)))).
Proof.
  intros Hp Hc. split.
  - unfold parseFormula, tokenize.
    destruct (tokenizeFrom_formatFormula f Hp (connectiveText c) 0 [])
      as [p1 E1].
    rewrite E1.
    rewrite <- (app_nil_r (connectiveText c)).
    rewrite (tokenizeFrom_connectiveText c [] _ _ Hc).
    cbn [tokenizeFrom app].
    set (tokens := (tokensOf f ++ connectiveToken c)
                     ++ [mkToken T_EOF []]).
    pose proof (sliceAt_whole tokens) as Hs. unfold tokens at 2 in Hs.
    rewrite <- app_assoc in Hs.
    apply sliceAt_app in Hs. destruct Hs as [SA Hs].
    apply sliceAt_app in Hs. destruct Hs as [S1 SE].
    apply sliceAt_head in SE. destruct SE as [TE _].
    pose proof (tokensOf_unary tokens f Hp _ SA) as PA.
    simpl Nat.add in *.
    assert (EOFthrows :
              Throws parseUnary tokens
                (length (tokensOf f) + length (connectiveToken c))
                (Unexpected_token []))
      by (exact (Throws_unexpected tokens _ _ TE
                   ltac:(discriminate) ltac:(discriminate)
                   ltac:(discriminate))).
    apply parse_of_Throws.
    destruct c; try contradiction; cbn [connectiveToken length] in *;
      apply sliceAt_head in S1; destruct S1 as [T1 _].
    + apply Throws_implication, Throws_disjunction.
      eapply Throws_conjunction_loop; [exact PA|].
      eapply LoopThrows_And; [exact T1 | reflexivity | exact EOFthrows].
    + apply Throws_implication.
      eapply Throws_disjunction_loop;
        [eapply Parses_up_conjunction; [exact PA | exact T1 | discriminate]|].
      eapply LoopThrows_Or; [exact T1 | reflexivity|].
      apply Throws_conjunction. exact EOFthrows.
    + eapply Throws_implication_loop;
        [eapply Parses_unary_to_disjunction;
           [exact PA | exact T1 | discriminate | discriminate]|].
      eapply LoopThrows_Implies; [exact T1 | reflexivity|].
      apply Throws_unary_to_implication. exact EOFthrows.
  - unfold parseFormula, tokenize.
    rewrite (tokenizeFrom_connectiveText c _ _ _ Hc).
    destruct (tokenizeFrom_formatFormula f Hp [] (0 + 1 + 1 + 1)
                ([] ++ connectiveToken c)) as [p1 E1].
    rewrite app_nil_r in E1. rewrite E1. cbn [tokenizeFrom app].
    apply parse_of_Throws. apply Throws_unary_to_implication.
    destruct c; try contradiction;
      match goal with
      | |- Throws _ ?toks _ _ =>
          refine (Throws_unexpected toks 0 _ eq_refl _ _ _); discriminate
      end.
Qed.

Lemma parse_rejects_a_missing_operand_witness :
  parseFormula (formatFormula (FNOT atomP) ++ connectiveText IMPLIES)
  = Some (inl (Unexpected_token []))
  /\ parseFormula (connectiveText IMPLIES ++ formatFormula (FNOT atomP))
     = Some (inl (Unexpected_token
                    (withoutWhitespace (connectiveText IMPLIES)))).
Proof.
  apply parse_rejects_a_missing_operand; [reflexivity | discriminate].
Defined.

(** Unbalanced parentheses.  An opening parenthesis before the text of a
    parsable formula is never closed: the parser finds EOF where it
    expects the closing one.  A closing parenthesis after the text is left
    over when the top-level call returns. *)
Theorem parse_rejects_unbalanced_parentheses f :
  parsable f = true ->
  parseFormula (ch_LEFT_PAREN :: formatFormula f)
  = Some (inl (Expected_right_paren_but_found []))
  /\ parseFormula (formatFormula f ++ [ch_RIGHT_PAREN])
     = Some (inl (Unexpected_token_at_end [ch_RIGHT_PAREN])).
Proof.
  intros Hp. split.
  - unfold parseFormula, tokenize.
    rewrite (tokenizeFrom_single ch_LEFT_PAREN T_LEFT_PAREN _ 0 []
               eq_refl eq_refl).
    destruct (tokenizeFrom_formatFormula f Hp [] (0 + 1)
                ([] ++ [mkToken T_LEFT_PAREN [ch_LEFT_PAREN]])) as [p1 E1].
    rewrite app_nil_r in E1. rewrite E1. cbn [tokenizeFrom app].
    set (tokens := (mkToken T_LEFT_PAREN [ch_LEFT_PAREN] :: tokensOf f)
                     ++ [mkToken T_EOF []]).
    pose proof (sliceAt_whole tokens) as Hs. unfold tokens at 2 in Hs.
    cbn [app] in Hs.
    apply sliceAt_head in Hs. destruct Hs as [T0 Hs].
    apply sliceAt_app in Hs. destruct Hs as [SA SE].
    apply sliceAt_head in SE. destruct SE as [TE _].
    pose proof (tokensOf_unary tokens f Hp _ SA) as PA.
    simpl Nat.add in *.
    apply parse_of_Throws. apply Throws_unary_to_implication.
    refine (Throws_unclosed tokens 0 _ f _ _ T0 eq_refl _ TE _);
      [|discriminate].
    eapply Parses_unary_to_implication;
      [exact PA | exact TE | repeat split; discriminate].
  - unfold parseFormula, tokenize.
    destruct (tokenizeFrom_formatFormula f Hp [ch_RIGHT_PAREN] 0 [])
      as [p1 E1].
    rewrite E1.
    rewrite (tokenizeFrom_single ch_RIGHT_PAREN T_RIGHT_PAREN [] _ _
               eq_refl eq_refl).
    cbn [tokenizeFrom app].
    set (tokens := (tokensOf f ++ [mkToken T_RIGHT_PAREN [ch_RIGHT_PAREN]])
                     ++ [mkToken T_EOF []]).
    pose proof (sliceAt_whole tokens) as Hs. unfold tokens at 2 in Hs.
    rewrite <- app_assoc in Hs.
    apply sliceAt_app in Hs. destruct Hs as [SA Hs].
    apply sliceAt_head in Hs. destruct Hs as [T1 _].
    pose proof (tokensOf_unary tokens f Hp _ SA) as PA.
    simpl Nat.add in *. unfold ret.
    rewrite (parse_of_Parses tokens f _ _
               (Parses_unary_to_implication tokens 0 f _ _ PA T1
                  ltac:(repeat split; discriminate)) T1).
    reflexivity.
Qed.

Lemma parse_rejects_unbalanced_parentheses_witness :
  parseFormula (ch_LEFT_PAREN :: formatFormula (BINARY OR atomP atomQ))
  = Some (inl (Expected_right_paren_but_found []))
  /\ parseFormula (formatFormula (BINARY OR atomP atomQ) ++ [ch_RIGHT_PAREN])
     = Some (inl (Unexpected_token_at_end [ch_RIGHT_PAREN])).
Proof.
  apply parse_rejects_unbalanced_parentheses. reflexivity.
Defined.

(** Two formulas with no connective between them.  The text of a parsable
    formula followed by the text of another is rejected after the first
    has been read: the error names the first character of the second. *)
Theorem parse_rejects_juxtaposition f g :
  parsable f = true -> parsable g = true ->
  parseFormula (formatFormula f ++ formatFormula g)
  = Some (inl (Unexpected_token_at_end (firstn 1 (formatFormula g)))).
Proof.
  intros Hf Hg. unfold parseFormula, tokenize.
  destruct (tokenizeFrom_formatFormula f Hf (formatFormula g) 0 [])
    as [p1 E1].
  rewrite E1.
  destruct (tokenizeFrom_formatFormula g Hg [] p1 ([] ++ tokensOf f))
    as [p2 E2].
  rewrite app_nil_r in E2. rewrite E2. cbn [tokenizeFrom app].
  destruct (tokensOf_head g Hg) as (t & rest & Eg & Hstop & Heof & _ & Hval).
  rewrite Eg, <- Hval.
  set (tokens := (tokensOf f ++ t :: rest) ++ [mkToken T_EOF []]).
  pose proof (sliceAt_whole tokens) as Hs. unfold tokens at 2 in Hs.
  rewrite <- app_assoc in Hs.
  apply sliceAt_app in Hs. destruct Hs as [SA Hs].
  cbn [app] in Hs. apply sliceAt_head in Hs. destruct Hs as [T1 _].
  pose proof (tokensOf_unary tokens f Hf _ SA) as PA.
  simpl Nat.add in *. unfold ret.
  rewrite (parse_of_Parses tokens f _ _
             (Parses_unary_to_implication tokens 0 f _ _ PA T1 Hstop) T1).
  destruct (tok_type t); try reflexivity. contradiction.
Qed.

Lemma parse_rejects_juxtaposition_witness :
  parseFormula (formatFormula atomP ++ formatFormula (FNOT atomQ))
  = Some (inl (Unexpected_token_at_end
                 (firstn 1 (formatFormula (FNOT atomQ))))).
Proof.
  apply parse_rejects_juxtaposition; reflexivity.
Defined.

(** Input with nothing but whitespace, the empty string included, is
    tokenized to the EOF token alone and rejected by the parser with the
    empty text of that token. *)
Theorem parse_rejects_blank_input input :
  withoutWhitespace input = [] ->
  tokenize input = inr [mkToken T_EOF []]
  /\ parseFormula input = Some (inl (Unexpected_token [])).
Proof.
  intros Hw. unfold parseFormula, tokenize.
  rewrite (tokenize_whitespace input Hw 0 []). split; reflexivity.
Qed.

Lemma parse_rejects_blank_input_witness :
  tokenize [32; 9; 12288]%N = inr [mkToken T_EOF []]
  /\ parseFormula [32; 9; 12288]%N = Some (inl (Unexpected_token [])).
Proof.
  apply parse_rejects_blank_input. reflexivity.
Defined.

End Parser_errors.
